(** * Sonar simulator: beamforming, CFAR detection, tracking, classification

    A shallow embedding of [sonar_simulator/beamforming.py],
    [sonar_simulator/processing.py] and [sonar_simulator/tracker.py], and of
    the array functions of [sonar_simulator/ocean.py] and
    [sonar_simulator/input.py] and the peak rule of [sonar_simulator/main.py].

    Number model.  The Python code computes on IEEE binary64 values through
    numpy.  Here a finite float is read as the real number it stands for and
    the arithmetic on finite values is exact real arithmetic ([R]); overflow
    is not modelled, and rounding is modelled where it decides what the
    program does: where a result is truncated to an index, compared with a
    threshold or can underflow to zero, the model takes the float64
    operations as a parameter ([float64] below) and the result is the one
    computed.  The special values that the code can
    produce out of finite inputs (the [nan] and [inf] of [np.log] and
    [np.sqrt] outside their domain, [float('inf')]) are modelled explicitly
    where the code meets them.  Exceptions are results: a function that can
    raise returns an [outcome]. *)

From Stdlib Require Import Reals Lra Lia ZArith List Bool Sorted.
From Stdlib Require String.
Import ListNotations.

Open Scope R_scope.

(** ** Python results *)

(** The exceptions the modelled functions can raise.  numpy reports a failed
    broadcast, a matrix product with unequal inner dimensions and an empty
    FFT axis all as [ValueError]; they are kept apart here by their origin. *)
Inductive pyerror : Type :=
| ZeroDivisionError
| BroadcastError      (* ValueError: operands could not be broadcast together *)
| MatmulShapeError    (* ValueError: matmul, mismatch in its core dimension *)
| FFTLengthError      (* ValueError: invalid number of FFT data points *)
| LinAlgError         (* numpy.linalg.LinAlgError: singular matrix *)
| IndexError
| KeyError
| EstimatorError.     (* whatever scikit-learn raises *)

Inductive outcome (A : Type) : Type :=
| Returned (a : A)
| Raised (e : pyerror).
Arguments Returned {A} a.
Arguments Raised {A} e.

Definition bind {A B : Type} (m : outcome A) (f : A -> outcome B) : outcome B :=
  match m with
  | Returned a => f a
  | Raised e => Raised e
  end.

Notation "x <- m ;; k" := (bind m (fun x => k))
  (at level 61, m at next level, right associativity).

(** ** Complex numbers (numpy's complex128 over the real model) *)

Record C : Type := mkC { Re : R; Im : R }.

Definition RtoC (x : R) : C := mkC x 0.
Definition Ci : C := mkC 0 1.
Definition Cadd (a b : C) : C := mkC (Re a + Re b) (Im a + Im b).
Definition Cneg (a : C) : C := mkC (- Re a) (- Im a).
Definition Cmul (a b : C) : C :=
  mkC (Re a * Re b - Im a * Im b) (Re a * Im b + Im a * Re b).
Definition Cconj (a : C) : C := mkC (Re a) (- Im a).
Definition Cnorm2 (a : C) : R := Re a * Re a + Im a * Im a.
Definition Cmod (a : C) : R := sqrt (Cnorm2 a).
Definition Cinv (a : C) : C := mkC (Re a / Cnorm2 a) (- Im a / Cnorm2 a).
Definition Cdiv (a b : C) : C := Cmul a (Cinv b).
(** [np.exp] on a complex argument. *)
Definition Cexp (z : C) : C := mkC (exp (Re z) * cos (Im z)) (exp (Re z) * sin (Im z)).
(** The complex number of modulus one and phase [theta]. *)
Definition Cphase (theta : R) : C := mkC (cos theta) (sin theta).

Definition Csum (l : list C) : C := fold_left Cadd l (RtoC 0).

(** ** Python and numpy helpers *)

(** [int(x)] on a finite float: truncation toward zero. *)
Definition py_int (x : R) : Z :=
  if Rle_dec 0 x then Int_part x else (- Int_part (- x))%Z.

(** The bounds Python gives a slice [a:b] on an axis of length [n]. *)
Definition slice_bound (n : nat) (i : Z) : Z :=
  if (i <? 0)%Z then Z.max 0 (i + Z.of_nat n) else Z.min i (Z.of_nat n).

(** The indices selected by [a:b] on an axis of length [n]. *)
Definition slice_range (n : nat) (a b : Z) : list nat :=
  let lo := slice_bound n a in
  let hi := slice_bound n b in
  seq (Z.to_nat lo) (Z.to_nat (hi - lo)).

(** [l[a:b]] on a list. *)
Definition py_slice {A : Type} (l : list A) (a b : Z) : list A :=
  let lo := slice_bound (length l) a in
  let hi := slice_bound (length l) b in
  firstn (Z.to_nat (hi - lo)) (skipn (Z.to_nat lo) l).

(** [l[i] = v] for an index inside the list. *)
Fixpoint list_set {A : Type} (l : list A) (i : nat) (v : A) : list A :=
  match l, i with
  | [], _ => []
  | _ :: t, O => v :: t
  | h :: t, S i' => h :: list_set t i' v
  end.

(** The length of one axis after broadcasting two operands. *)
Definition broadcast_dim (a b : nat) : outcome nat :=
  if (a =? b)%nat then Returned a
  else if (a =? 1)%nat then Returned b
  else if (b =? 1)%nat then Returned a
  else Raised BroadcastError.

(** The index read in an operand of length [n] for the broadcast index [i]. *)
Definition bidx (n i : nat) : nat := if (n =? 1)%nat then 0%nat else i.

(** A float64 result that may be non-finite. *)
Inductive npfloat : Type :=
| Fin (x : R)
| PInf
| NInf
| NaN.

Definition np_neg (a : npfloat) : npfloat :=
  match a with
  | Fin x => Fin (- x)
  | PInf => NInf
  | NInf => PInf
  | NaN => NaN
  end.

Definition np_add (a b : npfloat) : npfloat :=
  match a, b with
  | Fin x, Fin y => Fin (x + y)
  | NaN, _ | _, NaN => NaN
  | PInf, NInf | NInf, PInf => NaN
  | PInf, _ | _, PInf => PInf
  | NInf, _ | _, NInf => NInf
  end.

(** The sign of a finite factor decides what an infinite factor becomes. *)
Definition np_mul_inf (x : R) (pos : bool) : npfloat :=
  if Req_dec_T x 0 then NaN
  else if Rlt_dec 0 x then (if pos then PInf else NInf)
  else (if pos then NInf else PInf).

Definition np_mul (a b : npfloat) : npfloat :=
  match a, b with
  | Fin x, Fin y => Fin (x * y)
  | NaN, _ | _, NaN => NaN
  | Fin x, PInf | PInf, Fin x => np_mul_inf x true
  | Fin x, NInf | NInf, Fin x => np_mul_inf x false
  | PInf, PInf | NInf, NInf => PInf
  | PInf, NInf | NInf, PInf => NInf
  end.

(** [np.log] of a finite float: [-inf] at 0 and [nan] below (with a
    warning, no exception). *)
Definition np_log (x : R) : npfloat :=
  if Rlt_dec 0 x then Fin (ln x)
  else if Req_dec_T x 0 then NInf else NaN.

(** [np.sqrt]: [nan] on a negative argument. *)
Definition np_sqrt (a : npfloat) : npfloat :=
  match a with
  | Fin x => if Rle_dec 0 x then Fin (sqrt x) else NaN
  | PInf => PInf
  | NInf => NaN
  | NaN => NaN
  end.

(** [a > b]; every comparison with [nan] is false. *)
Definition np_gt (a b : npfloat) : bool :=
  match a, b with
  | Fin x, Fin y => if Rlt_dec y x then true else false
  | NaN, _ | _, NaN => false
  | PInf, PInf | NInf, NInf => false
  | PInf, _ => true
  | _, NInf => true
  | _, PInf => false
  | NInf, _ => false
  end.

Definition Rsum (l : list R) : R := fold_right Rplus 0 l.

(** [np.mean] of a non-empty 1-D array of finite values. *)
Definition np_mean (l : list R) : R := Rsum l / INR (length l).

(** ** beamforming.py *)

Module Beamforming.

(** A row of a [(num_elements, 3)] positions array. *)
Definition vec3 : Type := (R * R * R)%type.

Definition dot3 (p d : vec3) : R :=
  let '(px, py, pz) := p in
  let '(dx, dy, dz) := d in
  px * dx + py * dy + pz * dz.

(** [np.deg2rad] *)
Definition deg2rad (deg : R) : R := deg * (PI / 180).

(** [steering_vector(positions, az_deg, el_deg, freq, c)].  [freq] and [c]
    are Python floats, so [freq / c] raises on [c == 0.0]. *)
Definition steering_vector (positions : list vec3) (az_deg el_deg freq c : R)
  : outcome (list C) :=
  let az := deg2rad az_deg in
  let el := deg2rad el_deg in
  if Req_dec_T c 0 then Raised ZeroDivisionError else
  let k := 2 * PI * freq / c in
  let direction := (cos el * cos az, cos el * sin az, sin el) in
  Returned
    (map (fun p => Cexp (Cmul (Cmul (Cneg Ci) (RtoC k)) (RtoC (dot3 p direction))))
         positions).

(** The spec's words: the unit direction of a bearing given in degrees, by
    the spherical-to-Cartesian conversion. *)
Definition unit_direction (az_deg el_deg : R) : vec3 :=
  let az := az_deg * PI / 180 in
  let el := el_deg * PI / 180 in
  (cos el * cos az, cos el * sin az, sin el).

(** A 2-D numpy array: its shape and its entries.  Entries outside the
    shape are never read. *)
Record ndarray2 (A : Type) : Type :=
  mk2 { dim0 : nat; dim1 : nat; at2 : nat -> nat -> A }.
Arguments mk2 {A} dim0 dim1 at2.
Arguments dim0 {A} n.
Arguments dim1 {A} n.
Arguments at2 {A} n i j.

(** A complex entry that may be non-finite: [None] stands for the [nan] or
    [inf] entries that a division by zero leaves in an array (numpy warns and
    goes on). *)
Definition npc : Type := option C.

Definition npc_lift2 (f : C -> C -> C) (a b : npc) : npc :=
  match a, b with
  | Some x, Some y => Some (f x y)
  | _, _ => None
  end.

Definition npc_sum (l : list npc) : npc :=
  fold_left (npc_lift2 Cadd) l (Some (RtoC 0)).

Definition Ceq_dec (a b : C) : {a = b} + {a <> b}.
Proof.
  destruct a as [ar ai], b as [br bi].
  destruct (Req_dec_T ar br) as [Hr | Hr]; [|right; congruence].
  destruct (Req_dec_T ai bi) as [Hi | Hi]; [|right; congruence].
  left; congruence.
Defined.

(** Array division by a scalar. *)
Definition npc_div (a d : C) : npc :=
  if Ceq_dec d (RtoC 0) then None else Some (Cdiv a d).

(** [delay_and_sum(data, positions, az_deg, el_deg, fs, freq, c)];
    [data] has shape [(num_elements, N)]. *)
Definition delay_and_sum (data : ndarray2 R) (positions : list vec3)
    (az_deg el_deg : R) (fs : Z) (freq c : R) : outcome (list npc) :=
  sv <- steering_vector positions az_deg el_deg freq c ;;
  (* steered = data * sv[:, None].conjugate() : (E, N) against (M, 1) *)
  rows <- broadcast_dim (dim0 data) (length sv) ;;
  let steered (i j : nat) : C :=
    Cmul (RtoC (at2 data (bidx (dim0 data) i) j))
         (Cconj (nth (bidx (length sv) i) sv (RtoC 0))) in
  (* np.sum(steered, axis=0) / data.shape[0] *)
  Returned
    (map (fun j => npc_div (Csum (map (fun i => steered i j) (seq 0 rows)))
                           (RtoC (INR (dim0 data))))
         (seq 0 (dim1 data))).

(** [np.fft.fft(data, axis=1)]: the discrete Fourier transform of each row;
    numpy refuses an axis of length 0. *)
Definition dft_row (N : nat) (x : nat -> R) (k : nat) : C :=
  Csum (map (fun n => Cmul (RtoC (x n))
                           (Cexp (mkC 0 (- (2 * PI * INR k * INR n / INR N)))))
            (seq 0 N)).

Definition fft_axis1 (data : ndarray2 R) : outcome (ndarray2 C) :=
  if (dim1 data =? 0)%nat then Raised FFTLengthError
  else Returned (mk2 (dim0 data) (dim1 data)
                     (fun i k => dft_row (dim1 data) (at2 data i) k)).

(** Line 46: [bin_idx = int(freq / (data.shape[1])) if data.shape[1] > 0 else 0]. *)
Definition mvdr_bin_idx (freq : R) (N : nat) : Z :=
  if (0 <? N)%nat then py_int (freq / INR N) else 0%Z.

(** Lines 47-49: [snapshot = X[:, bin_idx:bin_idx+1]],
    [R = snapshot @ snapshot.conj().T], [R += reg * np.eye(R.shape[0])]. *)
Definition mvdr_covariance (X : ndarray2 C) (bin_idx : Z) (reg : R)
  : nat -> nat -> C :=
  let cols := slice_range (dim1 X) bin_idx (bin_idx + 1) in
  fun i j =>
    Cadd (Csum (map (fun k => Cmul (at2 X i k) (Cconj (at2 X j k))) cols))
         (RtoC (if (i =? j)%nat then reg else 0)).

Section Mvdr.

(** [numpy.linalg.inv] on an [n] by [n] complex matrix, a library routine
    outside the repository: [None] when it raises [LinAlgError]. *)
Variable np_inv : nat -> (nat -> nat -> C) -> option (nat -> nat -> C).

(** [mvdr_beamform(data, positions, az_deg, el_deg, freq, reg)] *)
Definition mvdr_beamform (data : ndarray2 R) (positions : list vec3)
    (az_deg el_deg freq reg : R) : outcome (list npc) :=
  let E := dim0 data in
  X <- fft_axis1 data ;;
  let bin_idx := mvdr_bin_idx freq (dim1 data) in
  let Rm := mvdr_covariance X bin_idx reg in
  sv <- steering_vector positions az_deg el_deg freq 1500 ;;
  match np_inv E Rm with
  | None => Raised LinAlgError
  | Some Rinv =>
      (* w = inv(R) @ sv : (E, E) @ (M,) *)
      if negb (E =? length sv)%nat then Raised MatmulShapeError else
      let w0 (i : nat) : C :=
        Csum (map (fun j => Cmul (Rinv i j) (nth j sv (RtoC 0))) (seq 0 E)) in
      (* w = w / (sv.conj().T @ inv(R) @ sv) *)
      let row (j : nat) : C :=
        Csum (map (fun i => Cmul (Cconj (nth i sv (RtoC 0))) (Rinv i j)) (seq 0 E)) in
      let den : C :=
        Csum (map (fun j => Cmul (row j) (nth j sv (RtoC 0))) (seq 0 E)) in
      let w (i : nat) : npc := npc_div (w0 i) den in
      (* (w.conj().T @ data).ravel() *)
      Returned
        (map (fun j =>
                npc_sum (map (fun i =>
                                npc_lift2 Cmul (option_map Cconj (w i))
                                          (Some (RtoC (at2 data i j))))
                             (seq 0 E)))
             (seq 0 (dim1 data)))
  end.

End Mvdr.

(** The spec's words: the centre frequency of FFT bin [k] for [N] samples
    taken at sample rate [fs] (the frequency resolution is [fs / N]), and
    the bin nearest a target frequency. *)
Definition bin_centre (fs : R) (N k : nat) : R := INR k * (fs / INR N).

Definition nearest_bin (fs : R) (N : nat) (freq : R) (k : nat) : Prop :=
  (k < N)%nat /\
  forall k' : nat, (k' < N)%nat ->
    Rabs (freq - bin_centre fs N k) <= Rabs (freq - bin_centre fs N k').

(** An inverse for 1 by 1 matrices, to run [mvdr_beamform] on one channel. *)
Definition inv_1x1 (n : nat) (A : nat -> nat -> C) : option (nat -> nat -> C) :=
  if Ceq_dec (A 0%nat 0%nat) (RtoC 0) then None
  else Some (fun _ _ => Cinv (A 0%nat 0%nat)).

End Beamforming.

(** ** processing.py *)

Module Processing.

(** Lines 28-32 of [simple_cfar]: the noise samples of cell [i]. *)
Definition noise_samples (data : list R) (guard noise_win : Z) (i : Z) : list R :=
  let N := Z.of_nat (length data) in
  let left_start := Z.max 0 (i - guard - noise_win) in
  let left_end := Z.max 0 (i - guard) in
  let right_start := Z.min N (i + guard + 1) in
  let right_end := Z.min N (i + guard + 1 + noise_win) in
  py_slice data left_start left_end ++ py_slice data right_start right_end.

(** Line 36: [noise_level * (1 + 3*np.sqrt(-np.log(rate)))]. *)
Definition cfar_threshold (noise_level rate : R) : npfloat :=
  np_mul (Fin noise_level)
         (np_add (Fin 1) (np_mul (Fin 3) (np_sqrt (np_neg (np_log rate))))).

(** One turn of the loop over [range(N)]. *)
Definition cfar_step (data : list R) (guard noise_win : Z) (rate : R)
    (out : list bool) (i : nat) : list bool :=
  let noise := noise_samples data guard noise_win (Z.of_nat i) in
  if (length noise <? 1)%nat then out   (* continue *)
  else
    let noise_level := np_mean (map Rabs noise) in
    let threshold := cfar_threshold noise_level rate in
    list_set out i (np_gt (Fin (Rabs (nth i data 0))) threshold).

(** What the loop leaves in [out[i]]: the initial [False] when the turn is
    skipped, the comparison otherwise. *)
Definition cell_flag (data : list R) (guard noise_win : Z) (rate : R) (i : nat)
  : bool :=
  let noise := noise_samples data guard noise_win (Z.of_nat i) in
  if (length noise <? 1)%nat then false
  else np_gt (Fin (Rabs (nth i data 0)))
             (cfar_threshold (np_mean (map Rabs noise)) rate).

(** [simple_cfar(data, guard, noise_win, rate)].  No statement of the body
    raises on a 1-D array of floats. *)
Definition simple_cfar (data : list R) (guard noise_win : Z) (rate : R)
  : outcome (list bool) :=
  let N := length data in
  Returned (fold_left (cfar_step data guard noise_win rate)
                      (seq 0 N) (repeat false N)).

(** The spec's words: a window holds the samples [data[j]] with
    [lo <= j < hi], clipped at the array bounds. *)
Definition window (data : list R) (lo hi : Z) : list R :=
  map (fun j => nth j data 0)
      (filter (fun j => (lo <=? Z.of_nat j)%Z && (Z.of_nat j <? hi)%Z)
              (seq 0 (length data))).

(** The spec's words: two symmetric windows of [noise_win] samples, offset
    by [guard] cells on each side of [i]. *)
Definition spec_noise (data : list R) (guard noise_win : Z) (i : nat) : list R :=
  let c := Z.of_nat i in
  window data (c - guard - noise_win) (c - guard) ++
  window data (c + guard + 1) (c + guard + 1 + noise_win).

(** The spec's words: the mean absolute value of the noise samples. *)
Definition spec_noise_level (data : list R) (guard noise_win : Z) (i : nat) : R :=
  Rsum (map Rabs (spec_noise data guard noise_win i)) /
  INR (length (spec_noise data guard noise_win i)).

End Processing.

(** ** tracker.py *)

Module Tracker.

(** 1-D and 2-D float arrays of the tracker.  The products below are total:
    on operands whose shapes do not fit numpy raises, which does not happen
    on the 4-vectors and 4 by 4 matrices the tracker stores (see
    [reachable_shapes] below). *)
Definition vec : Type := list R.
Definition mat : Type := list (list R).

Definition dot (u v : vec) : R :=
  Rsum (map (fun p => fst p * snd p) (combine u v)).
Definition column (A : mat) (j : nat) : vec := map (fun row => nth j row 0) A.
Definition ncols (A : mat) : nat := length (hd [] A).
Definition transpose (A : mat) : mat := map (column A) (seq 0 (ncols A)).
Definition mat_vec (A : mat) (v : vec) : vec := map (fun row => dot row v) A.
Definition mat_mul (A B : mat) : mat :=
  map (fun row => map (fun j => dot row (column B j)) (seq 0 (ncols B))) A.
Definition vec_add (u v : vec) : vec :=
  map (fun p => fst p + snd p) (combine u v).
Definition vec_sub (u v : vec) : vec :=
  map (fun p => fst p - snd p) (combine u v).
Definition mat_add (A B : mat) : mat :=
  map (fun p => vec_add (fst p) (snd p)) (combine A B).
Definition mat_sub (A B : mat) : mat :=
  map (fun p => vec_sub (fst p) (snd p)) (combine A B).
Definition mat_scale (c : R) (A : mat) : mat := map (map (Rmult c)) A.
Definition eye (n : nat) : mat :=
  map (fun i => map (fun j => if (i =? j)%nat then 1 else 0) (seq 0 n)) (seq 0 n).

(** [np.linalg.norm] of a 1-D array. *)
Definition norm (v : vec) : R := sqrt (Rsum (map (fun x => x * x) v)).

(** [u - v] on 1-D arrays, with broadcasting. *)
Definition np_sub1 (u v : vec) : outcome vec :=
  n <- broadcast_dim (length u) (length v) ;;
  Returned (map (fun i => nth (bidx (length u) i) u 0 - nth (bidx (length v) i) v 0)
                (seq 0 n)).

(** [np.linalg.inv] on a 2 by 2 matrix. *)
Definition np_inv2 (S : mat) : outcome mat :=
  match S with
  | [[a; b]; [c; d]] =>
      let det := a * d - b * c in
      if Req_dec_T det 0 then Raised LinAlgError
      else Returned [[d / det; - b / det]; [- c / det; a / det]]
  | _ => Raised LinAlgError
  end.

(** [d[i]] *)
Definition getitem (d : vec) (i : nat) : outcome R :=
  match nth_error d i with
  | Some x => Returned x
  | None => Raised IndexError
  end.

Record Track : Type := mkTrack {
  id : Z;
  state : vec;   (* [x, y, vx, vy] *)
  P : mat
}.

(** A [Dict[int, Track]], in insertion order. *)
Definition dict : Type := list (Z * Track).

Fixpoint dict_get (m : dict) (k : Z) : option Track :=
  match m with
  | [] => None
  | (k', v) :: rest => if (k' =? k)%Z then Some v else dict_get rest k
  end.

(** [m[k] = v]: in place when [k] is a key, at the end otherwise. *)
Fixpoint dict_set (m : dict) (k : Z) (v : Track) : dict :=
  match m with
  | [] => [(k, v)]
  | (k', v') :: rest =>
      if (k' =? k)%Z then (k', v) :: rest else (k', v') :: dict_set rest k v
  end.

Definition keys (m : dict) : list Z := map fst m.

Record TargetTracker : Type := mkTracker {
  tracks : dict;
  next_id : Z
}.

(** [TargetTracker.__init__] *)
Definition init : TargetTracker := mkTracker [] 1.

Definition F_matrix (dt : R) : mat :=
  [[1; 0; dt; 0]; [0; 1; 0; dt]; [0; 0; 1; 0]; [0; 0; 0; 1]].

Definition predict_track (dt : R) (tr : Track) : Track :=
  let F := F_matrix dt in
  mkTrack (id tr)
          (mat_vec F (state tr))
          (mat_add (mat_mul (mat_mul F (P tr)) (transpose F))
                   (mat_scale (1 / 10) (eye 4))).

(** [TargetTracker.predict(dt)] *)
Definition predict (t : TargetTracker) (dt : R) : TargetTracker :=
  mkTracker (map (fun kv => (fst kv, predict_track dt (snd kv))) (tracks t))
            (next_id t).

(** Lines 32-34 and 53-54: a new track at the detection. *)
Definition create_track (t : TargetTracker) (d : vec) : outcome TargetTracker :=
  d0 <- getitem d 0 ;;
  d1 <- getitem d 1 ;;
  Returned (mkTracker
              (dict_set (tracks t) (next_id t)
                        (mkTrack (next_id t) [d0; d1; 0; 0] (eye 4)))
              (next_id t + 1)%Z).

(** [dist < best_dist], where [None] is [float('inf')]. *)
Definition lt_best (dist : R) (best_dist : option R) : bool :=
  match best_dist with
  | None => true
  | Some b => if Rlt_dec dist b then true else false
  end.

(** Lines 38-42: one turn of the search for the nearest track. *)
Definition nearest_step (d : vec) (acc : outcome (option Z * option R))
    (item : Z * Track) : outcome (option Z * option R) :=
  best <- acc ;;
  diff <- np_sub1 (py_slice (state (snd item)) 0 2) (py_slice d 0 2) ;;
  let dist := norm diff in
  if lt_best dist (snd best) then Returned (Some (fst item), Some dist)
  else Returned best.

Definition nearest (m : dict) (d : vec) : outcome (option Z * option R) :=
  fold_left (nearest_step d) m (Returned (None, None)).

Definition H_matrix : mat := [[1; 0; 0; 0]; [0; 1; 0; 0]].

(** Lines 44-51: the correction of a track by a detection. *)
Definition correct_track (tr : Track) (d : vec) : outcome Track :=
  d0 <- getitem d 0 ;;
  d1 <- getitem d 1 ;;
  let z := [d0; d1] in
  let H := H_matrix in
  let y := vec_sub z (mat_vec H (state tr)) in
  let S := mat_add (mat_mul (mat_mul H (P tr)) (transpose H)) (mat_scale 10 (eye 2)) in
  Sinv <- np_inv2 S ;;
  let K := mat_mul (mat_mul (P tr) (transpose H)) Sinv in
  Returned (mkTrack (id tr)
                    (vec_add (state tr) (mat_vec K y))
                    (mat_mul (mat_sub (eye 4) (mat_mul K H)) (P tr))).

(** [best_dist < 1000] *)
Definition within_gate (best_dist : option R) : bool :=
  match best_dist with
  | None => false
  | Some b => if Rlt_dec b 1000 then true else false
  end.

(** The body of the loop of [update] for one detection.  Whatever it raises
    it raises before it changes the tracker. *)
Definition update_one (t : TargetTracker) (d : vec) : outcome TargetTracker :=
  match tracks t with
  | [] => create_track t d
  | _ :: _ =>
      best <- nearest (tracks t) d ;;
      if within_gate (snd best) then
        match fst best with
        | None => Raised KeyError
        | Some best_id =>
            match dict_get (tracks t) best_id with
            | None => Raised KeyError
            | Some tr =>
                tr' <- correct_track tr d ;;
                Returned (mkTracker (dict_set (tracks t) best_id tr') (next_id t))
            end
        end
      else create_track t d
  end.

(** [TargetTracker.update(detections)]: the tracker as the call leaves it,
    and whether the call returned or raised. *)
Fixpoint update (t : TargetTracker) (detections : list vec)
  : TargetTracker * outcome unit :=
  match detections with
  | [] => (t, Returned tt)
  | d :: rest =>
      match update_one t d with
      | Returned t' => update t' rest
      | Raised e => (t, Raised e)
      end
  end.

(** The calls a client makes on a tracker. *)
Inductive call : Type :=
| Predict (dt : R)
| Update (detections : list vec).

Definition step (t : TargetTracker) (c : call) : TargetTracker :=
  match c with
  | Predict dt => predict t dt
  | Update detections => fst (update t detections)
  end.

(** The tracker after a sequence of calls on a new tracker; a call that
    raised may be followed by others. *)
Definition run (calls : list call) : TargetTracker := fold_left step calls init.

(** The shapes the tracker stores. *)
Definition track_shape (tr : Track) : Prop :=
  length (state tr) = 4%nat /\
  length (P tr) = 4%nat /\ Forall (fun row => length row = 4%nat) (P tr).

(** The quadratic form of a matrix. *)
Definition quad (A : mat) (v : vec) : R := dot v (mat_vec A v).

(** A covariance matrix: symmetric and positive semi-definite. *)
Definition covariance (A : mat) : Prop :=
  transpose A = A /\ forall v0 v1 v2 v3 : R, 0 <= quad A [v0; v1; v2; v3].

(** What a track of the tracker satisfies. *)
Definition track_ok (tr : Track) : Prop :=
  track_shape tr /\ covariance (P tr).

(** What holds of a tracker between calls: keys in increasing order, all
    below [next_id], each track stored under its own id, with the shapes
    above and a covariance for [P]. *)
Definition tracker_ok (t : TargetTracker) : Prop :=
  StronglySorted Z.lt (keys (tracks t)) /\
  Forall (fun k => (k < next_id t)%Z) (keys (tracks t)) /\
  Forall (fun kv => id (snd kv) = fst kv /\ track_ok (snd kv)) (tracks t).

(** What a call may do to the tracker [t] to get [t']: new keys at the end,
    taken from [next_id] on, and every track issued so far still there under
    its id. *)
Definition extends (t t' : TargetTracker) : Prop :=
  (next_id t <= next_id t')%Z /\
  (exists new : list Z,
      keys (tracks t') = keys (tracks t) ++ new /\
      Forall (fun k => (next_id t <= k < next_id t')%Z) new) /\
  forall k tr, dict_get (tracks t) k = Some tr -> (k < next_id t)%Z ->
    exists tr', dict_get (tracks t') k = Some tr' /\ id tr' = id tr.

(** The spec's words: the Euclidean distance from a detection to a track's
    position component. *)
Definition distance (tr : Track) (x y : R) : R :=
  sqrt ((nth 0 (state tr) 0 - x) * (nth 0 (state tr) 0 - x) +
        (nth 1 (state tr) 0 - y) * (nth 1 (state tr) 0 - y)).

(** What the search holds after the tracks [seen]: nothing, or a track of
    least distance among them. *)
Definition best_among (x y : R) (seen : dict) (b : option Z * option R) : Prop :=
  (seen = [] /\ b = (None, None)) \/
  exists k tr,
    In (k, tr) seen /\ b = (Some k, Some (distance tr x y)) /\
    forall k' tr', In (k', tr') seen -> distance tr x y <= distance tr' x y.

End Tracker.

(** ** tracker.py, [SimpleClassifier] *)

Module Classifier.

(** What [predict] returns: the string ['unknown'] or a label of the model. *)
Inductive pyvalue (label : Type) : Type :=
| PyStr (s : String.string)
| PyLabel (l : label).
Arguments PyStr {label} s.
Arguments PyLabel {label} l.

Import String.StringSyntax.
Local Open Scope string_scope.
(** The literal ['unknown']. *)
Definition unknown : String.string := "unknown".
Local Close Scope string_scope.

Fixpoint split_sizes {A : Type} (l : list A) (sizes : list nat) : list (list A) :=
  match sizes with
  | [] => []
  | n :: rest => firstn n l :: split_sizes (skipn n l) rest
  end.

(** [np.array_split(a, k)] on a 1-D array: [len(a) % k] sections of
    [len(a)//k + 1] entries, then sections of [len(a)//k] entries. *)
Definition array_split {A : Type} (l : list A) (k : nat) : list (list A) :=
  let q := (length l / k)%nat in
  let r := (length l mod k)%nat in
  split_sizes l (repeat (S q) r ++ repeat q (k - r)).

(** [b.mean()]: [nan] on an empty band. *)
Definition band_mean (b : list R) : npfloat :=
  match b with
  | [] => NaN
  | _ :: _ => Fin (np_mean b)
  end.

(** [SimpleClassifier.featurize] *)
Definition featurize (spectrum : list R) : list npfloat :=
  map band_mean (array_split (map Rabs spectrum) 8).

Section WithSVC.

(** [sklearn.svm.SVC], a library class outside the repository: the state of
    an estimator, a new estimator, [fit] (which changes the estimator and may
    raise) and [predict]. *)
Variable label : Type.
Variable svc : Type.
Variable svc_new : svc.
Variable svc_fit : svc -> list (list R) -> list label -> svc * outcome unit.
Variable svc_predict : svc -> list (list npfloat) -> outcome (list label).

Record SimpleClassifier : Type := mkClassifier {
  model : svc;
  trained : bool
}.

(** [SimpleClassifier.__init__] *)
Definition init : SimpleClassifier := mkClassifier svc_new false.

(** [SimpleClassifier.train(X, y)] *)
Definition train (c : SimpleClassifier) (X : list (list R)) (y : list label)
  : SimpleClassifier * outcome unit :=
  match svc_fit (model c) X y with
  | (m, Returned _) => (mkClassifier m true, Returned tt)
  | (m, Raised e) => (mkClassifier m (trained c), Raised e)
  end.

(** [SimpleClassifier.predict(spectrum)] *)
Definition predict (c : SimpleClassifier) (spectrum : list R)
  : outcome (pyvalue label) :=
  if negb (trained c) then Returned (PyStr unknown)
  else
    let feat := [featurize spectrum] in   (* reshape(1, -1) *)
    res <- svc_predict (model c) feat ;;
    match res with
    | [] => Raised IndexError
    | l :: _ => Returned (PyLabel l)
    end.

(** The calls a client makes on a classifier. *)
Inductive request : Type :=
| Train (X : list (list R)) (y : list label)
| Classify (spectrum : list R).

Definition serve (c : SimpleClassifier) (k : request) : SimpleClassifier :=
  match k with
  | Train X y => fst (train c X y)
  | Classify _ => c
  end.

Definition serve_all (calls : list request) : SimpleClassifier :=
  fold_left serve calls init.

Definition is_train (k : request) : bool :=
  match k with
  | Train _ _ => true
  | Classify _ => false
  end.

End WithSVC.

Arguments model {svc} s.
Arguments trained {svc} s.
Arguments mkClassifier {svc} model trained.
Arguments Train {label} X y.
Arguments Classify {label} spectrum.
Arguments is_train {label} k.

(** A stand-in estimator, to run the classifier: it remembers the labels it
    was fitted on and predicts the first of them. *)
Definition toy_fit (m : list nat) (X : list (list R)) (y : list nat)
  : list nat * outcome unit := (y, Returned tt).
Definition toy_predict (m : list nat) (feat : list (list npfloat))
  : outcome (list nat) := Returned (map (fun _ => hd 0%nat m) feat).

End Classifier.

(** ** Float64 results as the code computes them

    Where a float64 result is truncated to an index, compared with a
    threshold or with another result, or can underflow to zero, its last digit
    decides what the program does, and the real number it approximates is not
    enough.  The models below that depend on such a result take the float64
    operations as a parameter: [rnd] is the rounding that every arithmetic
    operation ([+], [-], [*], [/], [np.sqrt]) applies to its exact result, and
    the library routines whose rounding is their own are taken whole. *)
Record float64 : Type := mkFloat64 {
  rnd : R -> R;              (* an exact result, rounded to float64 *)
  fl_ln : R -> R;            (* np.log on a positive float *)
  fl_pow10 : R -> R;         (* 10 ** x on a float *)
  fl_mean : list R -> R;     (* np.mean of a non-empty 1-D array *)
  fl_norm : list R -> R      (* np.linalg.norm of a 1-D array *)
}.

(** Arithmetic without rounding: the real-number reading of the floats. *)
Definition exact64 : float64 :=
  mkFloat64 (fun x => x) ln (Rpower 10) np_mean
            (fun v => sqrt (Rsum (map (fun x => x * x) v))).

(** What the proofs use of rounding to nearest: it is monotone, it leaves 0
    and 1 alone, and a rounded result is not rounded again. *)
Definition rounding (F : float64) : Prop :=
  (forall x y : R, x <= y -> rnd F x <= rnd F y) /\
  rnd F 0 = 0 /\
  rnd F 1 = 1 /\
  (forall x : R, rnd F (rnd F x) = rnd F x).

(** What the proofs use of [10 ** x]: it is monotone, not negative (it may
    underflow to 0) and [10 ** 0 = 1]. *)
Definition pow10_ok (F : float64) : Prop :=
  (forall x y : R, x <= y -> fl_pow10 F x <= fl_pow10 F y) /\
  (forall x : R, 0 <= fl_pow10 F x) /\
  fl_pow10 F 0 = 1.

(** What the proofs use of [np.log]: it is not positive on (0, 1]. *)
Definition ln_ok (F : float64) : Prop :=
  forall x : R, 0 < x <= 1 -> fl_ln F x <= 0.

(** ** processing.py: [simple_cfar] on its float64 results

    The comparison [np.abs(data[i]) > threshold] is decided by the last digit
    of the threshold, so here the noise level and the threshold are the
    floats that numpy computes. *)

Module ProcessingComputed.
Import Processing.

Section Computed.

(** The float64 operations. *)
Variable F : float64.

(** [a + b] *)
Definition np_add_fl (a b : npfloat) : npfloat :=
  match a, b with
  | Fin x, Fin y => Fin (rnd F (x + y))
  | NaN, _ | _, NaN => NaN
  | PInf, NInf | NInf, PInf => NaN
  | PInf, _ | _, PInf => PInf
  | NInf, _ | _, NInf => NInf
  end.

(** [a * b] *)
Definition np_mul_fl (a b : npfloat) : npfloat :=
  match a, b with
  | Fin x, Fin y => Fin (rnd F (x * y))
  | NaN, _ | _, NaN => NaN
  | Fin x, PInf | PInf, Fin x => np_mul_inf x true
  | Fin x, NInf | NInf, Fin x => np_mul_inf x false
  | PInf, PInf | NInf, NInf => PInf
  | PInf, NInf | NInf, PInf => NInf
  end.

(** [np.log] *)
Definition np_log_fl (x : R) : npfloat :=
  if Rlt_dec 0 x then Fin (fl_ln F x)
  else if Req_dec_T x 0 then NInf else NaN.

(** [np.sqrt] *)
Definition np_sqrt_fl (a : npfloat) : npfloat :=
  match a with
  | Fin x => if Rle_dec 0 x then Fin (rnd F (sqrt x)) else NaN
  | PInf => PInf
  | NInf => NaN
  | NaN => NaN
  end.

(** Line 36: [noise_level * (1 + 3*np.sqrt(-np.log(rate)))]. *)
Definition cfar_threshold_fl (noise_level rate : R) : npfloat :=
  np_mul_fl (Fin noise_level)
            (np_add_fl (Fin 1)
                       (np_mul_fl (Fin 3) (np_sqrt_fl (np_neg (np_log_fl rate))))).

(** One turn of the loop over [range(N)]. *)
Definition cfar_step_fl (data : list R) (guard noise_win : Z) (rate : R)
    (out : list bool) (i : nat) : list bool :=
  let noise := noise_samples data guard noise_win (Z.of_nat i) in
  if (length noise <? 1)%nat then out   (* continue *)
  else
    let noise_level := fl_mean F (map Rabs noise) in
    let threshold := cfar_threshold_fl noise_level rate in
    list_set out i (np_gt (Fin (Rabs (nth i data 0))) threshold).

(** What the loop leaves in [out[i]]. *)
Definition cell_flag_fl (data : list R) (guard noise_win : Z) (rate : R) (i : nat)
  : bool :=
  let noise := noise_samples data guard noise_win (Z.of_nat i) in
  if (length noise <? 1)%nat then false
  else np_gt (Fin (Rabs (nth i data 0)))
             (cfar_threshold_fl (fl_mean F (map Rabs noise)) rate).

(** [simple_cfar(data, guard, noise_win, rate)] *)
Definition simple_cfar_fl (data : list R) (guard noise_win : Z) (rate : R)
  : outcome (list bool) :=
  let N := length data in
  Returned (fold_left (cfar_step_fl data guard noise_win rate)
                      (seq 0 N) (repeat false N)).

(** The spec's formula [noise_level * (1 + 3*sqrt(-ln(rate)))] on the noise
    samples [noise], as float64 arithmetic evaluates it. *)
Definition spec_threshold_fl (noise : list R) (rate : R) : R :=
  rnd F (fl_mean F (map Rabs noise) *
         rnd F (1 + rnd F (3 * rnd F (sqrt (- fl_ln F rate))))).

End Computed.

End ProcessingComputed.

(** ** tracker.py: [TargetTracker.update] on the norm as computed

    The gate [best_dist < 1000] and the comparisons [dist < best_dist] are
    decided by the float that [np.linalg.norm] returns, so here the
    difference [tr.state[:2] - d[:2]] and its norm are the computed ones.
    The Kalman correction is the one of [Tracker]. *)

Module TrackerComputed.
Import Tracker.

Section Computed.

(** The float64 operations. *)
Variable F : float64.

(** [u - v] on 1-D arrays, with broadcasting, each difference rounded. *)
Definition np_sub1_fl (u v : vec) : outcome vec :=
  n <- broadcast_dim (length u) (length v) ;;
  Returned (map (fun i => rnd F (nth (bidx (length u) i) u 0 - nth (bidx (length v) i) v 0))
                (seq 0 n)).

(** Lines 38-42: one turn of the search for the nearest track. *)
Definition nearest_step_fl (d : vec) (acc : outcome (option Z * option R))
    (item : Z * Track) : outcome (option Z * option R) :=
  best <- acc ;;
  diff <- np_sub1_fl (py_slice (state (snd item)) 0 2) (py_slice d 0 2) ;;
  let dist := fl_norm F diff in
  if lt_best dist (snd best) then Returned (Some (fst item), Some dist)
  else Returned best.

Definition nearest_fl (m : dict) (d : vec) : outcome (option Z * option R) :=
  fold_left (nearest_step_fl d) m (Returned (None, None)).

(** The body of the loop of [update] for one detection. *)
Definition update_one_fl (t : TargetTracker) (d : vec) : outcome TargetTracker :=
  match tracks t with
  | [] => create_track t d
  | _ :: _ =>
      best <- nearest_fl (tracks t) d ;;
      if within_gate (snd best) then
        match fst best with
        | None => Raised KeyError
        | Some best_id =>
            match dict_get (tracks t) best_id with
            | None => Raised KeyError
            | Some tr =>
                tr' <- correct_track tr d ;;
                Returned (mkTracker (dict_set (tracks t) best_id tr') (next_id t))
            end
        end
      else create_track t d
  end.






End Computed.

End TrackerComputed.

(** ** tracker.py, [SimpleClassifier]: the feature vector and the calls in
    the words of the spec *)

Module ClassifierSpec.
Import Classifier.

(** Band [i] of 8 of a spectrum of [len] samples: where it starts and how
    many samples it has.  The first [len % 8] bands have one sample more. *)
Definition band_start (len i : nat) : nat :=
  (i * (len / 8) + Nat.min i (len mod 8))%nat.
Definition band_size (len i : nat) : nat :=
  (len / 8 + (if (i <? len mod 8)%nat then 1 else 0))%nat.

(** The magnitudes of band [i]. *)
Definition band (spectrum : list R) (i : nat) : list R :=
  firstn (band_size (length spectrum) i)
         (skipn (band_start (length spectrum) i) (map Rabs spectrum)).

(** The mean magnitude of a band; [nan] for a band without samples. *)
Definition mean_magnitude (b : list R) : npfloat :=
  match b with
  | [] => NaN
  | _ :: _ => Fin (Rsum b / INR (length b))
  end.

(** The feature vector: the mean magnitudes of the 8 bands. *)
Definition band_features (spectrum : list R) : list npfloat :=
  map (fun i => mean_magnitude (band spectrum i)) (seq 0 8).

Section WithSVC.

Variable label : Type.
Variable svc : Type.
Variable svc_new : svc.
Variable svc_fit : svc -> list (list R) -> list label -> svc * outcome unit.

(** Among [calls] there is a [train] call whose [fit] returned. *)
Definition train_returned (calls : list (request label)) : Prop :=
  exists before X y after,
    calls = before ++ Train X y :: after /\
    snd (svc_fit (model (serve_all label svc svc_new svc_fit before)) X y)
    = Returned tt.

(** The estimator after the [fit] calls of [calls], in their order. *)
Definition fit_step (m : svc) (k : request label) : svc :=
  match k with
  | Train X y => fst (svc_fit m X y)
  | Classify _ => m
  end.
Definition fitted_model (calls : list (request label)) : svc :=
  fold_left fit_step calls svc_new.

End WithSVC.

End ClassifierSpec.

(** ** tracker.py: properties of detections and covariances *)

Module TrackerSpec.
Import Tracker.



(** A detection from which [update] can read a position. *)
Definition well_formed (d : vec) : Prop := (2 <= length d)%nat.

(** What [update] raises on a detection of fewer than two entries, met on a
    tracker of tracks [m]: the subtraction fails to broadcast on an empty
    detection when there are tracks, [d[0]] or [d[1]] fails otherwise. *)
Definition malformed_error (m : dict) (d : vec) : pyerror :=
  match m, d with
  | _ :: _, [] => BroadcastError
  | _, _ => IndexError
  end.

End TrackerSpec.

(** ** processing.py: [decimate], [matched_filter], [estimate_doppler] *)

Module Filters.

(** [l[c::q' + 1]]: the entries of [l] at the indices [c], [c + (q' + 1)],
    [c + 2 (q' + 1)], ... *)
Fixpoint every_from (q' c : nat) (l : list R) : list R :=
  match l with
  | [] => []
  | x :: t =>
      match c with
      | O => x :: every_from q' q' t
      | S c' => every_from q' c' t
      end
  end.

(** [decimate(signal, q)] is [signal[::q]].  A step of zero raises
    [ValueError: slice step cannot be zero] ([None]); a negative step walks
    from the last entry down. *)
Definition decimate (signal : list R) (q : Z) : option (list R) :=
  if (q =? 0)%Z then None
  else if (0 <? q)%Z then Some (every_from (Z.to_nat q - 1) 0 signal)
  else Some (every_from (Z.to_nat (- q) - 1) 0 (rev signal)).

(** [y[m]], with [y] read as zero outside its range. *)
Definition zero_ext (y : list R) (m : Z) : R :=
  if (m <? 0)%Z then 0 else nth (Z.to_nat m) y 0.

(** [scipy.signal.correlate(x, y, mode='full')] on non-empty real 1-D
    arrays: [z[k] = sum_l x[l] * y[l - k + len(y) - 1]] for
    [k = 0 .. len(x) + len(y) - 2]. *)
Definition correlate_full (x y : list R) : list R :=
  map (fun k : nat =>
         Rsum (map (fun l : nat =>
                      nth l x 0 *
                      zero_ext y (Z.of_nat l - Z.of_nat k + Z.of_nat (length y) - 1))
                   (seq 0 (length x))))
      (seq 0 (length x + length y - 1)).

(** [matched_filter(received, template)] *)
Definition matched_filter (received template : list R) : list R :=
  correlate_full received template.

(** [np.arctan2(y, x)] on finite floats. *)
Definition arctan2 (y x : R) : R :=
  if Rlt_dec 0 x then atan (y / x)
  else if Rlt_dec x 0 then
    (if Rle_dec 0 y then atan (y / x) + PI else atan (y / x) - PI)
  else if Rlt_dec 0 y then PI / 2
  else if Rlt_dec y 0 then - (PI / 2)
  else 0.

(** [np.angle(z)] *)
Definition np_angle (z : C) : R := arctan2 (Im z) (Re z).

(** [estimate_doppler(phases_prev, phases_now, delta_t, freq)] on 1-D arrays,
    with a Python float for [delta_t]: line 48 computes [1.0 / delta_t], which
    raises on [delta_t == 0.0].  The conditional expression of the last line
    has the constant condition [False], so the value returned is
    [(dphase/(2*np.pi))/delta_t]; [freq] is not used. *)
Definition estimate_doppler (phases_prev phases_now : list R) (delta_t freq : R)
  : outcome (list R) :=
  n <- broadcast_dim (length phases_now) (length phases_prev) ;;
  let dphase (i : nat) : R :=
    np_angle (Cexp (Cmul Ci
      (RtoC (nth (bidx (length phases_now) i) phases_now 0 -
             nth (bidx (length phases_prev) i) phases_prev 0)))) in
  if Req_dec_T delta_t 0 then Raised ZeroDivisionError
  else Returned (map (fun i => dphase i / (2 * PI) / delta_t) (seq 0 n)).

End Filters.

(** ** beamforming.py: [spherical_array_positions] *)

Module ArrayGeometry.
Import Beamforming.

(** [spherical_array_positions(num_elements, radius)]: the rows of the
    returned [(num_elements, 3)] array.  [np.arange(0, num_elements)] is
    empty for [num_elements <= 0]. *)
Definition spherical_array_positions (num_elements : Z) (radius : R) : list vec3 :=
  map (fun i : nat =>
         let index := INR i + 1 / 2 in
         let phi := acos (1 - 2 * index / IZR num_elements) in
         let theta := PI * (1 + sqrt 5) * index in
         (radius * sin phi * cos theta,
          radius * sin phi * sin theta,
          radius * cos phi))
      (seq 0 (Z.to_nat num_elements)).

End ArrayGeometry.

(** ** ocean.py *)

(** The [ValueError]s of [ocean.py] and [input.py], by their origin. *)
Inductive value_error : Type :=
| EmptySequence        (* max() arg is an empty sequence *)
| NegativeDimensions   (* negative dimensions are not allowed *)
| NegativeSampleCount  (* np.linspace: number of samples must be non-negative *)
| NotBroadcastable.    (* operands could not be broadcast together *)

Module Ocean.
Import Filters.

Section Computed.

(** The float64 operations. *)
Variable F : float64.

(** [spherical_spreading_loss(range_m, freq_khz, alpha_db_per_m)], every
    operation rounded: [10 ** x] underflows to 0 for a large absorption. *)
Definition spherical_spreading_loss (range_m freq_khz alpha_db_per_m : R) : R :=
  if Rle_dec range_m 0 then 1 else
  let spreading := rnd F (1 / (if Rlt_dec 0 range_m then range_m else 1)) in
  let absorption :=
    fl_pow10 F (rnd F (rnd F (rnd F (- alpha_db_per_m * freq_khz) * range_m) / 20)) in
  rnd F (spreading * absorption).

(** [int(d * fs)]: the float product, truncated. *)
Definition delay_shift (d : R) (fs : Z) : Z := py_int (rnd F (d * IZR fs)).

End Computed.

(** [max(l)] on a list of floats; [None] on the empty list. *)
Definition py_max (l : list R) : option R :=
  match l with
  | [] => None
  | x :: t => Some (fold_left (fun m y => if Rlt_dec m y then y else m) t x)
  end.

(** The right operand of an in-place addition on a view of [n] entries:
    the same length, or a single entry repeated. *)
Definition broadcast_to (n : nat) (v : list R) : option (list R) :=
  if (length v =? n)%nat then Some v
  else if (length v =? 1)%nat then Some (repeat (hd 0 v) n)
  else None.

(** [out[a:b] += v] *)
Definition iadd_slice (out : list R) (a b : Z) (v : list R) : option (list R) :=
  let lo := Z.to_nat (slice_bound (length out) a) in
  let hi := Z.to_nat (slice_bound (length out) b) in
  let n := (hi - lo)%nat in
  match broadcast_to n v with
  | Some v' =>
      Some (firstn lo out ++
            map (fun p => fst p + snd p) (combine (firstn n (skipn lo out)) v') ++
            skipn (lo + n) out)
  | None => None
  end.

Section Multipath.

Variable F : float64.

(** One turn of the loop of [add_multipath]. *)
Definition add_path (signal : list R) (fs : Z) (acc : value_error + list R)
    (da : R * R) : value_error + list R :=
  match acc with
  | inl e => inl e
  | inr out =>
      let shift := delay_shift F (fst da) fs in
      match iadd_slice out shift (shift + Z.of_nat (length signal))
                       (map (Rmult (snd da)) signal) with
      | Some out' => inr out'
      | None => inl NotBroadcastable
      end
  end.

(** [add_multipath(signal, delays, amps, fs)]: the array returned, or the
    [ValueError] raised. *)
Definition add_multipath (signal delays amps : list R) (fs : Z)
  : value_error + list R :=
  match py_max delays with
  | None => inl EmptySequence
  | Some dmax =>
      let N := (Z.of_nat (length signal) + delay_shift F dmax fs + 1)%Z in
      if (N <? 0)%Z then inl NegativeDimensions
      else fold_left (add_path signal fs) (combine delays amps)
                     (inr (repeat 0 (Z.to_nat N)))
  end.

(** The sum of the delayed, scaled copies of the signal at sample [n]. *)
Definition superposition (signal : list R) (fs : Z) (paths : list (R * R)) (n : nat) : R :=
  Rsum (map (fun da => snd da * zero_ext signal (Z.of_nat n - delay_shift F (fst da) fs))
            paths).

End Multipath.

End Ocean.

(** ** main.py: the peak picking of [run_simulation] *)

Module Main.

(** [np.std]: the population standard deviation. *)
Definition np_std (l : list R) : R :=
  sqrt (np_mean (map (fun x => Rabs (x - np_mean l) * Rabs (x - np_mean l)) l)).

(** Line 70: [peaks = mags > (mags.mean() + 3*mags.std())] *)
Definition peaks (mags : list R) : list bool :=
  map (fun x => if Rlt_dec (np_mean mags + 3 * np_std mags) x then true else false) mags.

(** The number of bearings picked, [len(bearings[peaks])]. *)
Definition count_true (mask : list bool) : nat := length (filter (fun b => b) mask).

End Main.

(** ** input.py: [SonarInput.generate_chirp], [SonarInput.make_array_ping] *)

Module Input.
Import Filters Ocean.

(** The fields of [SonarInput] that the methods read.  [dtype] selects the
    rounding of the samples, which are read as real numbers. *)
Record SonarInput : Type := mkSonarInput { sample_rate : Z; channels : Z }.

(** What the methods can raise (with Python floats for the duration, the
    ranges and the speed of sound). *)
Inductive input_error : Type :=
| ZeroDivision                      (* ZeroDivisionError: float division by zero *)
| ValueError (why : value_error).

(** [np.hanning(M)] *)
Definition np_hanning (M : nat) : list R :=
  match M with
  | O => []
  | S O => [1]
  | _ => map (fun i : nat =>
                1 / 2 + 1 / 2 * cos (PI * (1 - INR M + 2 * INR i) / (INR M - 1)))
             (seq 0 M)
  end.

(** [np.linspace(0, stop, num, endpoint=False)] for [num >= 0]. *)
Definition np_linspace0 (stop : R) (num : nat) : list R :=
  map (fun i : nat => INR i * (stop / INR num) + 0) (seq 0 num).

(** [scipy.signal.chirp(t, f0=f0, f1=f1, t1=t1, method='linear')]: the
    sweep rate [(f1 - f0) / t1] is computed on Python floats. *)
Definition chirp_linear (t : list R) (f0 t1 f1 : R) : input_error + list R :=
  if Req_dec_T t1 0 then inl ZeroDivision else
  let beta := (f1 - f0) / t1 in
  let phi := 0 * (PI / 180) in
  inr (map (fun ti => cos (2 * PI * (f0 * ti + 1 / 2 * beta * ti * ti) + phi)) t).

(** [ranges]: a dict from channel index to range, as the list of its
    items. *)
Definition range_dict : Type := list (Z * R).

(** [ranges.get(ch, None)] *)
Fixpoint ranges_get (ranges : range_dict) (ch : Z) : option R :=
  match ranges with
  | [] => None
  | (k, r) :: rest => if (k =? ch)%Z then Some r else ranges_get rest ch
  end.

(** [max(ranges.values()) if ranges else 0.0] *)
Definition max_range (ranges : range_dict) : R :=
  match py_max (map snd ranges) with
  | Some m => m
  | None => 0
  end.

(** The rows in channel order, up to the first one that raises. *)
Fixpoint collect_rows (rows : list (input_error + list R)) : input_error + list (list R) :=
  match rows with
  | [] => inr []
  | inl e :: _ => inl e
  | inr row :: rest =>
      match collect_rows rest with
      | inl e => inl e
      | inr out => inr (row :: out)
      end
  end.

Section Computed.

(** The float64 operations.  The products that [int()] truncates to a sample
    count or to a delay are the float products; the samples themselves are
    read as real numbers. *)
Variable F : float64.

(** [int(self.sample_rate * duration)] *)
Definition chirp_samples (self : SonarInput) (duration : R) : Z :=
  py_int (rnd F (IZR (sample_rate self) * duration)).

(** [SonarInput.generate_chirp(f0, f1, duration)] *)
Definition generate_chirp (self : SonarInput) (f0 f1 duration : R)
  : input_error + list R :=
  let num := chirp_samples self duration in
  if (num <? 0)%Z then inl (ValueError NegativeSampleCount) else
  let t := np_linspace0 duration (Z.to_nat num) in
  match chirp_linear t f0 duration f1 with
  | inl e => inl e
  | inr sig =>
      let win := np_hanning (length sig) in
      inr (map (fun p => fst p * snd p) (combine sig win))
  end.

(** [int((2 * r / speed_of_sound) * self.sample_rate)] *)
Definition delay_of_range (self : SonarInput) (speed_of_sound r : R) : Z :=
  py_int (rnd F (rnd F (rnd F (2 * r) / speed_of_sound) * IZR (sample_rate self))).

(** Lines 44-49: one turn of the loop, on the row of channel [ch] (all
    zeros before the turn). *)
Definition ping_row (self : SonarInput) (chirp_signal : list R) (speed_of_sound : R)
    (row : list R) (r : option R) : input_error + list R :=
  match r with
  | None => inr row
  | Some r =>
      let delay_samples := delay_of_range self speed_of_sound r in
      if Req_dec_T (1 + r / 1000) 0 then inl ZeroDivision else
      let amp := 1 / (1 + r / 1000) in
      match iadd_slice row delay_samples
                       (delay_samples + Z.of_nat (length chirp_signal))
                       (map (Rmult amp) chirp_signal) with
      | Some row' => inr row'
      | None => inl (ValueError NotBroadcastable)
      end
  end.

(** [SonarInput.make_array_ping(chirp_signal, ranges, speed_of_sound)]: the
    rows of the array returned, or the exception raised. *)
Definition make_array_ping (self : SonarInput) (chirp_signal : list R)
    (ranges : range_dict) (speed_of_sound : R) : input_error + list (list R) :=
  if Req_dec_T speed_of_sound 0 then inl ZeroDivision else
  let max_delay := delay_of_range self speed_of_sound (max_range ranges) in
  let out_len := (Z.of_nat (length chirp_signal) + max_delay + 10)%Z in
  if ((channels self <? 0) || (out_len <? 0))%Z%bool
  then inl (ValueError NegativeDimensions)
  else
    collect_rows
      (map (fun ch : nat =>
              ping_row self chirp_signal speed_of_sound
                       (repeat 0 (Z.to_nat out_len))
                       (ranges_get ranges (Z.of_nat ch)))
           (seq 0 (Z.to_nat (channels self)))).

End Computed.

End Input.

(** ** Theorems *)

Section ComplexFacts.

Lemma Cmod_Cphase (theta : R) : Cmod (Cphase theta) = 1.
Proof.
  unfold Cmod, Cnorm2, Cphase; simpl.
  replace (cos theta * cos theta + sin theta * sin theta) with 1.
  - apply sqrt_1.
  - pose proof (sin2_cos2 theta) as H. unfold Rsqr in H. lra.
Qed.

Lemma Cexp_imaginary (k x : R) :
  Cexp (Cmul (Cmul (Cneg Ci) (RtoC k)) (RtoC x)) = Cphase (- k * x).
Proof.
  unfold Cexp, Cmul, Cneg, Ci, RtoC, Cphase; simpl.
  replace ((- 0 * k - - (1) * 0) * x - (- 0 * 0 + - (1) * k) * 0) with 0 by ring.
  replace ((- 0 * k - - (1) * 0) * 0 + (- 0 * 0 + - (1) * k) * x) with (- k * x) by ring.
  rewrite exp_0. f_equal; ring.
Qed.

End ComplexFacts.

Module Float64Facts.

(** The real-number reading of the floats is one float64 arithmetic in the
    sense of [rounding], [pow10_ok] and [ln_ok]. *)
Lemma exact64_rounding : rounding exact64.
Proof. unfold rounding, exact64; simpl. repeat split; auto. Qed.

Lemma exact64_pow10_ok : pow10_ok exact64.
Proof.
  unfold pow10_ok, exact64; simpl. split; [|split].
  - intros x y Hxy. apply Rle_Rpower; lra.
  - intros x. left. apply exp_pos.
  - apply Rpower_O. lra.
Qed.

Lemma exact64_ln_ok : ln_ok exact64.
Proof.
  unfold ln_ok, exact64; simpl. intros x [H0 [H1 | ->]]; [|rewrite ln_1; lra].
  left. rewrite <- ln_1. now apply ln_increasing.
Qed.

Lemma rnd_nonneg (F : float64) (x : R) : rounding F -> 0 <= x -> 0 <= rnd F x.
Proof. intros (Hm & H0 & _) Hx. rewrite <- H0. now apply Hm. Qed.

Lemma rnd_nonpos (F : float64) (x : R) : rounding F -> x <= 0 -> rnd F x <= 0.
Proof. intros (Hm & H0 & _) Hx. rewrite <- H0. now apply Hm. Qed.

End Float64Facts.

Module BeamformingFacts.
Import Beamforming.

Lemma unit_direction_norm (az el : R) :
  dot3 (unit_direction az el) (unit_direction az el) = 1.
Proof.
  unfold unit_direction, dot3.
  set (a := az * PI / 180). set (e := el * PI / 180).
  pose proof (sin2_cos2 a) as Ha. pose proof (sin2_cos2 e) as He.
  unfold Rsqr in Ha, He. nra.
Qed.

(** C1. Every component of the vector returned by [steering_vector] has
    modulus 1 and phase [-(2*pi*freq/c)] times the dot product of the element
    position with the unit direction of (az, el); there is one component per
    element, and the direction has norm 1. *)
Theorem steering_vector_unit_magnitude
    (positions : list vec3) (az el freq c : R) (Hc : c <> 0) :
  exists sv : list C,
    steering_vector positions az el freq c = Returned sv /\
    length sv = length positions /\
    dot3 (unit_direction az el) (unit_direction az el) = 1 /\
    forall (i : nat) (p : vec3), nth_error positions i = Some p ->
      exists w : C,
        nth_error sv i = Some w /\
        Cmod w = 1 /\
        w = Cphase (- (2 * PI * freq / c) * dot3 p (unit_direction az el)).
Proof.
  unfold steering_vector.
  destruct (Req_dec_T c 0) as [E | _]; [contradiction|].
  eexists; split; [reflexivity|].
  split; [apply length_map|].
  split; [apply unit_direction_norm|].
  intros i p Hp.
  eexists; split.
  - rewrite nth_error_map, Hp. reflexivity.
  - rewrite Cexp_imaginary. split; [apply Cmod_Cphase|].
    unfold unit_direction.
    replace (az * PI / 180) with (deg2rad az) by (unfold deg2rad; field).
    replace (el * PI / 180) with (deg2rad el) by (unfold deg2rad; field).
    reflexivity.
Qed.

Lemma broadcast_dim_mismatch (a b : nat) :
  a <> b -> a <> 1%nat -> b <> 1%nat -> broadcast_dim a b = Raised BroadcastError.
Proof.
  intros Hab Ha Hb. unfold broadcast_dim.
  destruct (Nat.eqb_spec a b); [contradiction|].
  destruct (Nat.eqb_spec a 1); [contradiction|].
  destruct (Nat.eqb_spec b 1); [contradiction|].
  reflexivity.
Qed.

Lemma broadcast_dim_total (a b : nat) :
  a = b \/ a = 1%nat \/ b = 1%nat -> exists n, broadcast_dim a b = Returned n.
Proof.
  intros H. unfold broadcast_dim.
  destruct (Nat.eqb_spec a b); [eauto|].
  destruct (Nat.eqb_spec a 1); [eauto|].
  destruct (Nat.eqb_spec b 1); [eauto|].
  exfalso; tauto.
Qed.

Lemma steering_vector_returns (positions : list vec3) (az el freq c : R) :
  c <> 0 ->
  exists sv, steering_vector positions az el freq c = Returned sv /\
             length sv = length positions.
Proof.
  intros Hc. unfold steering_vector.
  destruct (Req_dec_T c 0); [contradiction|].
  eexists; split; [reflexivity | apply length_map].
Qed.

Lemma delay_and_sum_length data positions az el fs freq c ts :
  delay_and_sum data positions az el fs freq c = Returned ts ->
  length ts = dim1 data.
Proof.
  unfold delay_and_sum, bind. intros H.
  destruct (steering_vector positions az el freq c) as [sv|]; [|discriminate].
  destruct (broadcast_dim (dim0 data) (length sv)); [|discriminate].
  injection H as <-. now rewrite length_map, length_seq.
Qed.

(** C3, as stated, fails: one channel against two element positions is
    broadcast by numpy, and [delay_and_sum] returns a time series. *)
Lemma delay_and_sum_broadcasts_single_channel :
  let data := mk2 1 2 (fun _ _ => 1) in
  let positions := [(0, 0, 0); (1, 0, 0)] in
  dim0 data <> length positions /\
  (exists ts, delay_and_sum data positions 0 0 44100 3000 1500 = Returned ts /\
              length ts = 2%nat) /\
  forall e, delay_and_sum data positions 0 0 44100 3000 1500 <> Raised e.
Proof.
  cbv zeta.
  assert (H : exists ts,
             delay_and_sum (mk2 1 2 (fun _ _ => 1)) [(0, 0, 0); (1, 0, 0)]
                           0 0 44100 3000 1500 = Returned ts /\ length ts = 2%nat).
  { unfold delay_and_sum, steering_vector.
    destruct (Req_dec_T 1500 0) as [E | _]; [lra|].
    simpl. eexists; split; reflexivity. }
  split; [simpl; lia|]. split; [exact H|].
  destruct H as (ts & Hts & _). intros e He. rewrite Hts in He. discriminate.
Qed.

(** C3, amended.  [delay_and_sum] raises numpy's broadcast error when the
    channel count differs from the position count and neither is 1; when one
    of them is 1, or they agree, it returns a series of the sample length
    (for a sound speed other than 0).  [mvdr_beamform] never returns when the
    counts differ: it raises, and what it raises is the matrix-product shape
    error whenever the FFT and the inversion succeed; when the counts agree
    and the FFT and the inversion succeed it returns a series of the sample
    length. *)
Theorem beamformers_shape_contract
    (np_inv : nat -> (nat -> nat -> C) -> option (nat -> nat -> C))
    (data : ndarray2 R) (positions : list vec3)
    (az el : R) (fs : Z) (freq c reg : R) :
  let E := dim0 data in
  let M := length positions in
  (E <> M -> E <> 1%nat -> M <> 1%nat -> c <> 0 ->
     delay_and_sum data positions az el fs freq c = Raised BroadcastError) /\
  (E = M \/ E = 1%nat \/ M = 1%nat -> c <> 0 ->
     exists ts, delay_and_sum data positions az el fs freq c = Returned ts /\
                length ts = dim1 data) /\
  (E <> M ->
     exists e, mvdr_beamform np_inv data positions az el freq reg = Raised e /\
       forall X, fft_axis1 data = Returned X ->
         np_inv E (mvdr_covariance X (mvdr_bin_idx freq (dim1 data)) reg) <> None ->
         e = MatmulShapeError) /\
  (E = M ->
     forall X, fft_axis1 data = Returned X ->
       np_inv E (mvdr_covariance X (mvdr_bin_idx freq (dim1 data)) reg) <> None ->
       exists ts, mvdr_beamform np_inv data positions az el freq reg = Returned ts /\
                  length ts = dim1 data).
Proof.
  intros E M. repeat split.
  - intros HEM HE HM Hc. unfold delay_and_sum.
    destruct (steering_vector_returns positions az el freq c Hc) as (sv & -> & Hl).
    simpl. rewrite Hl, broadcast_dim_mismatch; auto.
  - intros HEM Hc. unfold delay_and_sum.
    destruct (steering_vector_returns positions az el freq c Hc) as (sv & -> & Hl).
    simpl. rewrite Hl.
    destruct (broadcast_dim_total (dim0 data) (length positions) HEM) as (n & ->).
    simpl. eexists; split; [reflexivity|]. now rewrite length_map, length_seq.
  - intros HEM. unfold mvdr_beamform.
    destruct (fft_axis1 data) as [X|e0] eqn:HX; simpl.
    2:{ exists e0; split; [reflexivity|]. intros X H; discriminate. }
    assert (H1500 : 1500 <> 0) by lra.
    destruct (steering_vector_returns positions az el freq 1500 H1500) as (sv & -> & Hl).
    simpl.
    destruct (np_inv (dim0 data) _) as [Rinv|] eqn:Hinv.
    + rewrite Hl. destruct (Nat.eqb_spec (dim0 data) (length positions)); [contradiction|].
      simpl. exists MatmulShapeError; split; auto.
    + exists LinAlgError; split; [reflexivity|].
      intros X' HX' Hn. injection HX' as <-. fold E in Hn. unfold E in Hn.
      rewrite Hinv in Hn. contradiction.
  - intros HEM X HX Hn. unfold mvdr_beamform. rewrite HX. simpl.
    assert (H1500 : 1500 <> 0) by lra.
    destruct (steering_vector_returns positions az el freq 1500 H1500) as (sv & -> & Hl).
    simpl. fold E.
    destruct (np_inv E _) as [Rinv|]; [|contradiction].
    rewrite Hl. fold M. rewrite HEM, Nat.eqb_refl. simpl.
    eexists; split; [reflexivity|]. now rewrite length_map, length_seq.
Qed.

Lemma py_int_small (x : R) : 0 <= x < 1 -> py_int x = 0%Z.
Proof.
  intros [H0 H1]. unfold py_int.
  destruct (Rle_dec 0 x) as [_ | H]; [|contradiction].
  symmetry. apply Int_part_spec. simpl. lra.
Qed.

(** C5. [mvdr_beamform] takes its bin from [int(freq / N)], without the
    sample rate.  For 8 samples taken at 8 Hz and a target of 2 Hz the
    frequency resolution is 1 Hz and the nearest bin is bin 2, of centre
    2 Hz; the code reads column 0, the bin of centre 0 Hz, which is not
    the nearest. *)
Theorem mvdr_bin_idx_ignores_sample_rate :
  mvdr_bin_idx 2 8 = 0%Z /\
  slice_range 8 (mvdr_bin_idx 2 8) (mvdr_bin_idx 2 8 + 1) = [0%nat] /\
  nearest_bin 8 8 2 2 /\
  ~ nearest_bin 8 8 2 0.
Proof.
  assert (Hb : mvdr_bin_idx 2 8 = 0%Z).
  { unfold mvdr_bin_idx. simpl. apply py_int_small. lra. }
  assert (Hc2 : bin_centre 8 8 2 = 2) by (unfold bin_centre; simpl; lra).
  assert (Hc0 : bin_centre 8 8 0 = 0) by (unfold bin_centre; simpl; lra).
  split; [exact Hb|]. split; [rewrite Hb; reflexivity|]. split.
  - split; [lia|]. intros k' _. rewrite Hc2.
    replace (2 - 2) with 0 by lra. rewrite Rabs_R0. apply Rabs_pos.
  - intros [_ H]. specialize (H 2%nat ltac:(lia)).
    rewrite Hc0, Hc2 in H.
    replace (2 - 2) with 0 in H by lra. rewrite Rabs_R0 in H.
    replace (2 - 0) with 2 in H by lra.
    rewrite Rabs_pos_eq in H; lra.
Qed.

Lemma steering_vector_unit_magnitude_witness :
  1500 <> 0 /\
  exists sv : list C,
    steering_vector [(1, 0, 0)] 45 0 3000 1500 = Returned sv /\
    length sv = 1%nat /\
    dot3 (unit_direction 45 0) (unit_direction 45 0) = 1 /\
    forall (i : nat) (p : vec3), nth_error [(1, 0, 0)] i = Some p ->
      exists w : C,
        nth_error sv i = Some w /\
        Cmod w = 1 /\
        w = Cphase (- (2 * PI * 3000 / 1500) * dot3 p (unit_direction 45 0)).
Proof.
  assert (H : 1500 <> 0) by lra.
  split; [exact H|].
  exact (steering_vector_unit_magnitude [(1, 0, 0)] 45 0 3000 1500 H).
Defined.

Lemma beamformers_shape_contract_witness :
  let data := mk2 1 1 (fun _ _ => 0) in
  let positions := [(0, 0, 0)] in
  dim0 data = length positions /\
  1500 <> 0 /\
  (exists ts, delay_and_sum data positions 0 0 44100 3000 1500 = Returned ts /\
              length ts = 1%nat) /\
  (exists ts, mvdr_beamform inv_1x1 data positions 0 0 0 1 = Returned ts /\
              length ts = 1%nat).
Proof.
  cbv zeta.
  pose proof (beamformers_shape_contract
                inv_1x1 (mk2 1 1 (fun _ _ => 0)) [(0, 0, 0)] 0 0 44100 0 1500 1)
    as (_ & _ & _ & Hmvdr).
  pose proof (beamformers_shape_contract
                inv_1x1 (mk2 1 1 (fun _ _ => 0)) [(0, 0, 0)] 0 0 44100 3000 1500 1)
    as (_ & Hdas & _ & _).
  assert (Hc : 1500 <> 0) by lra.
  assert (Hs : dim0 (mk2 1 1 (fun _ _ : nat => 0)) = length [(0, 0, 0)])
    by reflexivity.
  split; [exact Hs|]. split; [exact Hc|]. split.
  - exact (Hdas (or_introl Hs) Hc).
  - apply (Hmvdr Hs _ eq_refl).
    assert (Hb : mvdr_bin_idx 0 1 = 0%Z).
    { unfold mvdr_bin_idx. simpl. apply py_int_small. lra. }
    cbn [dim1 dim0]. rewrite Hb.
    unfold inv_1x1.
    destruct (Ceq_dec _ (RtoC 0)) as [E | _]; [|discriminate].
    exfalso. apply (f_equal Re) in E. revert E.
    unfold mvdr_covariance, slice_range, slice_bound, dft_row, Csum. simpl. lra.
Defined.

End BeamformingFacts.

Module ProcessingFacts.
Import Processing ProcessingComputed Float64Facts.

(** *** Lists: indexed update, ranges, slices *)

Lemma length_list_set {A : Type} (l : list A) (i : nat) (v : A) :
  length (list_set l i v) = length l.
Proof.
  revert i; induction l as [|h t IH]; intros [|i]; simpl; auto.
Qed.

Lemma nth_list_set {A : Type} (l : list A) (i j : nat) (v d : A) :
  (i < length l)%nat ->
  nth j (list_set l i v) d = if (j =? i)%nat then v else nth j l d.
Proof.
  revert i j; induction l as [|h t IH]; intros i j Hi; simpl in Hi; [lia|].
  destruct i as [|i], j as [|j]; simpl; auto.
  apply IH. lia.
Qed.

Lemma filter_range (a b N : nat) :
  filter (fun j => (a <=? j)%nat && (j <? b)%nat) (seq 0 N)
  = seq (Nat.min a N) (Nat.min b N - Nat.min a N).
Proof.
  induction N as [|N IH]; [now rewrite !Nat.min_0_r|].
  rewrite seq_S, filter_app, IH. simpl.
  destruct (Nat.leb_spec a N) as [Ha | Ha], (Nat.ltb_spec N b) as [Hb | Hb]; simpl.
  - rewrite (Nat.min_l a N), (Nat.min_l a (S N)) by lia.
    rewrite (Nat.min_r b N), (Nat.min_r b (S N)) by lia.
    replace (S N - a)%nat with (S (N - a)) by lia.
    rewrite seq_S. do 2 f_equal. lia.
  - rewrite app_nil_r.
    rewrite (Nat.min_l a N), (Nat.min_l a (S N)) by lia.
    rewrite (Nat.min_l b N), (Nat.min_l b (S N)) by lia. reflexivity.
  - rewrite app_nil_r.
    rewrite (Nat.min_r a N), (Nat.min_r a (S N)) by lia.
    replace (Nat.min b N - N)%nat with 0%nat by lia.
    replace (Nat.min b (S N) - S N)%nat with 0%nat by lia. reflexivity.
  - rewrite app_nil_r.
    rewrite (Nat.min_r a N), (Nat.min_r a (S N)) by lia.
    replace (Nat.min b N - N)%nat with 0%nat by lia.
    replace (Nat.min b (S N) - S N)%nat with 0%nat by lia. reflexivity.
Qed.

Lemma firstn_skipn_range {A : Type} (l : list A) (a n : nat) (d : A) :
  firstn n (skipn a l)
  = map (fun j => nth j l d) (seq a (Nat.min n (length l - a))).
Proof.
  apply (nth_ext _ _ d d).
  - now rewrite length_firstn, length_skipn, length_map, length_seq.
  - intros k Hk. rewrite length_firstn, length_skipn in Hk.
    rewrite nth_firstn.
    destruct (Nat.ltb_spec k n) as [_ | H]; [|lia].
    rewrite nth_skipn.
    rewrite (nth_indep (map _ _) d (nth 0%nat l d))
      by (rewrite length_map, length_seq; lia).
    rewrite (map_nth (fun j => nth j l d)).
    f_equal. rewrite seq_nth; lia.
Qed.

Lemma py_slice_window (data : list R) (a b : Z) :
  (0 <= a)%Z -> (0 <= b)%Z -> py_slice data a b = window data a b.
Proof.
  intros Ha Hb. unfold py_slice, slice_bound, window.
  destruct (Z.ltb_spec a 0) as [H | _]; [lia|].
  destruct (Z.ltb_spec b 0) as [H | _]; [lia|].
  rewrite (firstn_skipn_range data _ _ 0).
  rewrite (filter_ext _ (fun j => (Z.to_nat a <=? j)%nat && (j <? Z.to_nat b)%nat)).
  2:{ intros j. f_equal.
      - destruct (Z.leb_spec a (Z.of_nat j)), (Nat.leb_spec (Z.to_nat a) j);
          auto; lia.
      - destruct (Z.ltb_spec (Z.of_nat j) b), (Nat.ltb_spec j (Z.to_nat b));
          auto; lia. }
  rewrite filter_range. do 2 f_equal; lia.
Qed.

Lemma window_clip_low (data : list R) (lo hi : Z) :
  window data (Z.max 0 lo) (Z.max 0 hi) = window data lo hi.
Proof.
  unfold window. f_equal. apply filter_ext. intros j. f_equal.
  - destruct (Z.leb_spec (Z.max 0 lo) (Z.of_nat j)), (Z.leb_spec lo (Z.of_nat j));
      auto; lia.
  - destruct (Z.ltb_spec (Z.of_nat j) (Z.max 0 hi)), (Z.ltb_spec (Z.of_nat j) hi);
      auto; lia.
Qed.

Lemma window_clip_high (data : list R) (lo hi : Z) :
  window data (Z.min (Z.of_nat (length data)) lo)
              (Z.min (Z.of_nat (length data)) hi)
  = window data lo hi.
Proof.
  unfold window. f_equal. apply filter_ext_in. intros j Hj.
  apply in_seq in Hj. f_equal.
  - destruct (Z.leb_spec (Z.min (Z.of_nat (length data)) lo) (Z.of_nat j)),
             (Z.leb_spec lo (Z.of_nat j)); auto; lia.
  - destruct (Z.ltb_spec (Z.of_nat j) (Z.min (Z.of_nat (length data)) hi)),
             (Z.ltb_spec (Z.of_nat j) hi); auto; lia.
Qed.

(** The slices of the code select the two windows of the spec. *)
Lemma noise_samples_spec (data : list R) (guard noise_win : Z) (i : nat) :
  (0 <= guard)%Z -> (0 <= noise_win)%Z ->
  noise_samples data guard noise_win (Z.of_nat i) = spec_noise data guard noise_win i.
Proof.
  intros Hg Hw. unfold noise_samples, spec_noise. cbv zeta. f_equal.
  - rewrite py_slice_window by lia. apply window_clip_low.
  - rewrite py_slice_window by lia. apply window_clip_high.
Qed.

(** The loop of [simple_cfar] after its first [k] turns. *)
Lemma cfar_loop (data : list R) (guard noise_win : Z) (rate : R) (k : nat) :
  (k <= length data)%nat ->
  let out := fold_left (cfar_step data guard noise_win rate) (seq 0 k)
                       (repeat false (length data)) in
  length out = length data /\
  forall i, nth i out false
            = if (i <? k)%nat then cell_flag data guard noise_win rate i else false.
Proof.
  induction k as [|k IH]; intros Hk; cbv zeta.
  - simpl. split; [apply repeat_length|].
    intros i. apply nth_repeat.
  - rewrite seq_S, fold_left_app. simpl.
    destruct (IH ltac:(lia)) as [Hlen Hnth]. cbv zeta in Hlen, Hnth.
    set (out := fold_left (cfar_step data guard noise_win rate) (seq 0 k)
                          (repeat false (length data))) in *.
    unfold cfar_step. cbv zeta.
    destruct (length (noise_samples data guard noise_win (Z.of_nat k)) <? 1)%nat eqn:Hc.
    + split; [exact Hlen|]. intros i. rewrite Hnth.
      destruct (Nat.ltb_spec i k), (Nat.ltb_spec i (S k)); try lia; auto.
      assert (i = k) by lia. subst i.
      unfold cell_flag. cbv zeta. now rewrite Hc.
    + split; [now rewrite length_list_set|]. intros i.
      rewrite nth_list_set by lia. rewrite Hnth.
      destruct (Nat.eqb_spec i k) as [-> | Hne].
      * destruct (Nat.ltb_spec k (S k)); [|lia].
        unfold cell_flag. cbv zeta. now rewrite Hc.
      * destruct (Nat.ltb_spec i k), (Nat.ltb_spec i (S k)); try lia; auto.
Qed.

(** *** The threshold *)

Lemma ln_nonpos (rate : R) : 0 < rate <= 1 -> ln rate <= 0.
Proof.
  intros [H0 [H1 | ->]]; [|rewrite ln_1; lra].
  left. rewrite <- ln_1. now apply ln_increasing.
Qed.

Lemma cfar_threshold_finite (level rate : R) :
  0 < rate <= 1 ->
  cfar_threshold level rate = Fin (level * (1 + 3 * sqrt (- ln rate))).
Proof.
  intros Hr. pose proof (ln_nonpos rate Hr) as Hln.
  unfold cfar_threshold, np_log.
  destruct (Rlt_dec 0 rate) as [_ | H]; [|lra]. simpl.
  destruct (Rle_dec 0 (- ln rate)) as [_ | H]; [|lra].
  reflexivity.
Qed.

Lemma cfar_threshold_never_exceeded (level rate a : R) :
  0 <= level -> ~ 0 < rate <= 1 ->
  np_gt (Fin a) (cfar_threshold level rate) = false.
Proof.
  intros Hl Hr. unfold cfar_threshold, np_log.
  destruct (Rlt_dec 0 rate) as [Hpos | Hneg].
  - assert (H1 : 1 < rate) by lra.
    assert (Hln : 0 < ln rate) by (rewrite <- ln_1; now apply ln_increasing; lra).
    simpl. destruct (Rle_dec 0 (- ln rate)) as [H | _]; [lra|]. reflexivity.
  - destruct (Req_dec_T rate 0) as [_ | _]; [|reflexivity].
    simpl. unfold np_mul_inf.
    destruct (Req_dec_T 3 0) as [H | _]; [lra|].
    destruct (Rlt_dec 0 3) as [_ | H]; [|lra]. simpl.
    destruct (Req_dec_T level 0) as [_ | Hl0]; [reflexivity|].
    destruct (Rlt_dec 0 level) as [_ | H]; [reflexivity | lra].
Qed.

Lemma Rsum_abs_nonneg (l : list R) : 0 <= Rsum (map Rabs l).
Proof.
  induction l as [|x l IH]; simpl; [lra|].
  pose proof (Rabs_pos x). lra.
Qed.

Lemma np_mean_abs_nonneg (l : list R) : l <> [] -> 0 <= np_mean (map Rabs l).
Proof.
  intros Hl. unfold np_mean. apply Rmult_le_pos; [apply Rsum_abs_nonneg|].
  left. apply Rinv_0_lt_compat. apply lt_0_INR.
  destruct l; [contradiction | simpl; lia].
Qed.

(** *** The detector *)

Lemma simple_cfar_cells (data : list R) (guard noise_win : Z) (rate : R) :
  exists mask : list bool,
    simple_cfar data guard noise_win rate = Returned mask /\
    length mask = length data /\
    forall i, (i < length data)%nat ->
              nth i mask false = cell_flag data guard noise_win rate i.
Proof.
  unfold simple_cfar. cbv zeta. eexists; split; [reflexivity|].
  destruct (cfar_loop data guard noise_win rate (length data) (Nat.le_refl _))
    as [Hlen Hnth].
  split; [exact Hlen|]. intros i Hi. rewrite Hnth.
  destruct (Nat.ltb_spec i (length data)); [reflexivity | lia].
Qed.

Lemma cell_flag_out_of_range (data : list R) (guard noise_win : Z) (rate : R) (i : nat) :
  ~ 0 < rate <= 1 -> cell_flag data guard noise_win rate i = false.
Proof.
  intros Hr. unfold cell_flag. cbv zeta.
  destruct (noise_samples data guard noise_win (Z.of_nat i)) as [|x noise] eqn:Hn;
    [reflexivity|].
  change (length (x :: noise) <? 1)%nat with false. cbv iota.
  apply cfar_threshold_never_exceeded; [|exact Hr].
  apply np_mean_abs_nonneg. discriminate.
Qed.

(** *** The detector on its float64 results *)

Section Computed.

Variable F : float64.
Hypothesis HL : ln_ok F.

(** The loop of [simple_cfar] after its first [k] turns. *)
Lemma cfar_loop_fl (data : list R) (guard noise_win : Z) (rate : R) (k : nat) :
  (k <= length data)%nat ->
  let out := fold_left (cfar_step_fl F data guard noise_win rate) (seq 0 k)
                       (repeat false (length data)) in
  length out = length data /\
  forall i, nth i out false
            = if (i <? k)%nat then cell_flag_fl F data guard noise_win rate i else false.
Proof.
  induction k as [|k IH]; intros Hk; cbv zeta.
  - simpl. split; [apply repeat_length|].
    intros i. apply nth_repeat.
  - rewrite seq_S, fold_left_app. simpl.
    destruct (IH ltac:(lia)) as [Hlen Hnth]. cbv zeta in Hlen, Hnth.
    set (out := fold_left (cfar_step_fl F data guard noise_win rate) (seq 0 k)
                          (repeat false (length data))) in *.
    unfold cfar_step_fl. cbv zeta.
    destruct (length (noise_samples data guard noise_win (Z.of_nat k)) <? 1)%nat eqn:Hc.
    + split; [exact Hlen|]. intros i. rewrite Hnth.
      destruct (Nat.ltb_spec i k), (Nat.ltb_spec i (S k)); try lia; auto.
      assert (i = k) by lia. subst i.
      unfold cell_flag_fl. cbv zeta. now rewrite Hc.
    + split; [now rewrite length_list_set|]. intros i.
      rewrite nth_list_set by lia. rewrite Hnth.
      destruct (Nat.eqb_spec i k) as [-> | Hne].
      * destruct (Nat.ltb_spec k (S k)); [|lia].
        unfold cell_flag_fl. cbv zeta. now rewrite Hc.
      * destruct (Nat.ltb_spec i k), (Nat.ltb_spec i (S k)); try lia; auto.
Qed.

Lemma simple_cfar_fl_cells (data : list R) (guard noise_win : Z) (rate : R) :
  exists mask : list bool,
    simple_cfar_fl F data guard noise_win rate = Returned mask /\
    length mask = length data /\
    forall i, (i < length data)%nat ->
              nth i mask false = cell_flag_fl F data guard noise_win rate i.
Proof.
  unfold simple_cfar_fl. cbv zeta. eexists; split; [reflexivity|].
  destruct (cfar_loop_fl data guard noise_win rate (length data) (Nat.le_refl _))
    as [Hlen Hnth].
  split; [exact Hlen|]. intros i Hi. rewrite Hnth.
  destruct (Nat.ltb_spec i (length data)); [reflexivity | lia].
Qed.

(** For a rate in (0, 1] the threshold is the finite float of the formula. *)
Lemma cfar_threshold_fl_finite (noise : list R) (rate : R) :
  0 < rate <= 1 ->
  cfar_threshold_fl F (fl_mean F (map Rabs noise)) rate
  = Fin (spec_threshold_fl F noise rate).
Proof.
  intros Hr. pose proof (HL rate Hr) as Hln.
  unfold cfar_threshold_fl, spec_threshold_fl, np_log_fl.
  destruct (Rlt_dec 0 rate) as [_ | H]; [|lra]. simpl.
  destruct (Rle_dec 0 (- fl_ln F rate)) as [_ | H]; [|lra].
  reflexivity.
Qed.

(** C2, amended.  With cell counts [guard] and [noise_win] (not negative),
    [simple_cfar] returns a mask of the length of [data]; an index whose two
    clipped windows hold no sample is never flagged; and for a rate in
    (0, 1] index [i] is flagged exactly when the windows hold a sample and
    [|data[i]|] exceeds the threshold that the floats give,
    [noise_level * (1 + 3*sqrt(-ln(rate)))] with every operation rounded and
    [noise_level] the mean, as numpy computes it, of the absolute values of
    the window samples. *)
Theorem simple_cfar_flags
    (data : list R) (guard noise_win : Z) (rate : R)
    (Hguard : (0 <= guard)%Z) (Hwin : (0 <= noise_win)%Z) :
  exists mask : list bool,
    simple_cfar_fl F data guard noise_win rate = Returned mask /\
    length mask = length data /\
    forall i, (i < length data)%nat ->
      (spec_noise data guard noise_win i = [] -> nth i mask false = false) /\
      (0 < rate <= 1 ->
       (nth i mask false = true <->
        spec_noise data guard noise_win i <> [] /\
        Rabs (nth i data 0)
        > spec_threshold_fl F (spec_noise data guard noise_win i) rate)).
Proof.
  destruct (simple_cfar_fl_cells data guard noise_win rate) as (mask & Hm & Hlen & Hnth).
  exists mask. split; [exact Hm|]. split; [exact Hlen|].
  intros i Hi. rewrite (Hnth i Hi).
  split.
  - intros Hnil. unfold cell_flag_fl. cbv zeta.
    rewrite noise_samples_spec, Hnil by assumption. reflexivity.
  - intros Hr. unfold cell_flag_fl. cbv zeta.
    rewrite noise_samples_spec by assumption.
    destruct (spec_noise data guard noise_win i) as [|x noise] eqn:Hn.
    + simpl. split; [discriminate | intros [H _]; contradiction].
    + change (length (x :: noise) <? 1)%nat with false. cbv iota.
      rewrite cfar_threshold_fl_finite by exact Hr.
      unfold np_gt.
      destruct (Rlt_dec _ _) as [Hlt | Hge].
      * split; [intros _; split; [discriminate | exact Hlt] | reflexivity].
      * split; [discriminate | intros [_ H]; contradiction].
Qed.

End Computed.

(** Without rounding the detector on its float64 results is the detector
    over the real numbers. *)
Lemma simple_cfar_fl_exact (data : list R) (guard noise_win : Z) (rate : R) :
  simple_cfar_fl exact64 data guard noise_win rate = simple_cfar data guard noise_win rate.
Proof. reflexivity. Qed.

Lemma default_rate_factor : 1 + 3 * sqrt (- ln (1 / 1000)) < 100.
Proof.
  assert (Hln : - ln (1 / 1000) = ln 1000).
  { unfold Rdiv. rewrite Rmult_1_l, ln_Rinv by lra. ring. }
  rewrite Hln.
  assert (H1 : ln 1000 < 1000).
  { rewrite <- (ln_exp 1000) at 2. apply ln_increasing; [lra|].
    pose proof (exp_ineq1 1000 ltac:(lra)). lra. }
  assert (H2 : sqrt (ln 1000) < 33).
  { replace 33 with (sqrt (33 * 33)) by (apply sqrt_square; lra).
    apply sqrt_lt_1_alt. split; [|lra].
    rewrite <- ln_1. left. apply ln_increasing; lra. }
  lra.
Qed.

(** C2, as stated, fails: with the window [-3] the slices of the code wrap
    around; cell 1 has no sample in the two windows of the claim and yet it
    is flagged, against the two noise samples that the wrapped slice
    [data[2:-1]] holds. *)
Lemma simple_cfar_negative_window :
  spec_noise [0; 100; 1; 1; 0] 0 (-3) 1 = [] /\
  noise_samples [0; 100; 1; 1; 0] 0 (-3) 1 = [1; 1] /\
  exists mask : list bool,
    simple_cfar_fl exact64 [0; 100; 1; 1; 0] 0 (-3) (1 / 1000) = Returned mask /\
    nth 1 mask false = true.
Proof.
  split; [reflexivity|]. split; [reflexivity|].
  destruct (simple_cfar_fl_cells exact64 [0; 100; 1; 1; 0] 0 (-3) (1 / 1000))
    as (mask & Hm & _ & Hnth).
  exists mask. split; [exact Hm|].
  rewrite (Hnth 1%nat) by (simpl; lia).
  unfold cell_flag_fl. cbv zeta.
  change (noise_samples [0; 100; 1; 1; 0] 0 (-3) (Z.of_nat 1)) with [1; 1].
  change (length [1; 1] <? 1)%nat with false. cbv iota.
  rewrite (cfar_threshold_fl_finite exact64 exact64_ln_ok) by lra.
  unfold spec_threshold_fl, exact64, np_mean, np_gt; cbn [rnd fl_mean fl_ln map nth].
  pose proof default_rate_factor as Hf.
  rewrite Rabs_R1, (Rabs_pos_eq 100) by lra.
  simpl. destruct (Rlt_dec _ _) as [_ | H]; [reflexivity|].
  exfalso. apply H. lra.
Qed.

Lemma simple_cfar_flags_witness :
  ln_ok exact64 /\ (0 <= 0)%Z /\ (0 <= 2)%Z /\
  exists mask : list bool,
    simple_cfar_fl exact64 [1; 1; 100; 1; 1] 0 2 (1 / 1000) = Returned mask /\
    length mask = length [1; 1; 100; 1; 1] /\
    forall i, (i < length [1; 1; 100; 1; 1])%nat ->
      (spec_noise [1; 1; 100; 1; 1] 0 2 i = [] -> nth i mask false = false) /\
      (0 < 1 / 1000 <= 1 ->
       (nth i mask false = true <->
        spec_noise [1; 1; 100; 1; 1] 0 2 i <> [] /\
        Rabs (nth i [1; 1; 100; 1; 1] 0)
        > spec_threshold_fl exact64 (spec_noise [1; 1; 100; 1; 1] 0 2 i) (1 / 1000))).
Proof.
  assert (Hg : (0 <= 0)%Z) by lia.
  assert (Hw : (0 <= 2)%Z) by lia.
  split; [exact exact64_ln_ok|]. split; [exact Hg|]. split; [exact Hw|].
  exact (simple_cfar_flags exact64 exact64_ln_ok [1; 1; 100; 1; 1] 0 2 (1 / 1000) Hg Hw).
Defined.

(** C4, as stated, fails: with the rate 2, outside (0,1), [simple_cfar]
    raises nothing and returns a mask (in which nothing is flagged). *)
Lemma simple_cfar_accepts_rate_2 :
  ~ 0 < 2 < 1 /\
  simple_cfar [1; 5; 1] 0 1 2 = Returned [false; false; false].
Proof.
  split; [lra|].
  destruct (simple_cfar_cells [1; 5; 1] 0 1 2) as (mask & Hm & Hlen & Hnth).
  rewrite Hm. f_equal.
  assert (Hr : ~ 0 < 2 <= 1) by lra.
  pose proof (Hnth 0%nat ltac:(simpl; lia)) as H0.
  pose proof (Hnth 1%nat ltac:(simpl; lia)) as H1.
  pose proof (Hnth 2%nat ltac:(simpl; lia)) as H2.
  rewrite cell_flag_out_of_range in H0, H1, H2 by exact Hr.
  destruct mask as [|a [|b [|c [|? ?]]]]; try discriminate.
  simpl in H0, H1, H2. now subst.
Qed.

(** C4, amended.  [simple_cfar] does not check the rate: for every rate it
    returns a mask of the length of the data, and for a rate that is not
    in (0, 1] the mask flags no index. *)
Theorem simple_cfar_no_rate_check
    (data : list R) (guard noise_win : Z) (rate : R) :
  exists mask : list bool,
    simple_cfar data guard noise_win rate = Returned mask /\
    length mask = length data /\
    (~ 0 < rate <= 1 -> forall i, nth i mask false = false).
Proof.
  destruct (simple_cfar_cells data guard noise_win rate) as (mask & Hm & Hlen & Hnth).
  exists mask. split; [exact Hm|]. split; [exact Hlen|].
  intros Hr i. destruct (Nat.lt_ge_cases i (length data)) as [Hi | Hi].
  - rewrite (Hnth i Hi). now apply cell_flag_out_of_range.
  - apply nth_overflow. lia.
Qed.

Lemma simple_cfar_no_rate_check_witness :
  ~ 0 < 2 <= 1 /\
  exists mask : list bool,
    simple_cfar [1; 5; 1] 0 1 2 = Returned mask /\
    length mask = 3%nat /\
    forall i, nth i mask false = false.
Proof.
  assert (Hr : ~ 0 < 2 <= 1) by lra.
  split; [exact Hr|].
  destruct (simple_cfar_no_rate_check [1; 5; 1] 0 1 2) as (mask & Hm & Hl & Hf).
  exists mask. split; [exact Hm|]. split; [exact Hl | exact (Hf Hr)].
Defined.

End ProcessingFacts.

Module TrackerFacts.
Import Tracker TrackerComputed.

(** *** The dictionary *)

Lemma keys_dict_set (m : dict) (k : Z) (v : Track) :
  keys (dict_set m k v) = keys m ++ (if in_dec Z.eq_dec k (keys m) then [] else [k]).
Proof.
  induction m as [|[k' v'] m IH]; simpl; [reflexivity|].
  destruct (Z.eqb_spec k' k) as [-> | Hne]; simpl.
  - destruct (Z.eq_dec k k) as [_ | H]; [|contradiction].
    now rewrite app_nil_r.
  - rewrite IH. destruct (Z.eq_dec k' k) as [H | Hn]; [contradiction|].
    unfold keys. destruct (in_dec Z.eq_dec k (map fst m)); reflexivity.
Qed.

Lemma dict_get_set_same (m : dict) (k : Z) (v : Track) :
  dict_get (dict_set m k v) k = Some v.
Proof.
  induction m as [|[k' v'] m IH]; simpl.
  - now rewrite Z.eqb_refl.
  - destruct (Z.eqb_spec k' k) as [-> | Hne]; simpl.
    + now rewrite Z.eqb_refl.
    + destruct (Z.eqb_spec k' k); [contradiction | exact IH].
Qed.

Lemma dict_get_set_other (m : dict) (k k0 : Z) (v : Track) :
  k0 <> k -> dict_get (dict_set m k v) k0 = dict_get m k0.
Proof.
  intros Hne. induction m as [|[k' v'] m IH]; simpl.
  - destruct (Z.eqb_spec k k0); [congruence | reflexivity].
  - destruct (Z.eqb_spec k' k) as [-> | Hk]; simpl.
    + destruct (Z.eqb_spec k k0); [congruence | reflexivity].
    + destruct (Z.eqb_spec k' k0); [reflexivity | exact IH].
Qed.

Lemma dict_get_In (m : dict) (k : Z) (tr : Track) :
  dict_get m k = Some tr -> In (k, tr) m.
Proof.
  induction m as [|[k' v'] m IH]; simpl; [discriminate|].
  destruct (Z.eqb_spec k' k) as [-> | Hne].
  - intros [= ->]. now left.
  - intros H. right. now apply IH.
Qed.

Lemma In_dict_get (m : dict) (k : Z) (tr : Track) :
  NoDup (keys m) -> In (k, tr) m -> dict_get m k = Some tr.
Proof.
  induction m as [|[k' v'] m IH]; simpl; [contradiction|].
  intros Hnd [H | H].
  - injection H as <- <-. now rewrite Z.eqb_refl.
  - inversion Hnd as [|? ? Hnotin Hnd']; subst.
    destruct (Z.eqb_spec k' k) as [-> | Hne].
    + exfalso. apply Hnotin. apply (in_map fst) in H. exact H.
    + now apply IH.
Qed.

Lemma dict_get_keys (m : dict) (k : Z) (tr : Track) :
  dict_get m k = Some tr -> In k (keys m).
Proof.
  intros H. apply dict_get_In in H. apply (in_map fst) in H. exact H.
Qed.

(** *** Shapes *)

Lemma list4 {A : Type} (l : list A) :
  length l = 4%nat -> exists a b c d, l = [a; b; c; d].
Proof.
  destruct l as [|a [|b [|c [|d [|e l]]]]]; simpl; try discriminate.
  intros _. now exists a, b, c, d.
Qed.

Lemma track_shape_inv (tr : Track) :
  track_shape tr ->
  exists s0 s1 s2 s3
         p00 p01 p02 p03 p10 p11 p12 p13 p20 p21 p22 p23 p30 p31 p32 p33,
    state tr = [s0; s1; s2; s3] /\
    P tr = [[p00; p01; p02; p03]; [p10; p11; p12; p13];
            [p20; p21; p22; p23]; [p30; p31; p32; p33]].
Proof.
  intros (Hs & HP & Hrows).
  destruct (list4 _ Hs) as (s0 & s1 & s2 & s3 & ->).
  destruct (list4 _ HP) as (r0 & r1 & r2 & r3 & HPe).
  rewrite HPe in Hrows.
  inversion Hrows as [|? ? H0 Hrows1]; subst.
  inversion Hrows1 as [|? ? H1 Hrows2]; subst.
  inversion Hrows2 as [|? ? H2 Hrows3]; subst.
  inversion Hrows3 as [|? ? H3 _]; subst.
  destruct (list4 _ H0) as (p00 & p01 & p02 & p03 & ->).
  destruct (list4 _ H1) as (p10 & p11 & p12 & p13 & ->).
  destruct (list4 _ H2) as (p20 & p21 & p22 & p23 & ->).
  destruct (list4 _ H3) as (p30 & p31 & p32 & p33 & ->).
  exists s0, s1, s2, s3, p00, p01, p02, p03, p10, p11, p12, p13,
         p20, p21, p22, p23, p30, p31, p32, p33.
  split; [reflexivity | exact HPe].
Qed.

Ltac shape_cases H :=
  destruct (track_shape_inv _ H)
    as (?s0 & ?s1 & ?s2 & ?s3 & ?p00 & ?p01 & ?p02 & ?p03 & ?p10 & ?p11 & ?p12 & ?p13
        & ?p20 & ?p21 & ?p22 & ?p23 & ?p30 & ?p31 & ?p32 & ?p33 & ?Hstate & ?HP).

Ltac shape_done :=
  unfold track_shape; simpl;
  repeat (first [split | reflexivity | constructor]).

Ltac mat_unfold :=
  unfold correct_track, predict_track, F_matrix, bind, getitem, mat_mul, mat_add,
    mat_sub, mat_scale, mat_vec, vec_add, vec_sub, transpose, column, ncols, eye,
    quad, H_matrix, np_inv2 in *.

Ltac mat_compute :=
  mat_unfold; repeat progress (unfold dot, Rsum in *; simpl in * ).

Ltac tidy :=
  rewrite ?Rmult_0_l, ?Rmult_0_r, ?Rmult_1_l, ?Rmult_1_r, ?Rplus_0_l, ?Rplus_0_r,
    ?Rminus_0_r in *.

Ltac list_eq :=
  repeat match goal with |- (_ :: _) = (_ :: _) => f_equal end.

Lemma new_track_shape (k : Z) (x y : R) :
  track_shape (mkTrack k [x; y; 0; 0] (eye 4)).
Proof. shape_done. Qed.

Lemma predict_track_shape (dt : R) (tr : Track) :
  track_shape tr -> track_shape (predict_track dt tr).
Proof.
  intros H. shape_cases H. unfold predict_track. rewrite Hstate, HP. shape_done.
Qed.

Lemma correct_track_keeps (tr tr' : Track) (d : vec) :
  correct_track tr d = Returned tr' ->
  id tr' = id tr /\ (track_shape tr -> track_shape tr').
Proof.
  unfold correct_track, bind. intros H.
  destruct (getitem d 0) as [d0|]; [|discriminate].
  destruct (getitem d 1) as [d1|]; [|discriminate].
  destruct (np_inv2 _) as [Sinv|] eqn:Hinv; [|discriminate].
  injection H as <-. split; [reflexivity|].
  intros Hsh. shape_cases Hsh. rewrite Hstate, HP in *.
  simpl in Hinv. destruct (Req_dec_T _ 0); [discriminate|].
  injection Hinv as <-. shape_done.
Qed.

(** *** Covariances *)

Lemma covariance_eye : covariance (eye 4).
Proof.
  split; [reflexivity|]. intros v0 v1 v2 v3. mat_compute. nra.
Qed.

Lemma symmetric_inv
    (p00 p01 p02 p03 p10 p11 p12 p13 p20 p21 p22 p23 p30 p31 p32 p33 : R) :
  transpose [[p00; p01; p02; p03]; [p10; p11; p12; p13];
             [p20; p21; p22; p23]; [p30; p31; p32; p33]]
  = [[p00; p01; p02; p03]; [p10; p11; p12; p13];
     [p20; p21; p22; p23]; [p30; p31; p32; p33]] ->
  p10 = p01 /\ p20 = p02 /\ p30 = p03 /\ p21 = p12 /\ p31 = p13 /\ p32 = p23.
Proof.
  unfold transpose, column, ncols. simpl. intros H.
  injection H as ? ? ? ? ? ? ? ? ? ? ? ?. repeat split; congruence.
Qed.

(** [F P F^T + 0.1 I] is a covariance when [P] is: its quadratic form at [v]
    is that of [P] at [F^T v], plus [0.1 |v|^2]. *)
Lemma covariance_predict (dt : R) (tr : Track) :
  track_shape tr -> covariance (P tr) -> covariance (P (predict_track dt tr)).
Proof.
  intros Hsh [Hsym Hpos]. shape_cases Hsh. rewrite HP in *.
  destruct (symmetric_inv _ _ _ _ _ _ _ _ _ _ _ _ _ _ _ _ Hsym)
    as (-> & -> & -> & -> & -> & ->).
  unfold predict_track. rewrite HP. cbn [P]. split.
  - mat_compute. list_eq; ring.
  - intros v0 v1 v2 v3.
    specialize (Hpos v0 v1 (dt * v0 + v2) (dt * v1 + v3)).
    mat_compute.
    match goal with
    | Hp : 0 <= ?X |- 0 <= ?Y =>
        replace Y with (X + 1 / 10 * (v0 * v0 + v1 * v1 + v2 * v2 + v3 * v3)) by field
    end.
    nra.
Qed.

(** The determinant of [S = H P H^T + 10 I] for a positive semi-definite
    upper-left block [[a, b], [b, c]] of [P]. *)
Lemma gain_det_pos (a b c : R) :
  (forall x y : R, 0 <= a * x * x + 2 * b * x * y + c * y * y) ->
  0 < (a + 10) * (c + 10) - b * b.
Proof.
  intros H.
  pose proof (H 1 0) as Ha. pose proof (H 0 1) as Hc.
  pose proof (H b (- (a + 10))) as Hb.
  assert (Ha' : 0 <= a) by lra. assert (Hc' : 0 <= c) by lra.
  assert (Hk : 0 <= c * (a + 10) * (a + 10) - b * b * (a + 20)) by nra.
  assert (Hm : 0 < (a + 20) * ((a + 10) * (c + 10) - b * b)) by nra.
  nra.
Qed.

Lemma covariance_gain_det (p00 p01 p02 p03 p11 p12 p13 p22 p23 p33 : R) :
  covariance [[p00; p01; p02; p03]; [p01; p11; p12; p13];
              [p02; p12; p22; p23]; [p03; p13; p23; p33]] ->
  (p00 + 10) * (p11 + 10) - p01 * p01 <> 0.
Proof.
  intros [_ Hpos]. apply Rgt_not_eq. apply gain_det_pos. intros x y.
  specialize (Hpos x y 0 0). mat_compute.
  match goal with
  | Hp : 0 <= ?X |- 0 <= ?Y => replace Y with X by ring
  end.
  exact Hpos.
Qed.

(** On a track whose [P] is a covariance the correction returns, and it
    leaves a covariance: with [w = S^-1 H P v], the quadratic form of
    [(I - K H) P] at [v] is that of [P] at [v - H^T w], plus [10 |w|^2]. *)
Lemma correct_track_covariance (tr : Track) (d0 d1 : R) (rest : vec) :
  track_shape tr -> covariance (P tr) ->
  exists tr', correct_track tr (d0 :: d1 :: rest) = Returned tr' /\
              covariance (P tr').
Proof.
  intros Hsh Hcov. shape_cases Hsh.
  destruct tr as [k st Pm]. cbn [state P] in *. subst st Pm.
  destruct (symmetric_inv _ _ _ _ _ _ _ _ _ _ _ _ _ _ _ _ (proj1 Hcov))
    as (-> & -> & -> & -> & -> & ->).
  pose proof (covariance_gain_det _ _ _ _ _ _ _ _ _ _ Hcov) as Hdet.
  destruct Hcov as [_ Hpos].
  unfold correct_track, bind, getitem. cbn [nth_error state P].
  match goal with
  | |- context [np_inv2 ?S] => destruct (np_inv2 S) as [Sinv|e] eqn:Hinv
  end.
  2:{ exfalso. revert Hinv. mat_compute.
      destruct (Req_dec_T _ 0) as [E | _]; [|discriminate].
      exfalso. apply Hdet. rewrite <- E. ring. }
  eexists. split; [reflexivity|]. cbn [P].
  revert Hinv. mat_compute. tidy.
  destruct (Req_dec_T _ 0) as [E | Hd]; [discriminate|].
  intros [= <-]. split.
  - mat_compute. tidy.
    list_eq; try reflexivity; field; intro E; apply Hdet; rewrite <- E; ring.
  - intros v0 v1 v2 v3.
    set (det := (p00 + 10) * (p11 + 10) - p01 * p01) in *.
    set (u0 := p00 * v0 + p01 * v1 + p02 * v2 + p03 * v3).
    set (u1 := p01 * v0 + p11 * v1 + p12 * v2 + p13 * v3).
    set (w0 := ((p11 + 10) * u0 - p01 * u1) / det).
    set (w1 := (- p01 * u0 + (p00 + 10) * u1) / det).
    specialize (Hpos (v0 - w0) (v1 - w1) v2 v3). mat_compute. tidy.
    match goal with
    | Hp : 0 <= ?X |- 0 <= ?Y =>
        replace Y with (X + 10 * (w0 * w0 + w1 * w1))
    end.
    + nra.
    + unfold w0, w1, u0, u1, det. field. exact Hdet.
Qed.

Lemma new_track_ok (k : Z) (x y : R) : track_ok (mkTrack k [x; y; 0; 0] (eye 4)).
Proof. split; [apply new_track_shape | apply covariance_eye]. Qed.

Lemma predict_track_ok (dt : R) (tr : Track) :
  track_ok tr -> track_ok (predict_track dt tr).
Proof.
  intros [Hsh Hcov]. split.
  - now apply predict_track_shape.
  - now apply covariance_predict.
Qed.

Lemma correct_track_ok (tr tr' : Track) (d : vec) :
  track_ok tr -> correct_track tr d = Returned tr' -> track_ok tr'.
Proof.
  intros [Hsh Hcov] H. split.
  - now apply (proj2 (correct_track_keeps tr tr' d H)).
  - destruct d as [|d0 [|d1 rest]]; try discriminate.
    destruct (correct_track_covariance tr d0 d1 rest Hsh Hcov) as (tr'' & H' & Hc).
    congruence.
Qed.

(** *** One detection *)

Lemma create_track_cases (t t' : TargetTracker) (d : vec) :
  create_track t d = Returned t' ->
  exists d0 d1 rest,
    d = d0 :: d1 :: rest /\
    t' = mkTracker (dict_set (tracks t) (next_id t)
                             (mkTrack (next_id t) [d0; d1; 0; 0] (eye 4)))
                   (next_id t + 1)%Z.
Proof.
  unfold create_track, getitem, bind.
  destruct d as [|d0 [|d1 rest]]; simpl; try discriminate.
  intros [= <-]. now exists d0, d1, rest.
Qed.

Lemma update_one_cases (t t' : TargetTracker) (d : vec) :
  update_one t d = Returned t' ->
  (exists k tr tr',
      dict_get (tracks t) k = Some tr /\
      correct_track tr d = Returned tr' /\
      t' = mkTracker (dict_set (tracks t) k tr') (next_id t)) \/
  create_track t d = Returned t'.
Proof.
  unfold update_one. destruct (tracks t) as [|kv m] eqn:Hm; [now right|].
  rewrite <- Hm. unfold bind.
  destruct (nearest (tracks t) d) as [[best_id best_dist]|]; [|discriminate].
  cbn [fst snd]. destruct (within_gate best_dist); [|now right].
  destruct best_id as [k|]; [|discriminate].
  destruct (dict_get (tracks t) k) as [tr|] eqn:Hget; [|discriminate].
  destruct (correct_track tr d) as [tr'|] eqn:Hc; [|discriminate].
  intros [= <-]. left. now exists k, tr, tr'.
Qed.

(** *** Calls extend the tracker *)

Lemma extends_refl (t : TargetTracker) : extends t t.
Proof.
  split; [lia|]. split.
  - exists []. split; [now rewrite app_nil_r | constructor].
  - intros k tr H _. now exists tr.
Qed.

Lemma extends_trans (t1 t2 t3 : TargetTracker) :
  extends t1 t2 -> extends t2 t3 -> extends t1 t3.
Proof.
  intros (Hn1 & (new1 & Hk1 & Hf1) & Hid1) (Hn2 & (new2 & Hk2 & Hf2) & Hid2).
  split; [lia|]. split.
  - exists (new1 ++ new2). split; [now rewrite Hk2, Hk1, app_assoc|].
    apply Forall_app. split.
    + eapply Forall_impl; [|exact Hf1]. simpl. intros; lia.
    + eapply Forall_impl; [|exact Hf2]. simpl. intros; lia.
  - intros k tr Hget Hlt.
    destruct (Hid1 k tr Hget Hlt) as (tr2 & Hget2 & Hi2).
    destruct (Hid2 k tr2 Hget2 ltac:(lia)) as (tr3 & Hget3 & Hi3).
    exists tr3. split; [exact Hget3 | congruence].
Qed.

Lemma extends_create (t t' : TargetTracker) (d : vec) :
  create_track t d = Returned t' -> extends t t'.
Proof.
  intros H. destruct (create_track_cases _ _ _ H) as (d0 & d1 & rest & _ & ->).
  split; [simpl; lia|]. split.
  - eexists. split; [apply keys_dict_set|]. simpl.
    destruct (in_dec Z.eq_dec _ _); repeat constructor; lia.
  - intros k tr Hget Hlt. exists tr. split; [|reflexivity]. simpl.
    rewrite dict_get_set_other by lia. exact Hget.
Qed.

Lemma extends_correct (t : TargetTracker) (k : Z) (tr tr' : Track) :
  dict_get (tracks t) k = Some tr -> id tr' = id tr ->
  extends t (mkTracker (dict_set (tracks t) k tr') (next_id t)).
Proof.
  intros Hget Hid. split; [simpl; lia|]. split.
  - exists []. split; [|constructor]. simpl. rewrite keys_dict_set.
    destruct (in_dec Z.eq_dec k (keys (tracks t))) as [_ | Hn]; [reflexivity|].
    exfalso. apply Hn. eapply dict_get_keys; eauto.
  - intros k0 tr0 Hget0 _. simpl.
    destruct (Z.eq_dec k0 k) as [-> | Hne].
    + exists tr'. rewrite dict_get_set_same. split; [reflexivity | congruence].
    + exists tr0. rewrite dict_get_set_other by exact Hne. now split.
Qed.

Lemma extends_update_one (t t' : TargetTracker) (d : vec) :
  update_one t d = Returned t' -> extends t t'.
Proof.
  intros H. destruct (update_one_cases _ _ _ H) as [(k & tr & tr' & Hget & Hc & ->) | Hc].
  - apply (extends_correct t k tr tr' Hget).
    now apply (correct_track_keeps tr tr' d).
  - now apply (extends_create t t' d).
Qed.

Lemma extends_update (detections : list vec) (t : TargetTracker) :
  extends t (fst (update t detections)).
Proof.
  revert t. induction detections as [|d rest IH]; intros t; simpl.
  - apply extends_refl.
  - destruct (update_one t d) as [t'|e] eqn:H; simpl.
    + eapply extends_trans; [now apply (extends_update_one t t' d) | apply IH].
    + apply extends_refl.
Qed.

Lemma dict_get_predict (dt : R) (m : dict) (k : Z) :
  dict_get (map (fun kv => (fst kv, predict_track dt (snd kv))) m) k
  = option_map (predict_track dt) (dict_get m k).
Proof.
  induction m as [|[k' v'] m IH]; simpl; [reflexivity|].
  destruct (Z.eqb_spec k' k); [reflexivity | exact IH].
Qed.

Lemma keys_predict (dt : R) (m : dict) :
  keys (map (fun kv => (fst kv, predict_track dt (snd kv))) m) = keys m.
Proof.
  unfold keys. rewrite map_map. reflexivity.
Qed.

Lemma extends_predict (t : TargetTracker) (dt : R) : extends t (predict t dt).
Proof.
  split; [simpl; lia|]. split.
  - exists []. split; [|constructor]. simpl. now rewrite keys_predict, app_nil_r.
  - intros k tr Hget _. exists (predict_track dt tr). simpl.
    rewrite dict_get_predict, Hget. now split.
Qed.

Lemma extends_step (t : TargetTracker) (c : call) : extends t (step t c).
Proof.
  destruct c as [dt | detections]; simpl.
  - apply extends_predict.
  - apply extends_update.
Qed.

(** *** The invariant of the tracker *)

Lemma StronglySorted_snoc (l : list Z) (x : Z) :
  StronglySorted Z.lt l -> Forall (fun k => (k < x)%Z) l ->
  StronglySorted Z.lt (l ++ [x]).
Proof.
  induction l as [|a l IH]; simpl; intros Hs Hf.
  - repeat constructor.
  - inversion Hs as [|? ? Hs' Ha]; subst. inversion Hf as [|? ? Hax Hf']; subst.
    constructor; [now apply IH|].
    apply Forall_app. split; [exact Ha | now repeat constructor].
Qed.

Lemma Forall_dict_set (Q : Z * Track -> Prop) (m : dict) (k : Z) (v : Track) :
  Forall Q m -> Q (k, v) -> Forall Q (dict_set m k v).
Proof.
  intros Hm Hv. induction m as [|[k' v'] m IH]; simpl.
  - now repeat constructor.
  - inversion Hm as [|? ? Hh Ht]; subst.
    destruct (Z.eqb_spec k' k) as [-> | Hne]; constructor; auto.
Qed.

Lemma ok_create (t t' : TargetTracker) (d : vec) :
  tracker_ok t -> create_track t d = Returned t' -> tracker_ok t'.
Proof.
  intros (Hs & Hb & Ht) H.
  destruct (create_track_cases _ _ _ H) as (d0 & d1 & rest & _ & ->).
  unfold tracker_ok. simpl. rewrite keys_dict_set.
  destruct (in_dec Z.eq_dec (next_id t) (keys (tracks t))) as [Hin | _].
  { exfalso. rewrite Forall_forall in Hb. specialize (Hb _ Hin). lia. }
  split; [now apply StronglySorted_snoc|]. split.
  - apply Forall_app. split.
    + eapply Forall_impl; [|exact Hb]. simpl. intros; lia.
    + repeat constructor. lia.
  - apply Forall_dict_set; [exact Ht|]. simpl.
    split; [reflexivity | apply new_track_ok].
Qed.

Lemma ok_correct (t : TargetTracker) (k : Z) (tr tr' : Track) (d : vec) :
  tracker_ok t -> dict_get (tracks t) k = Some tr ->
  correct_track tr d = Returned tr' ->
  tracker_ok (mkTracker (dict_set (tracks t) k tr') (next_id t)).
Proof.
  intros (Hs & Hb & Ht) Hget Hc.
  destruct (correct_track_keeps _ _ _ Hc) as [Hid _].
  unfold tracker_ok. simpl. rewrite keys_dict_set.
  destruct (in_dec Z.eq_dec k (keys (tracks t))) as [_ | Hn].
  2:{ exfalso. apply Hn. eapply dict_get_keys; eauto. }
  rewrite app_nil_r. split; [exact Hs|]. split; [exact Hb|].
  apply Forall_dict_set; [exact Ht|].
  rewrite Forall_forall in Ht.
  destruct (Ht _ (dict_get_In _ _ _ Hget)) as [Hk Hok]. simpl in *.
  split; [congruence | now apply (correct_track_ok tr tr' d)].
Qed.

Lemma ok_update_one (t t' : TargetTracker) (d : vec) :
  tracker_ok t -> update_one t d = Returned t' -> tracker_ok t'.
Proof.
  intros Hok H.
  destruct (update_one_cases _ _ _ H) as [(k & tr & tr' & Hget & Hc & ->) | Hc].
  - now apply (ok_correct t k tr tr' d).
  - now apply (ok_create t t' d).
Qed.

Lemma ok_update (detections : list vec) (t : TargetTracker) :
  tracker_ok t -> tracker_ok (fst (update t detections)).
Proof.
  revert t. induction detections as [|d rest IH]; intros t Hok; simpl; [exact Hok|].
  destruct (update_one t d) as [t'|e] eqn:H; simpl; [|exact Hok].
  apply IH. now apply (ok_update_one t t' d).
Qed.

Lemma ok_predict (t : TargetTracker) (dt : R) :
  tracker_ok t -> tracker_ok (predict t dt).
Proof.
  intros (Hs & Hb & Ht). unfold tracker_ok. simpl. rewrite keys_predict.
  split; [exact Hs|]. split; [exact Hb|].
  apply Forall_map. eapply Forall_impl; [|exact Ht].
  intros [k tr] [Hid Hok]. simpl in *. split; [exact Hid|].
  now apply predict_track_ok.
Qed.

Lemma ok_step (t : TargetTracker) (c : call) :
  tracker_ok t -> tracker_ok (step t c).
Proof.
  destruct c as [dt | detections]; simpl; [apply ok_predict | apply ok_update].
Qed.

Lemma ok_init : tracker_ok init.
Proof. unfold tracker_ok, init. simpl. repeat constructor. Qed.

Lemma ok_run (calls : list call) : tracker_ok (run calls).
Proof.
  unfold run. generalize ok_init. generalize init.
  induction calls as [|c calls IH]; intros t Hok; simpl; [exact Hok|].
  apply IH. now apply ok_step.
Qed.


(** *** The nearest track and the gate *)

Lemma dist_to_track (tr : Track) (x y : R) :
  track_shape tr ->
  (diff <- np_sub1 (py_slice (state tr) 0 2) (py_slice [x; y] 0 2) ;;
   Returned (norm diff)) = Returned (distance tr x y).
Proof.
  intros H. shape_cases H. unfold distance. rewrite Hstate.
  unfold np_sub1, norm. simpl. do 2 f_equal. ring.
Qed.

Lemma nearest_step_shape (x y : R) (b : option Z * option R) (k : Z) (tr : Track) :
  track_shape tr ->
  nearest_step [x; y] (Returned b) (k, tr)
  = if lt_best (distance tr x y) (snd b)
    then Returned (Some k, Some (distance tr x y)) else Returned b.
Proof.
  intros H. pose proof (dist_to_track tr x y H) as Hd.
  unfold nearest_step, bind in *. cbn [fst snd] in *.
  destruct (np_sub1 _ _) as [diff|]; [|discriminate].
  injection Hd as ->. reflexivity.
Qed.

Lemma nearest_fold (x y : R) (m seen : dict) (b : option Z * option R) :
  Forall (fun kv => track_shape (snd kv)) m ->
  best_among x y seen b ->
  exists b', fold_left (nearest_step [x; y]) m (Returned b) = Returned b' /\
             best_among x y (seen ++ m) b'.
Proof.
  revert seen b. induction m as [|[k tr] m IH]; intros seen b Hsh Hb.
  - exists b. rewrite app_nil_r. now split.
  - inversion Hsh as [|? ? Htr Hsh']; subst. simpl in Htr.
    cbn [fold_left]. rewrite nearest_step_shape by exact Htr.
    replace (seen ++ (k, tr) :: m) with ((seen ++ [(k, tr)]) ++ m)
      by (now rewrite <- app_assoc).
    destruct Hb as [[-> ->] | (k0 & tr0 & Hin & -> & Hmin)]; cbn [snd lt_best].
    + apply IH; [exact Hsh'|]. right. exists k, tr. simpl.
      split; [now left|]. split; [reflexivity|].
      intros k' tr' [[= <- <-] | []]. lra.
    + destruct (Rlt_dec (distance tr x y) (distance tr0 x y)) as [Hlt | Hge].
      * apply IH; [exact Hsh'|]. right. exists k, tr.
        split; [apply in_or_app; right; now left|]. split; [reflexivity|].
        intros k' tr' Hin'. apply in_app_or in Hin'.
        destruct Hin' as [Hin' | [[= <- <-] | []]]; [|lra].
        specialize (Hmin _ _ Hin'). lra.
      * apply IH; [exact Hsh'|]. right. exists k0, tr0.
        split; [apply in_or_app; now left|]. split; [reflexivity|].
        intros k' tr' Hin'. apply in_app_or in Hin'.
        destruct Hin' as [Hin' | [[= <- <-] | []]]; [exact (Hmin _ _ Hin') | lra].
Qed.

Lemma StronglySorted_NoDup (l : list Z) : StronglySorted Z.lt l -> NoDup l.
Proof.
  induction 1 as [|a l Hs IH Ha]; constructor; [|exact IH].
  intros Hin. rewrite Forall_forall in Ha. specialize (Ha _ Hin). lia.
Qed.

Lemma dict_set_fresh (m : dict) (k : Z) (v : Track) :
  ~ In k (keys m) -> dict_set m k v = m ++ [(k, v)].
Proof.
  induction m as [|[k' v'] m IH]; simpl; intros Hn; [reflexivity|].
  destruct (Z.eqb_spec k' k) as [-> | Hne]; [exfalso; apply Hn; now left|].
  f_equal. apply IH. intros H. apply Hn. now right.
Qed.


Lemma update_one_nonempty (t : TargetTracker) (d : vec) :
  tracks t <> [] ->
  update_one t d
  = (best <- nearest (tracks t) d ;;
     if within_gate (snd best) then
       match fst best with
       | None => Raised KeyError
       | Some best_id =>
           match dict_get (tracks t) best_id with
           | None => Raised KeyError
           | Some tr =>
               tr' <- correct_track tr d ;;
               Returned (mkTracker (dict_set (tracks t) best_id tr') (next_id t))
           end
       end
     else create_track t d).
Proof.
  intros Hne. unfold update_one.
  destruct (tracks t); [contradiction | reflexivity].
Qed.

(** The body of the loop of [update] on a tracker that satisfies the
    invariant and holds a track. *)
Lemma update_one_gate (t : TargetTracker) (x y : R) :
  tracker_ok t -> tracks t <> [] ->
  exists k tr,
    dict_get (tracks t) k = Some tr /\
    (forall k' tr', dict_get (tracks t) k' = Some tr' ->
                    distance tr x y <= distance tr' x y) /\
    (1000 <= distance tr x y ->
     update_one t [x; y]
     = Returned (mkTracker
                   (tracks t ++ [(next_id t, mkTrack (next_id t) [x; y; 0; 0] (eye 4))])
                   (next_id t + 1)%Z)) /\
    (distance tr x y < 1000 ->
     exists tr',
       correct_track tr [x; y] = Returned tr' /\
       update_one t [x; y]
       = Returned (mkTracker (dict_set (tracks t) k tr') (next_id t))).
Proof.
  intros (Hs & Hb & Ht) Hne.
  assert (Hsh : Forall (fun kv => track_shape (snd kv)) (tracks t)).
  { eapply Forall_impl; [|exact Ht]. now intros kv [_ [H _]]. }
  destruct (nearest_fold x y (tracks t) [] (None, None) Hsh) as (b & Hfold & Hbest).
  { left. now split. }
  simpl in Hbest.
  destruct Hbest as [[Hnil _] | (k & tr & Hin & -> & Hmin)]; [contradiction|].
  pose proof (In_dict_get _ _ _ (StronglySorted_NoDup _ Hs) Hin) as Hget.
  exists k, tr. split; [exact Hget|]. split.
  { intros k' tr' Hget'. apply (Hmin k' tr'). now apply dict_get_In. }
  rewrite (update_one_nonempty t [x; y] Hne). unfold nearest. rewrite Hfold.
  split; intros Hd; unfold bind at 1; cbn [fst snd within_gate].
  - destruct (Rlt_dec (distance tr x y) 1000) as [H | _]; [lra|].
    unfold create_track. simpl. rewrite dict_set_fresh; [reflexivity|].
    intros Hin'. rewrite Forall_forall in Hb. specialize (Hb _ Hin'). lia.
  - destruct (Rlt_dec (distance tr x y) 1000) as [_ | H]; [|lra].
    rewrite Hget.
    rewrite Forall_forall in Ht. destruct (Ht _ Hin) as [_ [Htsh Hcov]].
    destruct (correct_track_covariance tr x y [] Htsh Hcov) as (tr' & Hc & _).
    exists tr'. split; [exact Hc|]. now rewrite Hc.
Qed.

(** C6. A single detection [x, y] given to [update] on a tracker that holds
    no track leaves exactly one track, the new one, of state [x, y, 0, 0]. *)
Theorem update_first_detection (t : TargetTracker) (x y : R)
    (Hempty : tracks t = []) :
  update t [[x; y]]
  = (mkTracker [(next_id t, mkTrack (next_id t) [x; y; 0; 0] (eye 4))]
               (next_id t + 1)%Z,
     Returned tt).
Proof.
  unfold update, update_one. rewrite Hempty.
  unfold create_track. simpl. rewrite Hempty. reflexivity.
Qed.

Lemma update_first_detection_witness :
  tracks init = [] /\
  update init [[3; 4]]
  = (mkTracker [(1%Z, mkTrack 1 [3; 4; 0; 0] (eye 4))] 2%Z, Returned tt).
Proof.
  split; [reflexivity|].
  exact (update_first_detection init 3 4 eq_refl).
Defined.


(** *** The gate on the norm as computed *)

Section Computed.

Variable F : float64.










End Computed.

(** Without rounding the loop body on the computed norm is the loop body
    over the real numbers, and the computed distance the Euclidean one. *)
Lemma update_one_fl_exact (t : TargetTracker) (d : vec) :
  update_one_fl exact64 t d = update_one t d.
Proof. reflexivity. Qed.



(** C8. After any sequence of calls the ids of the tracks, in the order in
    which they were issued, increase strictly, every track is stored under
    its own id and every id is below [next_id]; a further call issues ids
    from [next_id] on only, after the ones there, and every id issued before
    still names a track of that id. *)
Theorem track_ids_increasing_never_reused (calls : list call) (c : call) :
  let t := run calls in
  let t' := step t c in
  StronglySorted Z.lt (keys (tracks t)) /\
  Forall (fun kv => id (snd kv) = fst kv) (tracks t) /\
  Forall (fun k => (k < next_id t)%Z) (keys (tracks t)) /\
  (next_id t <= next_id t')%Z /\
  (exists new : list Z,
      keys (tracks t') = keys (tracks t) ++ new /\
      Forall (fun k => (next_id t <= k < next_id t')%Z) new) /\
  (forall k tr, dict_get (tracks t) k = Some tr ->
     exists tr', dict_get (tracks t') k = Some tr' /\ id tr' = id tr).
Proof.
  intros t t'.
  destruct (ok_run calls) as (Hs & Hb & Ht). fold t in Hs, Hb, Ht.
  destruct (extends_step t c) as (Hn & Hnew & Hid). fold t' in Hn, Hnew, Hid.
  split; [exact Hs|]. split.
  { eapply Forall_impl; [|exact Ht]. now intros kv [H _]. }
  split; [exact Hb|]. split; [exact Hn|]. split; [exact Hnew|].
  intros k tr Hget. apply (Hid k tr Hget).
  rewrite Forall_forall in Hb. apply Hb. eapply dict_get_keys; eauto.
Qed.

(** C10. Neither [predict] nor [update] removes a track or changes the id of
    one: after a call on any tracker the keys include the keys before and
    the tracks are not fewer; and on a tracker reached by calls, every id
    still names a track of that id. *)
Theorem calls_never_remove_tracks :
  (forall (t : TargetTracker) (c : call),
      incl (keys (tracks t)) (keys (tracks (step t c))) /\
      (length (tracks t) <= length (tracks (step t c)))%nat) /\
  (forall (calls : list call) (c : call) (k : Z) (tr : Track),
      dict_get (tracks (run calls)) k = Some tr ->
      exists tr', dict_get (tracks (step (run calls) c)) k = Some tr' /\
                  id tr' = id tr).
Proof.
  split.
  - intros t c. destruct (extends_step t c) as (_ & (new & Hk & _) & _).
    split.
    + rewrite Hk. apply incl_appl, incl_refl.
    + rewrite <- (length_map fst (tracks t)), <- (length_map fst (tracks (step t c))).
      fold (keys (tracks t)). fold (keys (tracks (step t c))).
      rewrite Hk, length_app. lia.
  - intros calls c k tr Hget.
    destruct (extends_step (run calls) c) as (_ & _ & Hid).
    apply (Hid k tr Hget).
    destruct (ok_run calls) as (_ & Hb & _).
    rewrite Forall_forall in Hb. apply Hb. eapply dict_get_keys; eauto.
Qed.

End TrackerFacts.

Module ClassifierFacts.
Import Classifier ClassifierSpec.
Import String.StringSyntax.

(** *** The bands of [np.array_split] *)

Lemma nth_sizes (q r k i : nat) :
  (r <= k)%nat -> (i < k)%nat ->
  nth i (repeat (S q) r ++ repeat q (k - r)) 0%nat = if (i <? r)%nat then S q else q.
Proof.
  intros Hr Hi. destruct (Nat.ltb_spec i r) as [H | H].
  - rewrite app_nth1 by (rewrite repeat_length; lia). apply nth_repeat_lt. lia.
  - rewrite app_nth2 by (rewrite repeat_length; lia). rewrite repeat_length.
    apply nth_repeat_lt. lia.
Qed.

Lemma firstn_repeat_min {A : Type} (a : A) (i n : nat) :
  firstn i (repeat a n) = repeat a (Nat.min i n).
Proof.
  revert i. induction n as [|n IH]; intros [|i]; simpl; try reflexivity.
  now rewrite IH.
Qed.

Lemma list_sum_repeat_mul (n k : nat) : list_sum (repeat n k) = (k * n)%nat.
Proof. induction k as [|k IH]; simpl; [reflexivity | rewrite IH; lia]. Qed.

(** Where section [i] of [np.array_split] starts. *)
Lemma sum_sizes (q r k i : nat) :
  (r <= k)%nat -> (i <= k)%nat ->
  list_sum (firstn i (repeat (S q) r ++ repeat q (k - r))) = (i * q + Nat.min i r)%nat.
Proof.
  intros Hr Hi.
  rewrite firstn_app, repeat_length, !firstn_repeat_min, list_sum_app,
    !list_sum_repeat_mul.
  destruct (Nat.le_ge_cases i r) as [H | H].
  - rewrite (Nat.min_l i r) by exact H.
    replace (i - r)%nat with 0%nat by lia. simpl. lia.
  - rewrite (Nat.min_r i r) by exact H.
    rewrite (Nat.min_l (i - r) (k - r)) by lia. nia.
Qed.

(** Every section of [split_sizes] is a slice of the list. *)
Lemma split_sizes_slices {A : Type} (sizes : list nat) (l : list A) :
  split_sizes l sizes
  = map (fun i => firstn (nth i sizes 0%nat) (skipn (list_sum (firstn i sizes)) l))
        (seq 0 (length sizes)).
Proof.
  revert l. induction sizes as [|n rest IH]; intros l; [reflexivity|].
  cbn [split_sizes length]. rewrite <- cons_seq, <- seq_shift.
  cbn [map nth firstn list_sum fold_right skipn]. f_equal.
  rewrite map_map, IH. apply map_ext. intros i.
  cbn [nth firstn]. rewrite skipn_skipn. f_equal. f_equal.
  change (list_sum (n :: firstn i rest)) with (n + list_sum (firstn i rest))%nat.
  lia.
Qed.

(** The bands of [featurize] are the bands of the spec. *)
Lemma array_split_bands (spectrum : list R) :
  array_split (map Rabs spectrum) 8 = map (band spectrum) (seq 0 8).
Proof.
  unfold array_split. cbv zeta. rewrite length_map.
  set (len := length spectrum).
  assert (Hr : (len mod 8 < 8)%nat) by (apply Nat.mod_upper_bound; lia).
  rewrite split_sizes_slices.
  rewrite length_app, !repeat_length.
  replace (len mod 8 + (8 - len mod 8))%nat with 8%nat by lia.
  apply map_ext_in. intros i Hi. apply in_seq in Hi.
  unfold band, band_size, band_start. fold len.
  rewrite nth_sizes by lia. rewrite sum_sizes by lia.
  destruct (i <? len mod 8)%nat; f_equal; lia.
Qed.

(** The features of [featurize] are the mean magnitudes of these bands. *)
Lemma featurize_band_features (spectrum : list R) :
  featurize spectrum = band_features spectrum.
Proof.
  unfold featurize, band_features. rewrite array_split_bands, map_map.
  apply map_ext. intros i. destruct (band spectrum i); reflexivity.
Qed.

Section WithSVC.

Variable label : Type.
Variable svc : Type.
Variable svc_new : svc.
Variable svc_fit : svc -> list (list R) -> list label -> svc * outcome unit.
Variable svc_predict : svc -> list (list npfloat) -> outcome (list label).

Lemma run_without_train (calls : list (request label)) (c : SimpleClassifier svc) :
  existsb is_train calls = false ->
  fold_left (serve label svc svc_fit) calls c = c.
Proof.
  revert c. induction calls as [|k calls IH]; intros c H; simpl in *; [reflexivity|].
  apply orb_false_iff in H. destruct H as [Hk Hrest].
  destruct k as [X y | spectrum]; [discriminate|]. simpl. now apply IH.
Qed.

Lemma serve_keeps_trained (c : SimpleClassifier svc) (k : request label) :
  trained c = true -> trained (serve label svc svc_fit c k) = true.
Proof.
  intros H. destruct k as [X y | spectrum]; simpl; [|exact H].
  unfold train. destruct (svc_fit (model c) X y) as [m [u | e]]; simpl;
    [reflexivity | exact H].
Qed.

(** [trained] after calls on any classifier: it was set before, or one of
    the [train] calls returned. *)
Lemma trained_after (calls : list (request label)) (c : SimpleClassifier svc) :
  trained (fold_left (serve label svc svc_fit) calls c) = true <->
  trained c = true \/
  exists before X y after,
    calls = before ++ Train X y :: after /\
    snd (svc_fit (model (fold_left (serve label svc svc_fit) before c)) X y)
    = Returned tt.
Proof.
  revert c. induction calls as [|k calls IH]; intros c.
  - simpl. split; [now left|].
    intros [H | (before & X & y & after & H & _)]; [exact H|].
    destruct before; discriminate.
  - cbn [fold_left]. rewrite IH. split.
    + intros [H | (before & X & y & after & -> & Hfit)].
      * destruct k as [X y | spectrum]; [|now left].
        simpl in H. unfold train in H.
        destruct (svc_fit (model c) X y) as [m [[] | e]] eqn:Hf; simpl in H.
        -- right. exists [], X, y, calls. split; [reflexivity|].
           simpl. now rewrite Hf.
        -- now left.
      * right. exists (k :: before), X, y, after. split; [reflexivity | exact Hfit].
    + intros [H | (before & X & y & after & Heq & Hfit)].
      * left. now apply serve_keeps_trained.
      * destruct before as [|k' before]; simpl in Heq; injection Heq as -> ->.
        -- left. simpl in *. unfold train.
           destruct (svc_fit (model c) X y) as [m [[] | e]]; simpl in *;
             [reflexivity | discriminate].
        -- right. now exists before, X, y, after.
Qed.

(** The estimator of the classifier is the one the [fit] calls have left. *)
Lemma model_after (calls : list (request label)) (c : SimpleClassifier svc) :
  model (fold_left (serve label svc svc_fit) calls c)
  = fold_left (fit_step label svc svc_fit) calls (model c).
Proof.
  revert c. induction calls as [|k calls IH]; intros c; [reflexivity|].
  cbn [fold_left]. rewrite IH. f_equal.
  destruct k as [X y | spectrum]; [|reflexivity].
  simpl. unfold train. destruct (svc_fit (model c) X y) as [m [u | e]]; reflexivity.
Qed.

Local Open Scope string_scope.

(** C9. After any sequence of calls on a new classifier: [predict] returns
    the literal ['unknown'] when no [train] call has occurred; [trained] is
    set exactly when a [train] call has returned; while none has, [predict]
    returns ['unknown']; and once one has, [predict] returns the first entry
    of what the estimator that the [fit] calls have left predicts on the
    one-row matrix of the 8 features of the spectrum, feature [i] being the
    mean magnitude of band [i]. *)
Theorem predict_unknown_until_trained
    (calls : list (request label)) (spectrum : list R) :
  let c := serve_all label svc svc_new svc_fit calls in
  (existsb is_train calls = false ->
   predict label svc svc_predict c spectrum = Returned (PyStr "unknown")) /\
  (trained c = true <-> train_returned label svc svc_new svc_fit calls) /\
  (~ train_returned label svc svc_new svc_fit calls ->
   predict label svc svc_predict c spectrum = Returned (PyStr "unknown")) /\
  (train_returned label svc svc_new svc_fit calls ->
   predict label svc svc_predict c spectrum
   = (res <- svc_predict (fitted_model label svc svc_new svc_fit calls)
                         [band_features spectrum] ;;
      match res with
      | [] => Raised IndexError
      | l :: _ => Returned (PyLabel l)
      end)).
Proof.
  intros c.
  assert (Htr : trained c = true <-> train_returned label svc svc_new svc_fit calls).
  { unfold c, serve_all, train_returned. rewrite trained_after. simpl.
    split; [intros [H | H]; [discriminate | exact H] | intros H; now right]. }
  split; [|split; [exact Htr|split]].
  - intros H. unfold c, serve_all. now rewrite run_without_train.
  - intros H. unfold predict.
    destruct (trained c); [exfalso; apply H; now apply Htr | reflexivity].
  - intros H. apply Htr in H. unfold predict. rewrite H. cbn [negb].
    rewrite featurize_band_features.
    unfold c, serve_all at 1. rewrite model_after. reflexivity.
Qed.

Local Close Scope string_scope.

End WithSVC.

Lemma predict_unknown_until_trained_witness :
  predict nat (list nat) toy_predict
          (serve_all nat (list nat) [] toy_fit [Classify [1; 2; 3]]) [4; 5]
  = Returned (PyStr unknown) /\
  predict nat (list nat) toy_predict
          (serve_all nat (list nat) [] toy_fit [Classify [1; 2; 3]; Train [[1]] [7%nat]])
          [4; 5]
  = Returned (PyLabel 7%nat).
Proof.
  split.
  - exact (proj1 (predict_unknown_until_trained nat (list nat) [] toy_fit toy_predict
                    [Classify [1; 2; 3]] [4; 5]) eq_refl).
  - destruct (predict_unknown_until_trained nat (list nat) [] toy_fit toy_predict
                [Classify [1; 2; 3]; Train [[1]] [7%nat]] [4; 5]) as (_ & _ & _ & H).
    rewrite H; [reflexivity|].
    exists [Classify [1; 2; 3]], [[1]], [7%nat], []. split; reflexivity.
Defined.

End ClassifierFacts.

Module TrackerMoreFacts.
Import Tracker TrackerFacts TrackerSpec.


Lemma py_slice_head2 (d0 d1 : R) (rest : vec) :
  py_slice (d0 :: d1 :: rest) 0 2 = [d0; d1].
Proof.
  unfold py_slice, slice_bound. cbn [length].
  destruct (Z.ltb_spec 0 0) as [H | _]; [lia|].
  destruct (Z.ltb_spec 2 0) as [H | _]; [lia|].
  replace (Z.min 0 (Z.of_nat (S (S (length rest))))) with 0%Z by lia.
  replace (Z.min 2 (Z.of_nat (S (S (length rest))))) with 2%Z by lia.
  reflexivity.
Qed.

Lemma nearest_prefix (m : dict) (d0 d1 : R) (rest : vec) :
  nearest m (d0 :: d1 :: rest) = nearest m [d0; d1].
Proof.
  unfold nearest. generalize (Returned (None, None) : outcome (option Z * option R)).
  induction m as [|kv m IH]; intros acc; simpl; [reflexivity|].
  rewrite IH. f_equal. unfold nearest_step.
  now rewrite (py_slice_head2 d0 d1 rest), (py_slice_head2 d0 d1 []).
Qed.

Lemma update_one_prefix (t : TargetTracker) (d0 d1 : R) (rest : vec) :
  update_one t (d0 :: d1 :: rest) = update_one t [d0; d1].
Proof.
  unfold update_one. rewrite nearest_prefix. reflexivity.
Qed.

Lemma update_one_returns (t : TargetTracker) (d : vec) :
  tracker_ok t -> well_formed d -> exists t', update_one t d = Returned t'.
Proof.
  intros Hok Hd. destruct d as [|d0 [|d1 rest]]; unfold well_formed in Hd;
    simpl in Hd; try lia.
  rewrite update_one_prefix.
  destruct (tracks t) as [|kv m] eqn:Hm.
  - unfold update_one. rewrite Hm. unfold create_track. simpl. eauto.
  - assert (Hne : tracks t <> []) by (rewrite Hm; discriminate).
    destruct (update_one_gate t d0 d1 Hok Hne) as (k & tr & _ & _ & Hfar & Hnear).
    destruct (Rlt_le_dec (distance tr d0 d1) 1000) as [Hlt | Hge].
    + destruct (Hnear Hlt) as (tr' & _ & H). eauto.
    + rewrite (Hfar Hge). eauto.
Qed.

Lemma update_returns_ok (detections : list vec) (t : TargetTracker) :
  tracker_ok t -> Forall well_formed detections ->
  snd (update t detections) = Returned tt.
Proof.
  revert t. induction detections as [|d rest IH]; intros t Hok Hall; simpl;
    [reflexivity|].
  inversion Hall as [|? ? Hd Hrest]; subst.
  destruct (update_one_returns t d Hok Hd) as (t' & Hu). rewrite Hu.
  apply IH; [|exact Hrest]. now apply (ok_update_one t t' d).
Qed.

Lemma update_cut (detections : list vec) (t : TargetTracker) :
  Forall well_formed detections ->
  update t detections = update t (map (firstn 2) detections).
Proof.
  revert t. induction detections as [|d rest IH]; intros t Hall; [reflexivity|].
  inversion Hall as [|? ? Hd Hrest]; subst.
  destruct d as [|d0 [|d1 more]]; unfold well_formed in Hd; simpl in Hd; try lia.
  cbn [map firstn update]. rewrite (update_one_prefix t d0 d1 more).
  destruct (update_one t [d0; d1]) as [t'|e]; [|reflexivity].
  now apply IH.
Qed.

(** X1. On a tracker reached by calls, [update] returns on every list of
    detections of at least two entries each: it raises neither on a
    position nor on the inversion of [S]; and the entries of a detection
    beyond the first two are ignored: the call does what it does on the
    detections cut to their first two entries. *)
Theorem update_returns (calls : list call) (detections : list vec)
    (Hwf : Forall well_formed detections) :
  snd (update (run calls) detections) = Returned tt /\
  update (run calls) detections = update (run calls) (map (firstn 2) detections).
Proof.
  split.
  - apply update_returns_ok; [apply ok_run | exact Hwf].
  - apply update_cut. exact Hwf.
Qed.

Lemma update_returns_witness :
  Forall well_formed [[0; 0]; [3; 4; 7]; [2000; 0]] /\
  snd (update (run [Update [[1; 1]]; Predict 2]) [[0; 0]; [3; 4; 7]; [2000; 0]])
  = Returned tt /\
  update (run [Update [[1; 1]]; Predict 2]) [[0; 0]; [3; 4; 7]; [2000; 0]]
  = update (run [Update [[1; 1]]; Predict 2])
           (map (firstn 2) [[0; 0]; [3; 4; 7]; [2000; 0]]).
Proof.
  assert (H : Forall well_formed [[0; 0]; [3; 4; 7]; [2000; 0]]).
  { repeat (constructor; [unfold well_formed; simpl; lia|]). constructor. }
  split; [exact H|].
  exact (update_returns [Update [[1; 1]]; Predict 2] _ H).
Defined.

Lemma nearest_raised (d : vec) (m : dict) (e : pyerror) :
  fold_left (nearest_step d) m (Raised e) = Raised e.
Proof.
  induction m as [|kv m IH]; simpl; [reflexivity | exact IH].
Qed.

Lemma nearest_fold_some (d : vec) (m : dict) (k : Z) (r : R) (b : option Z * option R) :
  fold_left (nearest_step d) m (Returned (Some k, Some r)) = Returned b ->
  exists k' r', b = (Some k', Some r') /\ (k' = k \/ In k' (keys m)).
Proof.
  revert k r. induction m as [|[k1 tr1] m IH]; intros k r H; cbn [fold_left] in H.
  - injection H as <-. exists k, r. now split; [|left].
  - unfold nearest_step at 2 in H. unfold bind in H. cbn [fst snd] in H.
    destruct (np_sub1 _ _) as [diff|e]; [|rewrite nearest_raised in H; discriminate].
    destruct (lt_best (norm diff) (Some r)).
    + destruct (IH _ _ H) as (k' & r' & -> & Hk).
      exists k', r'. split; [reflexivity|]. right. simpl.
      destruct Hk as [-> | Hk]; auto.
    + destruct (IH _ _ H) as (k' & r' & -> & Hk).
      exists k', r'. split; [reflexivity|]. simpl.
      destruct Hk as [-> | Hk]; auto.
Qed.

Lemma nearest_some (d : vec) (m : dict) (b : option Z * option R) :
  m <> [] -> nearest m d = Returned b ->
  exists k r, b = (Some k, Some r) /\ In k (keys m).
Proof.
  destruct m as [|[k1 tr1] m]; [contradiction|]. intros _ H.
  unfold nearest in H. cbn [fold_left] in H.
  unfold nearest_step at 2 in H. unfold bind in H. cbn [fst snd lt_best] in H.
  destruct (np_sub1 _ _) as [diff|e]; [|rewrite nearest_raised in H; discriminate].
  destruct (nearest_fold_some _ _ _ _ _ H) as (k' & r' & -> & Hk).
  exists k', r'. split; [reflexivity|]. simpl.
  destruct Hk as [-> | Hk]; auto.
Qed.

Lemma nearest_fold_one (x : R) (m : dict) (b : option Z * option R) :
  Forall (fun kv => track_shape (snd kv)) m ->
  exists b', fold_left (nearest_step [x]) m (Returned b) = Returned b'.
Proof.
  revert b. induction m as [|[k tr] m IH]; intros b Hsh; cbn [fold_left]; [eauto|].
  inversion Hsh as [|? ? Htr Hsh']; subst. simpl in Htr. shape_cases Htr.
  unfold nearest_step at 2. unfold bind. cbn [fst snd]. rewrite Hstate.
  unfold np_sub1, py_slice, slice_bound. simpl.
  destruct (lt_best _ _); apply IH; exact Hsh'.
Qed.

Lemma dict_get_key (m : dict) (k : Z) :
  In k (keys m) -> exists tr, dict_get m k = Some tr.
Proof.
  induction m as [|[k' v'] m IH]; simpl; [contradiction|].
  intros [-> | H].
  - rewrite Z.eqb_refl. eauto.
  - destruct (k' =? k)%Z; [eauto | now apply IH].
Qed.

Lemma update_one_malformed (t : TargetTracker) (d : vec) :
  tracker_ok t -> (length d < 2)%nat ->
  update_one t d = Raised (malformed_error (tracks t) d).
Proof.
  intros (_ & _ & Ht) Hd.
  assert (Hsh : Forall (fun kv => track_shape (snd kv)) (tracks t)).
  { eapply Forall_impl; [|exact Ht]. now intros kv [_ [H _]]. }
  destruct (tracks t) as [|kv m] eqn:Hm.
  - unfold update_one. rewrite Hm.
    destruct d as [|x [|y rest]]; simpl in Hd; try lia; reflexivity.
  - assert (Hne : tracks t <> []) by (rewrite Hm; discriminate).
    rewrite (update_one_nonempty t d Hne). rewrite Hm in *.
    destruct d as [|x [|y rest]]; simpl in Hd; try lia.
    + (* the empty detection *)
      destruct kv as [k tr]. inversion Hsh as [|? ? Htr _]; subst. simpl in Htr.
      shape_cases Htr. unfold nearest. cbn [fold_left].
      unfold nearest_step at 2. unfold bind at 2. cbn [fst snd]. rewrite Hstate.
      unfold np_sub1, py_slice, slice_bound. simpl.
      rewrite nearest_raised. reflexivity.
    + (* one entry *)
      destruct (nearest_fold_one x (kv :: m) (None, None) Hsh) as (b & Hb).
      fold (nearest (kv :: m) [x]) in Hb. rewrite Hb. unfold bind at 1.
      destruct (nearest_some [x] (kv :: m) b ltac:(discriminate) Hb)
        as (k & r & -> & Hk).
      cbn [fst snd].
      destruct (within_gate (Some r)); [|reflexivity].
      destruct (dict_get_key _ _ Hk) as (tr & ->). reflexivity.
Qed.

Lemma update_app (l1 l2 : list vec) (t : TargetTracker) :
  snd (update t l1) = Returned tt ->
  update t (l1 ++ l2) = update (fst (update t l1)) l2.
Proof.
  revert t. induction l1 as [|d l1 IH]; intros t H; simpl in *; [reflexivity|].
  destruct (update_one t d) as [t'|e]; [now apply IH | discriminate].
Qed.

(** X2. [update] stops at the first detection of fewer than two entries: it
    raises there, the detections before it have had their effect, the ones
    after it are not looked at. *)
Theorem update_stops_at_malformed
    (calls : list call) (good : list vec) (bad : vec) (rest : list vec)
    (Hgood : Forall well_formed good) (Hbad : (length bad < 2)%nat) :
  let t := fst (update (run calls) good) in
  update (run calls) (good ++ bad :: rest)
  = (t, Raised (malformed_error (tracks t) bad)).
Proof.
  intros t.
  rewrite update_app by (apply update_returns_ok; [apply ok_run | exact Hgood]).
  fold t. simpl.
  rewrite (update_one_malformed t bad); [reflexivity | | exact Hbad].
  apply ok_update, ok_run.
Qed.

Lemma update_stops_at_malformed_witness :
  Forall well_formed [[0; 0]] /\ (length [5] < 2)%nat /\
  update (run []) ([[0; 0]] ++ [5] :: [[7; 7]])
  = (mkTracker [(1%Z, mkTrack 1 [0; 0; 0; 0] (eye 4))] 2%Z, Raised IndexError).
Proof.
  assert (Hg : Forall well_formed [[0; 0]]).
  { constructor; [unfold well_formed; simpl; lia | constructor]. }
  assert (Hb : (length [5] < 2)%nat) by (simpl; lia).
  split; [exact Hg|]. split; [exact Hb|].
  exact (update_stops_at_malformed [] [[0; 0]] [5] [[7; 7]] Hg Hb).
Defined.

(** *** Positive definite covariances *)








(** *** The correction reduces the variances *)






(** *** The correction pulls the track to the detection *)




(** *** Prediction *)




End TrackerMoreFacts.

Module ClassifierMoreFacts.
Import Classifier ClassifierFacts.


Lemma split_sizes_length {A : Type} (l : list A) (sizes : list nat) :
  length (split_sizes l sizes) = length sizes.
Proof.
  revert l. induction sizes as [|n rest IH]; intros l; simpl; [reflexivity|].
  now rewrite IH.
Qed.

Lemma split_sizes_concat {A : Type} (sizes : list nat) (l : list A) :
  list_sum sizes = length l -> concat (split_sizes l sizes) = l.
Proof.
  revert l. induction sizes as [|n rest IH]; intros l H; simpl in *.
  - destruct l; [reflexivity | discriminate].
  - rewrite IH; [apply firstn_skipn|]. rewrite length_skipn. lia.
Qed.

Lemma split_sizes_nth {A : Type} (sizes : list nat) (l : list A) (i : nat) :
  (list_sum sizes <= length l)%nat ->
  length (nth i (split_sizes l sizes) []) = nth i sizes 0%nat.
Proof.
  revert l i. induction sizes as [|n rest IH]; intros l i H; simpl in *.
  - destruct i; reflexivity.
  - destruct i as [|i].
    + rewrite length_firstn. lia.
    + apply IH. rewrite length_skipn. lia.
Qed.

Lemma list_sum_repeat (n k : nat) : list_sum (repeat n k) = (k * n)%nat.
Proof. induction k as [|k IH]; simpl; [reflexivity | rewrite IH; lia]. Qed.

Lemma array_split_sizes_sum (len k : nat) :
  k <> 0%nat ->
  list_sum (repeat (S (len / k)%nat) (len mod k)%nat
            ++ repeat (len / k)%nat (k - len mod k)%nat) = len.
Proof.
  intros Hk. rewrite list_sum_app, !list_sum_repeat.
  pose proof (Nat.div_mod_eq len k) as H.
  pose proof (Nat.mod_upper_bound len k Hk) as Hr.
  nia.
Qed.

Lemma featurize_sizes (spectrum : list R) (i : nat) :
  (i < 8)%nat ->
  nth i (featurize spectrum) NaN
  = band_mean (nth i (array_split (map Rabs spectrum) 8) []) /\
  length (nth i (array_split (map Rabs spectrum) 8) [])
  = ((length spectrum / 8)
     + (if (i <? length spectrum mod 8)%nat then 1 else 0))%nat.
Proof.
  intros Hi.
  assert (Hr : (length (map Rabs spectrum) mod 8 < 8)%nat)
    by (apply Nat.mod_upper_bound; lia).
  split.
  - unfold featurize. change NaN with (band_mean []). apply map_nth.
  - unfold array_split.
    rewrite split_sizes_nth by (rewrite array_split_sizes_sum; lia).
    rewrite nth_sizes by lia. rewrite length_map.
    destruct (i <? length spectrum mod 8)%nat; lia.
Qed.

(** X7. [np.array_split] as [featurize] uses it cuts the spectrum into 8
    consecutive bands that make it up again, the longer bands first, of
    lengths that differ by one at most; so there are 8 features whatever the
    length of the spectrum. *)
Theorem featurize_bands (spectrum : list R) :
  let bands := array_split (map Rabs spectrum) 8 in
  length (featurize spectrum) = 8%nat /\
  length bands = 8%nat /\
  concat bands = map Rabs spectrum /\
  forall i, (i < 8)%nat ->
    length (nth i bands [])
    = ((length spectrum / 8)
       + (if (i <? length spectrum mod 8)%nat then 1 else 0))%nat.
Proof.
  intros bands. unfold featurize. fold bands.
  assert (Hr : (length (map Rabs spectrum) mod 8 < 8)%nat)
    by (apply Nat.mod_upper_bound; lia).
  assert (Hlen : length bands = 8%nat).
  { unfold bands, array_split. rewrite split_sizes_length, length_app, !repeat_length.
    lia. }
  split; [now rewrite length_map|]. split; [exact Hlen|]. split.
  - unfold bands, array_split. apply split_sizes_concat.
    apply array_split_sizes_sum. lia.
  - intros i Hi. apply (featurize_sizes spectrum i Hi).
Qed.

Lemma band_mean_nan (b : list R) : band_mean b = NaN <-> b = [].
Proof.
  destruct b; simpl; split; intros H; try reflexivity; discriminate.
Qed.

(** X8. Feature [i] of [featurize] is [nan] exactly when the spectrum has at
    most [i] samples: a spectrum of 8 samples or more gives 8 finite
    features, a shorter one gives [nan] from the feature of its length on. *)
Theorem featurize_nan (spectrum : list R) (i : nat) (Hi : (i < 8)%nat) :
  nth i (featurize spectrum) NaN = NaN <-> (length spectrum <= i)%nat.
Proof.
  destruct (featurize_sizes spectrum i Hi) as [Hn Hl].
  rewrite Hn, band_mean_nan.
  rewrite <- length_zero_iff_nil, Hl.
  pose proof (Nat.div_mod_eq (length spectrum) 8) as Hdm.
  pose proof (Nat.mod_upper_bound (length spectrum) 8 ltac:(lia)) as Hr.
  destruct (Nat.ltb_spec i (length spectrum mod 8)); split; intros H1; lia.
Qed.

Lemma featurize_nan_witness :
  (3 < 8)%nat /\
  (nth 3 (featurize [1; 2; 3]) NaN = NaN <-> (length [1; 2; 3] <= 3)%nat).
Proof.
  assert (H : (3 < 8)%nat) by lia.
  split; [exact H|]. exact (featurize_nan [1; 2; 3] 3 H).
Defined.

Section Trained.

Variable label : Type.
Variable svc : Type.
Variable svc_new : svc.
Variable svc_fit : svc -> list (list R) -> list label -> svc * outcome unit.

(** X9. Once trained, always trained: after a [train] call has returned no
    later call unsets [trained], not even a [train] call whose [fit] raises
    (which may still have changed the model). *)
Theorem trained_is_kept (calls1 calls2 : list (request label))
    (Htrained : trained (serve_all label svc svc_new svc_fit calls1) = true) :
  trained (serve_all label svc svc_new svc_fit (calls1 ++ calls2)) = true.
Proof.
  unfold serve_all in *. rewrite fold_left_app.
  revert Htrained. generalize (fold_left (serve label svc svc_fit) calls1
                                         (init svc svc_new)).
  induction calls2 as [|k calls2 IH]; intros c H; simpl; [exact H|].
  apply IH. now apply serve_keeps_trained.
Qed.

End Trained.

Lemma trained_is_kept_witness :
  trained (serve_all nat (list nat) [] toy_fit [Train [[1]] [7%nat]]) = true /\
  trained (serve_all nat (list nat) [] toy_fit
                     ([Train [[1]] [7%nat]] ++ [Classify [1; 2]; Train [] []])) = true.
Proof.
  assert (H : trained (serve_all nat (list nat) [] toy_fit [Train [[1]] [7%nat]]) = true)
    by reflexivity.
  split; [exact H|].
  exact (trained_is_kept nat (list nat) [] toy_fit _ _ H).
Defined.

End ClassifierMoreFacts.

Module ProcessingMoreFacts.
Import Processing ProcessingFacts.


Lemma all_false (mask : list bool) (n : nat) :
  length mask = n -> (forall i, (i < n)%nat -> nth i mask false = false) ->
  mask = repeat false n.
Proof.
  intros Hl Hn. apply (nth_ext _ _ false false).
  - now rewrite repeat_length.
  - intros i Hi. rewrite Hn by lia. symmetry. apply nth_repeat.
Qed.

Lemma noise_samples_short (data : list R) (guard noise_win : Z) (i : nat) :
  (0 <= guard)%Z -> (Z.of_nat (length data) <= guard + 1)%Z ->
  (i < length data)%nat ->
  noise_samples data guard noise_win (Z.of_nat i) = [].
Proof.
  intros Hg Hshort Hi. unfold noise_samples, py_slice, slice_bound. cbv zeta.
  assert (Hl : forall a b : Z,
             (Z.to_nat (b - a) = 0)%nat ->
             firstn (Z.to_nat (b - a)) (skipn (Z.to_nat a) data) = []).
  { intros a b ->. reflexivity. }
  rewrite !Hl; [reflexivity| |].
  - destruct (Z.ltb_spec (Z.min (Z.of_nat (length data))
                                (Z.of_nat i + guard + 1 + noise_win)) 0),
             (Z.ltb_spec (Z.min (Z.of_nat (length data)) (Z.of_nat i + guard + 1)) 0);
      lia.
  - destruct (Z.ltb_spec (Z.max 0 (Z.of_nat i - guard)) 0),
             (Z.ltb_spec (Z.max 0 (Z.of_nat i - guard - noise_win)) 0); lia.
Qed.

(** X12. A signal of at most [guard + 1] samples has no noise sample for any
    of its cells, and [simple_cfar] flags none of them (with the default
    [guard = 5]: no detection in 6 samples or fewer). *)
Theorem simple_cfar_short_signal
    (data : list R) (guard noise_win : Z) (rate : R)
    (Hguard : (0 <= guard)%Z)
    (Hshort : (Z.of_nat (length data) <= guard + 1)%Z) :
  simple_cfar data guard noise_win rate = Returned (repeat false (length data)).
Proof.
  destruct (simple_cfar_cells data guard noise_win rate) as (mask & Hm & Hlen & Hnth).
  rewrite Hm. f_equal. apply all_false; [exact Hlen|].
  intros i Hi. rewrite (Hnth i Hi). unfold cell_flag. cbv zeta.
  now rewrite noise_samples_short.
Qed.

Lemma simple_cfar_short_signal_witness :
  (0 <= 5)%Z /\ (Z.of_nat (length [1; 100; 1; 1; 1; 1]) <= 5 + 1)%Z /\
  simple_cfar [1; 100; 1; 1; 1; 1] 5 20 (1 / 1000)
  = Returned [false; false; false; false; false; false].
Proof.
  assert (Hg : (0 <= 5)%Z) by lia.
  assert (Hs : (Z.of_nat (length [1; 100; 1; 1; 1; 1]) <= 5 + 1)%Z) by (simpl; lia).
  split; [exact Hg|]. split; [exact Hs|].
  exact (simple_cfar_short_signal [1; 100; 1; 1; 1; 1] 5 20 (1 / 1000) Hg Hs).
Defined.

End ProcessingMoreFacts.

Module FiltersFacts.
Import Filters.

(** *** Strided slices *)

Lemma every_from_length (q' : nat) (l : list R) (c : nat) :
  length (every_from q' c l) = ((length l + q' - c) / S q')%nat.
Proof.
  revert c; induction l as [|x t IH]; intros c.
  - cbn [every_from length]. symmetry. apply Nat.div_small. lia.
  - destruct c as [|c']; cbn [every_from length].
    + rewrite IH.
      replace (S (length t) + q' - 0)%nat with (length t + q' - q' + 1 * S q')%nat by lia.
      rewrite Nat.div_add by lia. lia.
    + rewrite IH. f_equal.
  Qed.

Lemma every_from_nth (q' : nat) (l : list R) (c k : nat) :
  nth k (every_from q' c l) 0 = nth (c + k * S q') l 0.
Proof.
  revert c k; induction l as [|x t IH]; intros c k.
  - simpl. now destruct k, (c + _)%nat.
  - destruct c as [|c']; cbn [every_from].
    + destruct k as [|k']; [reflexivity|].
      cbn [nth]. rewrite IH.
      replace (0 + S k' * S q')%nat with (S (q' + k' * S q')) by lia.
      reflexivity.
    + rewrite IH. reflexivity.
Qed.

Lemma ceil_div_mul (n a b : nat) :
  (0 < a)%nat -> (0 < b)%nat ->
  (((n + (a - 1)) / a + (b - 1)) / b = (n + (a * b - 1)) / (a * b))%nat.
Proof.
  intros Ha Hb.
  rewrite <- Nat.Div0.div_div.
  f_equal.
  replace (n + (a * b - 1))%nat with (n + (a - 1) + (b - 1) * a)%nat by nia.
  rewrite Nat.div_add by lia. reflexivity.
Qed.

Lemma decimate_positive (signal : list R) (q : Z) (Hq : (0 < q)%Z) :
  exists out : list R,
    decimate signal q = Some out /\
    Z.of_nat (length out) = ((Z.of_nat (length signal) + q - 1) / q)%Z /\
    forall k : nat, (k < length out)%nat ->
      (k * Z.to_nat q < length signal)%nat /\
      nth k out 0 = nth (k * Z.to_nat q) signal 0.
Proof.
  unfold decimate.
  destruct (Z.eqb_spec q 0) as [H0 | _]; [lia|].
  destruct (Z.ltb_spec 0 q) as [_ | H0]; [|lia].
  eexists; split; [reflexivity|].
  set (n := Z.to_nat q).
  assert (Hn : (0 < n)%nat) by (unfold n; lia).
  assert (Hlen : length (every_from (n - 1) 0 signal) = ((length signal + (n - 1)) / n)%nat).
  { rewrite every_from_length. replace (S (n - 1)) with n by lia.
    f_equal. lia. }
  split.
  - rewrite Hlen.
    rewrite Nat2Z.inj_div, Nat2Z.inj_add.
    replace (Z.of_nat (n - 1)) with (q - 1)%Z by (unfold n; lia).
    replace (Z.of_nat n) with q by (unfold n; lia).
    f_equal. lia.
  - intros k Hk. rewrite Hlen in Hk. split.
    + assert (H := Nat.Div0.mul_div_le (length signal + (n - 1)) n).
      assert (H1 : (n * S k <= n * ((length signal + (n - 1)) / n))%nat)
        by (apply Nat.mul_le_mono_l; lia).
      nia.
    + rewrite every_from_nth. replace (S (n - 1)) with n by lia.
      reflexivity.
Qed.

(** X13. For a positive step [q], [decimate] returns the entries of the signal
    at the indices [0, q, 2q, ...]: [ceil(len / q)] of them, entry [k] being
    [signal[k * q]]. *)
Theorem decimate_entries (signal : list R) (q : Z) (Hq : (0 < q)%Z) :
  exists out : list R,
    decimate signal q = Some out /\
    Z.of_nat (length out) = ((Z.of_nat (length signal) + q - 1) / q)%Z /\
    forall k : nat, (k < length out)%nat ->
      (k * Z.to_nat q < length signal)%nat /\
      nth k out 0 = nth (k * Z.to_nat q) signal 0.
Proof. exact (decimate_positive signal q Hq). Qed.

Lemma decimate_entries_witness :
  exists out : list R,
    decimate [1; 2; 3; 4; 5] 2 = Some out /\
    Z.of_nat (length out) = ((Z.of_nat 5 + 2 - 1) / 2)%Z /\
    forall k : nat, (k < length out)%nat ->
      (k * Z.to_nat 2 < 5)%nat /\
      nth k out 0 = nth (k * Z.to_nat 2) [1; 2; 3; 4; 5] 0.
Proof.
  apply (decimate_entries [1; 2; 3; 4; 5] 2). lia.
Defined.

Lemma every_from_compose (a b : nat) (l : list R) :
  (0 < a)%nat -> (0 < b)%nat ->
  every_from (b - 1) 0 (every_from (a - 1) 0 l) = every_from (a * b - 1) 0 l.
Proof.
  intros Ha Hb.
  assert (Hab : (0 < a * b)%nat) by nia.
  apply (nth_ext _ _ 0 0).
  - rewrite !every_from_length.
    replace (S (a - 1)) with a by lia.
    replace (S (b - 1)) with b by lia.
    replace (S (a * b - 1)) with (a * b)%nat by lia.
    rewrite !Nat.sub_0_r. apply ceil_div_mul; assumption.
  - intros k _. rewrite !every_from_nth.
    replace (S (a - 1)) with a by lia.
    replace (S (b - 1)) with b by lia.
    replace (S (a * b - 1)) with (a * b)%nat by lia.
    f_equal. nia.
Qed.

(** X14. Decimating by [q1] and then by [q2] is decimating by [q1 * q2], for
    positive steps. *)
Theorem decimate_composes (signal : list R) (q1 q2 : Z)
    (Hq1 : (0 < q1)%Z) (Hq2 : (0 < q2)%Z) :
  match decimate signal q1 with
  | Some s1 => decimate s1 q2
  | None => None
  end = decimate signal (q1 * q2).
Proof.
  unfold decimate.
  destruct (Z.eqb_spec q1 0) as [H0 | _]; [lia|].
  destruct (Z.ltb_spec 0 q1) as [_ | H0]; [|lia].
  destruct (Z.eqb_spec q2 0) as [H0 | _]; [lia|].
  destruct (Z.ltb_spec 0 q2) as [_ | H0]; [|lia].
  destruct (Z.eqb_spec (q1 * q2) 0) as [H0 | _]; [nia|].
  destruct (Z.ltb_spec 0 (q1 * q2)) as [_ | H0]; [|nia].
  f_equal. rewrite every_from_compose by lia.
  f_equal. rewrite Z2Nat.inj_mul by lia. reflexivity.
Qed.

Lemma decimate_composes_witness :
  match decimate [1; 2; 3; 4; 5; 6; 7] 2 with
  | Some s1 => decimate s1 3
  | None => None
  end = decimate [1; 2; 3; 4; 5; 6; 7] (2 * 3).
Proof.
  apply (decimate_composes [1; 2; 3; 4; 5; 6; 7] 2 3); lia.
Defined.

Lemma every_from_all (l : list R) : every_from 0 0 l = l.
Proof. induction l as [|x t IH]; simpl; congruence. Qed.

(** X15. A negative step walks the signal backwards: [decimate] by [q < 0]
    returns [ceil(len / |q|)] entries, entry [k] being
    [signal[len - 1 - k * |q|]]; by [-1] it reverses the signal and by [1]
    it returns it unchanged. *)
Theorem decimate_negative_step (signal : list R) (q : Z) (Hq : (q < 0)%Z) :
  exists out : list R,
    decimate signal q = Some out /\
    Z.of_nat (length out) = ((Z.of_nat (length signal) - q - 1) / (- q))%Z /\
    (forall k : nat, (k < length out)%nat ->
      (k * Z.to_nat (- q) < length signal)%nat /\
      nth k out 0 = nth (length signal - 1 - k * Z.to_nat (- q)) signal 0) /\
    decimate signal (-1) = Some (rev signal) /\
    decimate signal 1 = Some signal.
Proof.
  destruct (decimate_positive (rev signal) (- q)) as (out & Hout & Hlen & Hnth); [lia|].
  assert (Hdec : decimate signal q = Some out).
  { revert Hout. unfold decimate.
    destruct (Z.eqb_spec (- q) 0) as [H0 | _]; [lia|].
    destruct (Z.ltb_spec 0 (- q)) as [_ | H0]; [|lia].
    destruct (Z.eqb_spec q 0) as [H0 | _]; [lia|].
    destruct (Z.ltb_spec 0 q) as [H0 | _]; [lia|].
    auto. }
  rewrite length_rev in *.
  exists out. split; [exact Hdec|]. split.
  { rewrite Hlen. f_equal; lia. }
  split.
  { intros k Hk. destruct (Hnth k Hk) as [Hin Hv]. split; [exact Hin|].
    rewrite Hv, rev_nth by (rewrite ?length_rev; exact Hin).
    f_equal. lia. }
  split.
  - unfold decimate. simpl. now rewrite every_from_all.
  - unfold decimate. simpl. now rewrite every_from_all.
Qed.

Lemma decimate_negative_step_witness :
  exists out : list R,
    decimate [1; 2; 3; 4; 5] (-2) = Some out /\
    Z.of_nat (length out) = ((Z.of_nat 5 - (-2) - 1) / (- (-2)))%Z /\
    (forall k : nat, (k < length out)%nat ->
      (k * Z.to_nat (- (-2)) < 5)%nat /\
      nth k out 0 = nth (5 - 1 - k * Z.to_nat (- (-2))) [1; 2; 3; 4; 5] 0) /\
    decimate [1; 2; 3; 4; 5] (-1) = Some (rev [1; 2; 3; 4; 5]) /\
    decimate [1; 2; 3; 4; 5] 1 = Some [1; 2; 3; 4; 5].
Proof.
  apply (decimate_negative_step [1; 2; 3; 4; 5] (-2)). lia.
Defined.

(** *** Correlation *)

Lemma Rsum_append (l1 l2 : list R) : Rsum (l1 ++ l2) = Rsum l1 + Rsum l2.
Proof. induction l1 as [|x t IH]; simpl; [ring | rewrite IH; ring]. Qed.

Lemma Rsum_map_plus {A : Type} (f g : A -> R) (l : list A) :
  Rsum (map (fun x => f x + g x) l) = Rsum (map f l) + Rsum (map g l).
Proof. induction l as [|x t IH]; simpl; [ring | rewrite IH; ring]. Qed.

Lemma Rsum_map_times {A : Type} (c : R) (f : A -> R) (l : list A) :
  Rsum (map (fun x => c * f x) l) = c * Rsum (map f l).
Proof. induction l as [|x t IH]; simpl; [ring | rewrite IH; ring]. Qed.

Lemma Rsum_map_le {A : Type} (f g : A -> R) (l : list A) :
  (forall x, f x <= g x) -> Rsum (map f l) <= Rsum (map g l).
Proof.
  intros H. induction l as [|x t IH]; simpl; [lra | specialize (H x); lra].
Qed.

Lemma Rsum_map_zero {A : Type} (f : A -> R) (l : list A) :
  (forall x, In x l -> f x = 0) -> Rsum (map f l) = 0.
Proof.
  induction l as [|x t IH]; intros H; simpl; [reflexivity|].
  rewrite (H x), IH; [ring | | now left].
  intros y Hy. apply H. now right.
Qed.

Lemma zero_ext_cons (x : R) (t : list R) (i : Z) :
  zero_ext (x :: t) i = if (i =? 0)%Z then x else zero_ext t (i - 1).
Proof.
  unfold zero_ext.
  destruct (Z.ltb_spec i 0) as [Hi | Hi].
  - destruct (Z.eqb_spec i 0) as [H0 | _]; [lia|].
    destruct (Z.ltb_spec (i - 1) 0); [reflexivity | lia].
  - destruct (Z.eqb_spec i 0) as [-> | H0]; [reflexivity|].
    destruct (Z.ltb_spec (i - 1) 0); [lia|].
    replace (Z.to_nat i) with (S (Z.to_nat (i - 1))) by lia.
    reflexivity.
Qed.

Lemma zero_ext_nil (i : Z) : zero_ext [] i = 0.
Proof. unfold zero_ext. destruct (i <? 0)%Z; [reflexivity|]. now destruct (Z.to_nat i). Qed.

Ltac bool_cases :=
  repeat match goal with
  | |- context [(?a <=? ?b)%Z] => destruct (Z.leb_spec a b)
  | |- context [(?a <? ?b)%Z] => destruct (Z.ltb_spec a b)
  | |- context [(?a =? ?b)%Z] => destruct (Z.eqb_spec a b)
  end.

(** An index is hit at most once by a window. *)
Lemma indicator_sum (v : R) (c : Z) (n s : nat) :
  0 <= v ->
  Rsum (map (fun l : nat => if (Z.of_nat l + c =? 0)%Z then v else 0) (seq s n)) =
  if ((Z.of_nat s <=? - c) && (- c <? Z.of_nat s + Z.of_nat n))%Z%bool then v else 0.
Proof.
  intros Hv. revert s. induction n as [|n IH]; intros s.
  - simpl. bool_cases; simpl; try reflexivity; lia.
  - cbn [seq map Rsum fold_right].
    fold (Rsum (map (fun l : nat => if (Z.of_nat l + c =? 0)%Z then v else 0) (seq (S s) n))).
    rewrite IH. bool_cases; simpl; try lra; lia.
Qed.

(** The energy seen through a window is at most the whole energy. *)
Lemma window_energy_le (t : list R) (c : Z) (n : nat) :
  Rsum (map (fun l : nat => zero_ext t (Z.of_nat l + c) * zero_ext t (Z.of_nat l + c)) (seq 0 n))
  <= Rsum (map (fun x => x * x) t).
Proof.
  revert c. induction t as [|x t IH]; intros c.
  - rewrite Rsum_map_zero; [simpl; lra|].
    intros l _. rewrite zero_ext_nil. ring.
  - cbn [map Rsum fold_right]. fold (Rsum (map (fun x => x * x) t)).
    rewrite (map_ext _ (fun l : nat =>
               (if (Z.of_nat l + c =? 0)%Z then x * x else 0) +
               zero_ext t (Z.of_nat l + (c - 1)) * zero_ext t (Z.of_nat l + (c - 1)))).
    + rewrite Rsum_map_plus, indicator_sum by nra.
      specialize (IH (c - 1)%Z).
      destruct (_ && _)%bool; nra.
    + intros l. rewrite zero_ext_cons.
      replace (Z.of_nat l + c - 1)%Z with (Z.of_nat l + (c - 1))%Z by lia.
      destruct (Z.eqb_spec (Z.of_nat l + c) 0) as [H0 | H0]; [|ring].
      replace (Z.of_nat l + (c - 1))%Z with (-1)%Z by lia.
      unfold zero_ext at 1 2. simpl. ring.
Qed.

Lemma zero_ext_window (t : list R) (d : nat) :
  map (fun l : nat => zero_ext t (Z.of_nat l - Z.of_nat d)) (seq d (length t)) = t.
Proof.
  revert d. induction t as [|x t IH]; intros d; [reflexivity|].
  cbn [length seq map]. f_equal.
  - rewrite zero_ext_cons. now replace (Z.of_nat d - Z.of_nat d)%Z with 0%Z by lia.
  - rewrite <- (IH (S d)) at 2. apply map_ext_in.
    intros l Hl. apply in_seq in Hl. rewrite zero_ext_cons.
    destruct (Z.eqb_spec (Z.of_nat l - Z.of_nat d) 0) as [H0 | _]; [lia|].
    f_equal. lia.
Qed.

(** A window that covers the template sees its whole energy. *)
Lemma window_energy_full (t : list R) (d e : nat) :
  Rsum (map (fun l : nat =>
               zero_ext t (Z.of_nat l - Z.of_nat d) * zero_ext t (Z.of_nat l - Z.of_nat d))
            (seq 0 (d + length t + e)))
  = Rsum (map (fun x => x * x) t).
Proof.
  rewrite !seq_app, !map_app, !Rsum_append. cbn [plus].
  rewrite (Rsum_map_zero _ (seq 0 d)).
  2:{ intros l Hl. apply in_seq in Hl. unfold zero_ext.
      destruct (Z.ltb_spec (Z.of_nat l - Z.of_nat d) 0); [ring | lia]. }
  rewrite (Rsum_map_zero _ (seq (d + length t) e)).
  2:{ intros l Hl. apply in_seq in Hl. unfold zero_ext.
      destruct (Z.ltb_spec (Z.of_nat l - Z.of_nat d) 0); [ring|].
      rewrite nth_overflow by lia. ring. }
  rewrite <- (zero_ext_window t d) at 2.
  rewrite map_map. ring.
Qed.

(** The received signal of one echo: the template scaled by [a], after [d]
    samples of silence. *)
Lemma echo_nth (t : list R) (d e : nat) (a : R) (l : nat) :
  nth l (repeat 0 d ++ map (Rmult a) t ++ repeat 0 e) 0 =
  a * zero_ext t (Z.of_nat l - Z.of_nat d).
Proof.
  unfold zero_ext.
  destruct (Z.ltb_spec (Z.of_nat l - Z.of_nat d) 0) as [Hl | Hl].
  - rewrite app_nth1 by (rewrite repeat_length; lia).
    rewrite nth_repeat. ring.
  - rewrite app_nth2 by (rewrite repeat_length; lia).
    rewrite repeat_length.
    replace (Z.to_nat (Z.of_nat l - Z.of_nat d)) with (l - d)%nat by lia.
    destruct (Nat.lt_ge_cases (l - d) (length t)) as [Hin | Hout].
    + rewrite app_nth1 by (rewrite length_map; exact Hin).
      replace 0 with (a * 0) at 1 by ring. apply map_nth.
    + rewrite app_nth2 by (rewrite length_map; exact Hout).
      rewrite nth_repeat, nth_overflow by exact Hout. ring.
Qed.

Lemma echo_length (t : list R) (d e : nat) (a : R) :
  length (repeat 0 d ++ map (Rmult a) t ++ repeat 0 e) = (d + length t + e)%nat.
Proof. rewrite !length_app, length_map, !repeat_length. lia. Qed.

Lemma energy_nonneg (t : list R) : 0 <= Rsum (map (fun x => x * x) t).
Proof. induction t as [|x t IH]; simpl; [lra | nra]. Qed.

Lemma matched_filter_nth (received template : list R) (k : nat) :
  (k < length received + length template - 1)%nat ->
  nth k (matched_filter received template) 0 =
  Rsum (map (fun l : nat =>
               nth l received 0 *
               zero_ext template (Z.of_nat l - Z.of_nat k + Z.of_nat (length template) - 1))
            (seq 0 (length received))).
Proof.
  intros Hk. unfold matched_filter, correlate_full.
  set (f := fun k : nat => Rsum _).
  rewrite (nth_indep _ 0 (f 0%nat)) by (rewrite length_map, length_seq; exact Hk).
  rewrite map_nth, seq_nth by exact Hk. reflexivity.
Qed.

Lemma echo_correlation (t : list R) (d e : nat) (a : R) (k : nat) :
  (k < d + length t + e + length t - 1)%nat ->
  nth k (matched_filter (repeat 0 d ++ map (Rmult a) t ++ repeat 0 e) t) 0 =
  a * Rsum (map (fun l : nat =>
                   zero_ext t (Z.of_nat l + - Z.of_nat d) *
                   zero_ext t (Z.of_nat l + (- Z.of_nat k + Z.of_nat (length t) - 1)))
                (seq 0 (d + length t + e))).
Proof.
  intros Hk. rewrite matched_filter_nth by (rewrite echo_length; exact Hk).
  rewrite echo_length, <- Rsum_map_times. f_equal. apply map_ext.
  intros l. rewrite echo_nth.
  replace (Z.of_nat l - Z.of_nat k + Z.of_nat (length t) - 1)%Z
    with (Z.of_nat l + (- Z.of_nat k + Z.of_nat (length t) - 1))%Z by lia.
  replace (Z.of_nat l - Z.of_nat d)%Z with (Z.of_nat l + - Z.of_nat d)%Z by lia.
  ring.
Qed.

(** X16. The matched filter finds an echo: when the received signal is the
    template scaled by [a], after [d] samples of silence and before [e]
    more, the output has [len(received) + len(template) - 1] samples, its
    sample [d + len(template) - 1] is [a] times the energy of the template,
    and no sample exceeds that in magnitude. *)
Theorem matched_filter_echo_peak (template : list R) (d e : nat) (a : R)
    (Hne : template <> []) :
  let received := repeat 0 d ++ map (Rmult a) template ++ repeat 0 e in
  let z := matched_filter received template in
  let energy := Rsum (map (fun x => x * x) template) in
  length z = (length received + length template - 1)%nat /\
  nth (d + length template - 1) z 0 = a * energy /\
  forall k : nat, Rabs (nth k z 0) <= Rabs a * energy.
Proof.
  intros received z energy.
  assert (Hlen : length z = (length received + length template - 1)%nat).
  { unfold z, matched_filter, correlate_full. now rewrite length_map, length_seq. }
  assert (HM : (0 < length template)%nat) by (destruct template; [congruence | simpl; lia]).
  assert (HE : 0 <= energy) by apply energy_nonneg.
  split; [exact Hlen|]. split.
  - unfold z, received. rewrite echo_correlation by lia.
    f_equal. unfold energy. rewrite <- (window_energy_full template d e).
    f_equal. apply map_ext. intros l. f_equal; f_equal; lia.
  - intros k.
    destruct (Nat.lt_ge_cases k (length z)) as [Hk | Hk].
    2:{ rewrite nth_overflow by exact Hk. rewrite Rabs_R0.
        apply Rmult_le_pos; [apply Rabs_pos | exact HE]. }
    rewrite Hlen in Hk. unfold received in Hk. rewrite echo_length in Hk.
    unfold z, received. rewrite echo_correlation by exact Hk.
    rewrite Rabs_mult. apply Rmult_le_compat_l; [apply Rabs_pos|].
    set (U := fun l : nat => zero_ext template (Z.of_nat l + - Z.of_nat d)).
    set (c := (- Z.of_nat k + Z.of_nat (length template) - 1)%Z).
    set (V := fun l : nat => zero_ext template (Z.of_nat l + c)).
    set (n := (d + length template + e)%nat).
    assert (HU : Rsum (map (fun l => U l * U l) (seq 0 n)) <= energy)
      by apply window_energy_le.
    assert (HV : Rsum (map (fun l => V l * V l) (seq 0 n)) <= energy)
      by apply window_energy_le.
    assert (Hup : Rsum (map (fun l => U l * V l) (seq 0 n)) <=
                  Rsum (map (fun l => / 2 * (U l * U l) + / 2 * (V l * V l)) (seq 0 n))).
    { apply Rsum_map_le. intros l.
      generalize (Rle_0_sqr (U l - V l)). unfold Rsqr.
      generalize (U l) (V l). intros u v Huv. lra. }
    assert (Hlo : Rsum (map (fun l => - (/ 2) * (U l * U l) + - (/ 2) * (V l * V l)) (seq 0 n)) <=
                  Rsum (map (fun l => U l * V l) (seq 0 n))).
    { apply Rsum_map_le. intros l.
      generalize (Rle_0_sqr (U l + V l)). unfold Rsqr.
      generalize (U l) (V l). intros u v Huv. lra. }
    rewrite Rsum_map_plus, !Rsum_map_times in Hup, Hlo.
    apply Rabs_le. change (fun l : nat => zero_ext template (Z.of_nat l + - Z.of_nat d) *
                             zero_ext template (Z.of_nat l + c))
      with (fun l => U l * V l).
    lra.
Qed.

Lemma matched_filter_echo_peak_witness :
  let template := [1; -1] in
  let received := repeat 0 1 ++ map (Rmult 2) template ++ repeat 0 1 in
  let z := matched_filter received template in
  let energy := Rsum (map (fun x => x * x) template) in
  length z = (length received + length template - 1)%nat /\
  nth (1 + length template - 1) z 0 = 2 * energy /\
  forall k : nat, Rabs (nth k z 0) <= Rabs 2 * energy.
Proof.
  apply (matched_filter_echo_peak [1; -1] 1 1 2). discriminate.
Defined.

End FiltersFacts.

Module DopplerFacts.
Import Filters.

(** *** The phase of a complex number *)

Lemma arctan2_range (y x : R) : - PI < arctan2 y x <= PI.
Proof.
  pose proof PI_RGT_0 as Hpi.
  pose proof (atan_bound (y / x)) as Hb.
  unfold arctan2.
  destruct (Rlt_dec 0 x) as [Hx | Hx]; [lra|].
  destruct (Rlt_dec x 0) as [Hx' | Hx'].
  - destruct (Rle_dec 0 y) as [Hy | Hy].
    + assert (atan (y / x) <= 0); [|lra].
      destruct (Req_dec_T y 0) as [-> | Hy0].
      * unfold Rdiv. rewrite Rmult_0_l, atan_0. lra.
      * rewrite <- atan_0. left. apply atan_increasing.
        apply Ropp_lt_cancel. rewrite Ropp_0.
        replace (- (y / x)) with (y / - x) by (field; lra).
        apply Rdiv_lt_0_compat; lra.
    + assert (0 < atan (y / x)); [|lra].
      rewrite <- atan_0. apply atan_increasing.
      replace (y / x) with (- y / - x) by (field; lra).
      apply Rdiv_lt_0_compat; lra.
  - destruct (Rlt_dec 0 y); [lra|].
    destruct (Rlt_dec y 0); lra.
Qed.

Lemma cos_pos_range (x : R) : - PI < x <= PI -> 0 < cos x -> - (PI / 2) < x < PI / 2.
Proof.
  intros Hx Hc. pose proof PI_RGT_0 as Hpi. split.
  - destruct (Rlt_dec (- (PI / 2)) x) as [H | H]; [exact H|].
    assert (cos (- x) <= 0) by (apply cos_le_0; lra).
    rewrite cos_neg in *. lra.
  - destruct (Rlt_dec x (PI / 2)) as [H | H]; [exact H|].
    assert (cos x <= 0) by (apply cos_le_0; lra). lra.
Qed.

Lemma cos_neg_range (x : R) :
  - PI < x <= PI -> cos x < 0 -> x < - (PI / 2) \/ PI / 2 < x.
Proof.
  intros Hx Hc.
  destruct (Rlt_dec x (- (PI / 2))) as [H | H]; [now left|].
  destruct (Rlt_dec (PI / 2) x) as [H' | H']; [now right|].
  assert (0 <= cos x) by (apply cos_ge_0; lra). lra.
Qed.

Lemma cos_zero_range (x : R) :
  - PI < x <= PI -> cos x = 0 -> x = - (PI / 2) \/ x = PI / 2.
Proof.
  intros Hx Hc. pose proof PI_RGT_0 as Hpi.
  destruct (Rlt_dec x (- (PI / 2))) as [H1 | H1].
  { assert (cos (- x) < 0) by (apply cos_lt_0; lra). rewrite cos_neg in *. lra. }
  destruct (Req_dec_T x (- (PI / 2))) as [H2 | H2]; [now left|].
  destruct (Rlt_dec x (PI / 2)) as [H3 | H3].
  { assert (0 < cos x) by (apply cos_gt_0; lra). lra. }
  destruct (Req_dec_T x (PI / 2)) as [H4 | H4]; [now right|].
  assert (cos x < 0) by (apply cos_lt_0; lra). lra.
Qed.

Lemma tan_half_turn (x : R) :
  cos x <> 0 -> sin x / cos x = tan (x + PI) /\ sin x / cos x = tan (x - PI).
Proof.
  intros Hc. unfold tan. split.
  - rewrite neg_sin, neg_cos. field. exact Hc.
  - assert (Hs1 : sin x = - sin (x - PI)).
    { rewrite <- neg_sin. f_equal. ring. }
    assert (Hc1 : cos x = - cos (x - PI)).
    { rewrite <- neg_cos. f_equal. ring. }
    rewrite Hs1 at 1. rewrite Hc1 at 1. field. lra.
Qed.

(** [np.angle] gives back a phase taken in [(-pi, pi]]. *)
Lemma arctan2_sin_cos (x : R) : - PI < x <= PI -> arctan2 (sin x) (cos x) = x.
Proof.
  intros Hx. pose proof PI_RGT_0 as Hpi. unfold arctan2.
  destruct (Rlt_dec 0 (cos x)) as [Hc | Hc].
  { apply (atan_tan x). now apply cos_pos_range. }
  destruct (Rlt_dec (cos x) 0) as [Hc' | Hc'].
  - destruct (cos_neg_range x Hx Hc') as [Hlo | Hhi].
    + assert (Hs : sin x < 0) by (apply sin_lt_0_var; lra).
      destruct (Rle_dec 0 (sin x)) as [H | _]; [lra|].
      destruct (tan_half_turn x) as [-> _]; [lra|].
      rewrite atan_tan by lra. ring.
    + assert (Hs : 0 <= sin x) by (apply sin_ge_0; lra).
      destruct (Rle_dec 0 (sin x)) as [_ | H]; [|lra].
      destruct (tan_half_turn x) as [_ ->]; [lra|].
      rewrite atan_tan by lra. ring.
  - assert (Hc0 : cos x = 0) by lra.
    destruct (cos_zero_range x Hx Hc0) as [-> | ->].
    + rewrite sin_neg, sin_PI2.
      destruct (Rlt_dec 0 (- (1))) as [H | _]; [lra|].
      destruct (Rlt_dec (- (1)) 0) as [_ | H]; [reflexivity | lra].
    + rewrite sin_PI2.
      destruct (Rlt_dec 0 1) as [_ | H]; [reflexivity | lra].
Qed.

Lemma Cexp_phase (x : R) : Cexp (Cmul Ci (RtoC x)) = mkC (cos x) (sin x).
Proof.
  unfold Cexp, Cmul, Ci, RtoC; simpl.
  replace (0 * x - 1 * 0) with 0 by ring.
  replace (0 * 0 + 1 * x) with x by ring.
  rewrite exp_0. f_equal; ring.
Qed.

Lemma bidx_inside (n i : nat) : (i < n)%nat -> bidx n i = i.
Proof.
  intros Hi. unfold bidx. destruct (Nat.eqb_spec n 1); [lia | reflexivity].
Qed.

Lemma broadcast_dim_same (n : nat) : broadcast_dim n n = Returned n.
Proof. unfold broadcast_dim. now rewrite Nat.eqb_refl. Qed.

Lemma estimate_doppler_entries (prev now : list R) (dt freq : R) :
  length prev = length now -> dt <> 0 ->
  exists out : list R,
    estimate_doppler prev now dt freq = Returned out /\
    length out = length now /\
    forall i : nat, (i < length now)%nat ->
      nth i out 0 =
      arctan2 (sin (nth i now 0 - nth i prev 0)) (cos (nth i now 0 - nth i prev 0))
      / (2 * PI) / dt.
Proof.
  intros Hlen Hdt. unfold estimate_doppler. rewrite Hlen, broadcast_dim_same.
  cbn [bind]. destruct (Req_dec_T dt 0) as [H | _]; [contradiction|].
  eexists; split; [reflexivity|]. split.
  - now rewrite length_map, length_seq.
  - intros i Hi.
    set (f := fun i : nat => _ / dt).
    rewrite (nth_indep _ 0 (f 0%nat)) by (rewrite length_map, length_seq; exact Hi).
    rewrite map_nth, seq_nth by exact Hi. unfold f. cbn [plus].
    rewrite bidx_inside by exact Hi.
    rewrite Cexp_phase. reflexivity.
Qed.

(** X17. The Doppler estimate is the phase difference wrapped into
    [(-pi, pi]], in cycles, per [delta_t].  For arrays of one length:
    [delta_t == 0] raises [ZeroDivisionError]; otherwise every entry [v]
    satisfies [|v * delta_t| <= 1/2], and [v] is
    [(now - prev) / (2 pi) / delta_t] when the phase difference lies in
    [(-pi, pi]]. *)
Theorem estimate_doppler_unambiguous (phases_prev phases_now : list R)
    (delta_t freq : R)
    (Hlen : length phases_prev = length phases_now) :
  (delta_t = 0 ->
   estimate_doppler phases_prev phases_now delta_t freq = Raised ZeroDivisionError) /\
  (delta_t <> 0 ->
   exists out : list R,
     estimate_doppler phases_prev phases_now delta_t freq = Returned out /\
     length out = length phases_now /\
     forall i : nat, (i < length phases_now)%nat ->
       Rabs (nth i out 0 * delta_t) <= 1 / 2 /\
       (- PI < nth i phases_now 0 - nth i phases_prev 0 <= PI ->
        nth i out 0 = (nth i phases_now 0 - nth i phases_prev 0) / (2 * PI) / delta_t)).
Proof.
  split.
  { intros ->. unfold estimate_doppler. rewrite Hlen, broadcast_dim_same. cbn [bind].
    destruct (Req_dec_T 0 0) as [_ | H]; [reflexivity | contradiction]. }
  intros Hdt.
  destruct (estimate_doppler_entries phases_prev phases_now delta_t freq Hlen Hdt)
    as (out & Hout & Hl & Hnth).
  exists out. split; [exact Hout|]. split; [exact Hl|].
  intros i Hi. rewrite (Hnth i Hi).
  pose proof PI_RGT_0 as Hpi.
  set (D := nth i phases_now 0 - nth i phases_prev 0).
  split.
  - pose proof (arctan2_range (sin D) (cos D)) as Hr.
    replace (arctan2 (sin D) (cos D) / (2 * PI) / delta_t * delta_t)
      with (arctan2 (sin D) (cos D) / (2 * PI)) by (field; split; lra).
    apply Rabs_le. split.
    + apply Rmult_le_reg_r with (2 * PI); [lra|].
      unfold Rdiv. rewrite Rmult_assoc, Rinv_l by lra. lra.
    + apply Rmult_le_reg_r with (2 * PI); [lra|].
      unfold Rdiv at 1. rewrite Rmult_assoc, Rinv_l by lra. lra.
  - intros HD. now rewrite arctan2_sin_cos.
Qed.

Lemma estimate_doppler_unambiguous_witness :
  (2 = 0 -> estimate_doppler [0; 1] [1; 1] 2 3000 = Raised ZeroDivisionError) /\
  (2 <> 0 ->
   exists out : list R,
     estimate_doppler [0; 1] [1; 1] 2 3000 = Returned out /\
     length out = length [1; 1] /\
     forall i : nat, (i < length [1; 1])%nat ->
       Rabs (nth i out 0 * 2) <= 1 / 2 /\
       (- PI < nth i [1; 1] 0 - nth i [0; 1] 0 <= PI ->
        nth i out 0 = (nth i [1; 1] 0 - nth i [0; 1] 0) / (2 * PI) / 2)).
Proof.
  apply (estimate_doppler_unambiguous [0; 1] [1; 1] 2 3000). reflexivity.
Defined.

Lemma nth_map_add (c : R) (l : list R) (j : nat) :
  nth j (map (fun p => p + c) l) 0 = if (j <? length l)%nat then nth j l 0 + c else 0.
Proof.
  destruct (Nat.ltb_spec j (length l)) as [Hin | Hout].
  - rewrite (nth_indep _ 0 ((fun p => p + c) 0)) by (rewrite length_map; exact Hin).
    apply (map_nth (fun p => p + c)).
  - apply nth_overflow. rewrite length_map. exact Hout.
Qed.

(** X18. The Doppler estimate cannot tell phase differences that are whole
    turns apart: adding [k] turns to every current phase, or to every
    previous phase, leaves the result unchanged. *)
Theorem estimate_doppler_aliases (phases_prev phases_now : list R)
    (delta_t freq : R) (k : nat) :
  estimate_doppler phases_prev (map (fun p => p + 2 * INR k * PI) phases_now) delta_t freq
    = estimate_doppler phases_prev phases_now delta_t freq /\
  estimate_doppler (map (fun p => p + 2 * INR k * PI) phases_prev) phases_now delta_t freq
    = estimate_doppler phases_prev phases_now delta_t freq.
Proof.
  unfold estimate_doppler. rewrite !length_map.
  split.
  - destruct (broadcast_dim _ _) as [n|e]; [|reflexivity].
    cbn [bind]. destruct (Req_dec_T delta_t 0); [reflexivity|].
    f_equal. apply map_ext. intros i.
    rewrite !Cexp_phase, nth_map_add.
    destruct (Nat.ltb_spec (bidx (length phases_now) i) (length phases_now)) as [Hin | Hout].
    + set (a := nth (bidx (length phases_now) i) phases_now 0).
      set (b := nth (bidx (length phases_prev) i) phases_prev 0).
      replace (a + 2 * INR k * PI - b) with (a - b + 2 * INR k * PI) by ring.
      now rewrite sin_period, cos_period.
    + now rewrite (nth_overflow phases_now) by exact Hout.
  - destruct (broadcast_dim _ _) as [n|e]; [|reflexivity].
    cbn [bind]. destruct (Req_dec_T delta_t 0); [reflexivity|].
    f_equal. apply map_ext. intros i.
    rewrite !Cexp_phase, nth_map_add.
    destruct (Nat.ltb_spec (bidx (length phases_prev) i) (length phases_prev)) as [Hin | Hout].
    + set (a := nth (bidx (length phases_now) i) phases_now 0).
      set (b := nth (bidx (length phases_prev) i) phases_prev 0).
      rewrite <- (sin_period (a - (b + 2 * INR k * PI)) k).
      rewrite <- (cos_period (a - (b + 2 * INR k * PI)) k).
      replace (a - (b + 2 * INR k * PI) + 2 * INR k * PI) with (a - b) by ring.
      reflexivity.
    + now rewrite (nth_overflow phases_prev) by exact Hout.
Qed.

End DopplerFacts.

Module ArrayGeometryFacts.
Import Beamforming ArrayGeometry.

Lemma nth_map_seq {A : Type} (f : nat -> A) (n i : nat) (d : A) :
  (i < n)%nat -> nth i (map f (seq 0 n)) d = f i.
Proof.
  intros Hi.
  rewrite (nth_indep _ d (f 0%nat)) by (rewrite length_map, length_seq; exact Hi).
  rewrite map_nth, seq_nth by exact Hi. reflexivity.
Qed.

(** The cosine of the polar angle of sensor [i] lies strictly inside
    [(-1, 1)]. *)
Lemma height_range (n : Z) (i : nat) :
  (i < Z.to_nat n)%nat -> -1 < 1 - 2 * (INR i + 1 / 2) / IZR n < 1.
Proof.
  intros Hi.
  assert (Hn : 0 < IZR n) by (apply IZR_lt; lia).
  assert (Hi0 : 0 <= INR i) by apply pos_INR.
  assert (Hin : INR i + 1 <= IZR n).
  { rewrite <- S_INR, INR_IZR_INZ. apply IZR_le. lia. }
  assert (H1 : 0 < 2 * (INR i + 1 / 2) / IZR n).
  { apply Rdiv_lt_0_compat; lra. }
  assert (H2 : 2 * (INR i + 1 / 2) / IZR n < 2).
  { apply Rmult_lt_reg_r with (IZR n); [exact Hn|].
    unfold Rdiv. rewrite Rmult_assoc, Rinv_l by lra. lra. }
  lra.
Qed.

Lemma spherical_array_row (n : Z) (radius : R) (i : nat) :
  (i < Z.to_nat n)%nat ->
  exists phi theta : R,
    nth i (spherical_array_positions n radius) (0, 0, 0) =
      (radius * sin phi * cos theta, radius * sin phi * sin theta, radius * cos phi) /\
    cos phi = 1 - (2 * INR i + 1) / IZR n.
Proof.
  intros Hi. unfold spherical_array_positions.
  rewrite nth_map_seq by exact Hi. cbv zeta.
  eexists; eexists; split; [reflexivity|].
  rewrite cos_acos by (pose proof (height_range n i Hi); lra).
  assert (Hn : 0 < IZR n) by (apply IZR_lt; lia).
  field. lra.
Qed.

(** X19. [spherical_array_positions] returns [num_elements] sensors (none for
    [num_elements <= 0]), every one at distance [|radius|] from the centre,
    sensor [i] at height [z = radius * (1 - (2 i + 1) / num_elements)]: the
    heights are equally spaced. *)
Theorem spherical_array_on_sphere (num_elements : Z) (radius : R) :
  let positions := spherical_array_positions num_elements radius in
  length positions = Z.to_nat num_elements /\
  forall i : nat, (i < length positions)%nat ->
    let '(x, y, z) := nth i positions (0, 0, 0) in
    x * x + y * y + z * z = radius * radius /\
    z = radius * (1 - (2 * INR i + 1) / IZR num_elements).
Proof.
  intros positions.
  assert (Hlen : length positions = Z.to_nat num_elements).
  { unfold positions, spherical_array_positions. now rewrite length_map, length_seq. }
  split; [exact Hlen|].
  intros i Hi. rewrite Hlen in Hi.
  destruct (spherical_array_row num_elements radius i Hi) as (phi & theta & Hrow & Hcos).
  unfold positions. rewrite Hrow. split.
  - pose proof (sin2_cos2 phi) as Hp. pose proof (sin2_cos2 theta) as Ht.
    unfold Rsqr in Hp, Ht.
    replace (radius * sin phi * cos theta * (radius * sin phi * cos theta) +
             radius * sin phi * sin theta * (radius * sin phi * sin theta) +
             radius * cos phi * (radius * cos phi))
      with (radius * radius *
            (sin phi * sin phi * (sin theta * sin theta + cos theta * cos theta) +
             cos phi * cos phi)) by ring.
    rewrite Ht, Rmult_1_r, Hp. ring.
  - now rewrite Hcos.
Qed.

(** X20. No two sensors of the array coincide when the radius is not zero:
    their heights differ. *)
Theorem spherical_array_distinct (num_elements : Z) (radius : R) (i j : nat)
    (Hr : radius <> 0)
    (Hi : (i < Z.to_nat num_elements)%nat) (Hj : (j < Z.to_nat num_elements)%nat)
    (Hij : i <> j) :
  nth i (spherical_array_positions num_elements radius) (0, 0, 0) <>
  nth j (spherical_array_positions num_elements radius) (0, 0, 0).
Proof.
  destruct (spherical_array_row num_elements radius i Hi) as (p1 & t1 & -> & Hc1).
  destruct (spherical_array_row num_elements radius j Hj) as (p2 & t2 & -> & Hc2).
  intros Heq. injection Heq as _ _ Hz.
  rewrite Hc1, Hc2 in Hz.
  assert (Hn : 0 < IZR num_elements) by (apply IZR_lt; lia).
  apply Rmult_eq_reg_l in Hz; [|exact Hr].
  assert (Hq : (2 * INR i + 1) / IZR num_elements = (2 * INR j + 1) / IZR num_elements) by lra.
  apply Rmult_eq_compat_r with (r := IZR num_elements) in Hq.
  unfold Rdiv in Hq. rewrite !Rmult_assoc, Rinv_l, !Rmult_1_r in Hq by lra.
  assert (Heq : INR i = INR j) by lra.
  apply INR_eq in Heq. contradiction.
Qed.

Lemma spherical_array_distinct_witness :
  nth 0 (spherical_array_positions 102 (1 / 2)) (0, 0, 0) <>
  nth 1 (spherical_array_positions 102 (1 / 2)) (0, 0, 0).
Proof.
  apply (spherical_array_distinct 102 (1 / 2) 0 1); [lra | simpl; lia | simpl; lia | lia].
Defined.

End ArrayGeometryFacts.

Module BeamformingMoreFacts.
Import Beamforming BeamformingFacts.

(** *** Moduli *)

Lemma Cmod_nonneg (z : C) : 0 <= Cmod z.
Proof. apply sqrt_pos. Qed.

Lemma Cnorm2_nonneg (z : C) : 0 <= Cnorm2 z.
Proof.
  unfold Cnorm2.
  pose proof (Rle_0_sqr (Re z)) as H1. pose proof (Rle_0_sqr (Im z)) as H2.
  unfold Rsqr in *. lra.
Qed.

Lemma Cmod_triangle (a b : C) : Cmod (Cadd a b) <= Cmod a + Cmod b.
Proof.
  apply Rsqr_incr_0_var.
  2:{ pose proof (Cmod_nonneg a). pose proof (Cmod_nonneg b). lra. }
  unfold Cmod. rewrite Rsqr_sqrt by apply Cnorm2_nonneg.
  rewrite Rsqr_plus, !Rsqr_sqrt by apply Cnorm2_nonneg.
  pose proof (sqrt_cauchy (Re a) (Im a) (Re b) (Im b)) as Hcs.
  unfold Cnorm2, Cadd, Rsqr in *. cbn [Re Im]. lra.
Qed.

Lemma Cmod_zero : Cmod (RtoC 0) = 0.
Proof.
  unfold Cmod, Cnorm2, RtoC. cbn [Re Im].
  replace (0 * 0 + 0 * 0) with 0 by ring. apply sqrt_0.
Qed.

Lemma Cmod_fold (l : list C) (acc : C) :
  Cmod (fold_left Cadd l acc) <= Cmod acc + Rsum (map Cmod l).
Proof.
  revert acc. induction l as [|z l IH]; intros acc; cbn [fold_left map Rsum fold_right].
  - lra.
  - fold (Rsum (map Cmod l)).
    pose proof (IH (Cadd acc z)). pose proof (Cmod_triangle acc z). lra.
Qed.

Lemma Cmod_Csum (l : list C) : Cmod (Csum l) <= Rsum (map Cmod l).
Proof. unfold Csum. pose proof (Cmod_fold l (RtoC 0)) as H. rewrite Cmod_zero in H. lra. Qed.

Lemma Cmod_steered (d theta : R) :
  Cmod (Cmul (RtoC d) (Cconj (Cphase theta))) = Rabs d.
Proof.
  unfold Cmod, Cnorm2, Cmul, Cconj, Cphase, RtoC. cbn [Re Im].
  pose proof (sin2_cos2 theta) as H. unfold Rsqr in H.
  replace ((d * cos theta - 0 * - sin theta) * (d * cos theta - 0 * - sin theta) +
           (d * - sin theta + 0 * cos theta) * (d * - sin theta + 0 * cos theta))
    with (d * d * (sin theta * sin theta + cos theta * cos theta)) by ring.
  rewrite H, Rmult_1_r. apply sqrt_Rsqr_abs.
Qed.

Lemma Cdiv_real (z : C) (x : R) :
  x <> 0 -> Cdiv z (RtoC x) = mkC (Re z / x) (Im z / x).
Proof.
  intros Hx. unfold Cdiv, Cmul, Cinv, Cnorm2, RtoC. cbn [Re Im].
  f_equal; field; exact Hx.
Qed.

Lemma Cmod_scaled (z : C) (x : R) :
  0 < x -> Cmod (mkC (Re z / x) (Im z / x)) = Cmod z / x.
Proof.
  intros Hx. unfold Cmod, Cnorm2. cbn [Re Im].
  replace (Re z / x * (Re z / x) + Im z / x * (Im z / x))
    with ((Re z * Re z + Im z * Im z) * (/ x * / x)) by (field; lra).
  rewrite sqrt_mult_alt by apply (Cnorm2_nonneg z).
  rewrite sqrt_square by (left; apply Rinv_0_lt_compat; exact Hx).
  reflexivity.
Qed.

Lemma npc_div_real (z : C) (x : R) :
  x <> 0 -> npc_div z (RtoC x) = Some (mkC (Re z / x) (Im z / x)).
Proof.
  intros Hx. unfold npc_div.
  destruct (Ceq_dec (RtoC x) (RtoC 0)) as [H | _].
  - unfold RtoC in H. injection H as H. contradiction.
  - now rewrite Cdiv_real.
Qed.

(** *** The beamformer on matching shapes *)

Lemma bidx_below (n i : nat) : (i < n)%nat -> bidx n i = i.
Proof.
  intros Hi. unfold bidx. destruct (Nat.eqb_spec n 1); [lia | reflexivity].
Qed.

Lemma delay_and_sum_entries (data : ndarray2 R) (positions : list vec3)
    (az_deg el_deg : R) (fs : Z) (freq c : R) :
  c <> 0 -> dim0 data = length positions ->
  let direction := (cos (deg2rad el_deg) * cos (deg2rad az_deg),
                    cos (deg2rad el_deg) * sin (deg2rad az_deg),
                    sin (deg2rad el_deg)) in
  let theta := fun i : nat =>
    - (2 * PI * freq / c) * dot3 (nth i positions (0, 0, 0)) direction in
  delay_and_sum data positions az_deg el_deg fs freq c =
  Returned
    (map (fun j =>
            npc_div (Csum (map (fun i => Cmul (RtoC (at2 data i j))
                                              (Cconj (Cphase (theta i))))
                               (seq 0 (dim0 data))))
                    (RtoC (INR (dim0 data))))
         (seq 0 (dim1 data))).
Proof.
  intros Hc HE direction theta. unfold delay_and_sum, steering_vector.
  destruct (Req_dec_T c 0) as [H | _]; [contradiction|].
  cbn [bind]. rewrite length_map, HE.
  unfold broadcast_dim. rewrite Nat.eqb_refl. cbn [bind].
  f_equal. apply map_ext. intros j. f_equal. f_equal.
  apply map_ext_in. intros i Hi. apply in_seq in Hi.
  rewrite !bidx_below by lia. f_equal. f_equal.
  rewrite (nth_indep _ (RtoC 0)
             (Cexp (Cmul (Cmul (Cneg Ci) (RtoC (2 * PI * freq / c)))
                         (RtoC (dot3 (0, 0, 0) direction)))))
    by (rewrite length_map; lia).
  rewrite (map_nth (fun p => Cexp (Cmul (Cmul (Cneg Ci) (RtoC (2 * PI * freq / c)))
                                        (RtoC (dot3 p direction))))).
  apply Cexp_imaginary.
Qed.

(** X21. The beamformer does not amplify: with one position per channel (at
    least one) and [c != 0], every output sample of [delay_and_sum] is finite
    and its magnitude is at most the mean magnitude of the channels at that
    sample. *)
Theorem delay_and_sum_bounded (data : ndarray2 R) (positions : list vec3)
    (az_deg el_deg : R) (fs : Z) (freq c : R)
    (Hc : c <> 0) (Hshape : dim0 data = length positions)
    (Hpos : (0 < dim0 data)%nat) :
  exists out : list npc,
    delay_and_sum data positions az_deg el_deg fs freq c = Returned out /\
    length out = dim1 data /\
    forall j : nat, (j < dim1 data)%nat ->
      exists z : C,
        nth j out None = Some z /\
        Cmod z <= np_mean (map (fun i => Rabs (at2 data i j)) (seq 0 (dim0 data))).
Proof.
  rewrite (delay_and_sum_entries data positions az_deg el_deg fs freq c Hc Hshape).
  eexists; split; [reflexivity|]. split; [now rewrite length_map, length_seq|].
  intros j Hj.
  assert (HE : 0 < INR (dim0 data)) by (apply lt_0_INR; exact Hpos).
  set (f := fun j : nat => npc_div _ _).
  rewrite (nth_indep _ None (f 0%nat)) by (rewrite length_map, length_seq; exact Hj).
  rewrite map_nth, seq_nth by exact Hj. cbn [plus]. unfold f.
  rewrite npc_div_real by lra.
  eexists; split; [reflexivity|].
  rewrite Cmod_scaled by exact HE.
  unfold np_mean. rewrite length_map, length_seq.
  apply Rmult_le_compat_r; [left; apply Rinv_0_lt_compat; exact HE|].
  eapply Rle_trans; [apply Cmod_Csum|].
  rewrite map_map. right. f_equal. apply map_ext. intros i. apply Cmod_steered.
Qed.

Lemma delay_and_sum_bounded_witness :
  exists out : list npc,
    delay_and_sum (mk2 1 2 (fun _ _ => 1)) [(0, 0, 0)] 0 0 44100 3000 1500 = Returned out /\
    length out = dim1 (mk2 1 2 (fun _ _ => 1)) /\
    forall j : nat, (j < dim1 (mk2 1 2 (fun _ _ => 1)))%nat ->
      exists z : C,
        nth j out None = Some z /\
        Cmod z <= np_mean (map (fun i => Rabs (at2 (mk2 1 2 (fun _ _ => 1)) i j))
                               (seq 0 (dim0 (mk2 1 2 (fun _ _ => 1))))).
Proof.
  apply (delay_and_sum_bounded (mk2 1 2 (fun _ _ => 1)) [(0, 0, 0)] 0 0 44100 3000 1500).
  - lra.
  - reflexivity.
  - simpl. lia.
Defined.

Lemma Csum_fold_real (l : list R) (acc : R) :
  fold_left Cadd (map RtoC l) (RtoC acc) = RtoC (acc + Rsum l).
Proof.
  revert acc. induction l as [|x l IH]; intros acc; cbn [map fold_left Rsum fold_right].
  - now rewrite Rplus_0_r.
  - fold (Rsum l).
    replace (Cadd (RtoC acc) (RtoC x)) with (RtoC (acc + x))
      by (unfold Cadd, RtoC; cbn [Re Im]; f_equal; ring).
    rewrite IH. f_equal. ring.
Qed.

(** X22. At frequency zero the steering vector is all ones and the
    beamformer is the plain average of the channels, whatever the bearing. *)
Theorem delay_and_sum_zero_frequency (data : ndarray2 R) (positions : list vec3)
    (az_deg el_deg : R) (fs : Z) (c : R)
    (Hc : c <> 0) (Hshape : dim0 data = length positions)
    (Hpos : (0 < dim0 data)%nat) :
  delay_and_sum data positions az_deg el_deg fs 0 c =
  Returned
    (map (fun j => Some (RtoC (np_mean (map (fun i => at2 data i j) (seq 0 (dim0 data))))))
         (seq 0 (dim1 data))).
Proof.
  rewrite (delay_and_sum_entries data positions az_deg el_deg fs 0 c Hc Hshape).
  assert (HE : 0 < INR (dim0 data)) by (apply lt_0_INR; exact Hpos).
  f_equal. apply map_ext. intros j.
  rewrite npc_div_real by lra. f_equal.
  rewrite (map_ext _ (fun i => RtoC (at2 data i j))).
  - rewrite <- map_map. unfold Csum. rewrite Csum_fold_real.
    unfold np_mean, RtoC. cbn [Re Im]. rewrite length_map, length_seq.
    f_equal; field; lra.
  - intros i.
    replace (- (2 * PI * 0 / c) * _) with 0 by (field; exact Hc).
    unfold Cmul, Cconj, Cphase, RtoC. cbn [Re Im].
    rewrite cos_0, sin_0. f_equal; ring.
Qed.

Lemma delay_and_sum_zero_frequency_witness :
  delay_and_sum (mk2 1 2 (fun _ _ => 1)) [(0, 0, 0)] 30 0 44100 0 1500 =
  Returned
    (map (fun j => Some (RtoC (np_mean (map (fun i => at2 (mk2 1 2 (fun _ _ => 1)) i j)
                                            (seq 0 (dim0 (mk2 1 2 (fun _ _ => 1))))))))
         (seq 0 (dim1 (mk2 1 2 (fun _ _ => 1))))).
Proof.
  apply (delay_and_sum_zero_frequency (mk2 1 2 (fun _ _ => 1)) [(0, 0, 0)] 30 0 44100 1500).
  - lra.
  - reflexivity.
  - simpl. lia.
Defined.

End BeamformingMoreFacts.

Module OceanFacts.
Import Filters FiltersFacts Ocean Float64Facts.

(** *** Spreading and absorption *)

Section Spreading.

Variable F : float64.
Hypothesis HF : rounding F.
Hypothesis HP : pow10_ok F.

Lemma spreading_loss_positive_range (range_m freq_khz alpha : R) :
  0 < range_m ->
  spherical_spreading_loss F range_m freq_khz alpha =
  rnd F (rnd F (1 / range_m) *
         fl_pow10 F (rnd F (rnd F (rnd F (- alpha * freq_khz) * range_m) / 20))).
Proof.
  intros Hr. unfold spherical_spreading_loss.
  destruct (Rle_dec range_m 0) as [H | _]; [lra|].
  destruct (Rlt_dec 0 range_m) as [_ | H]; [reflexivity | lra].
Qed.

(** The exponent of the absorption, as computed, is not positive. *)
Lemma absorption_exponent (range_m freq_khz alpha : R) :
  0 <= alpha * freq_khz -> 0 <= range_m ->
  rnd F (rnd F (rnd F (- alpha * freq_khz) * range_m) / 20) <= 0.
Proof.
  intros Ha Hr.
  assert (H1 : rnd F (- alpha * freq_khz) <= 0) by (apply rnd_nonpos; [exact HF | lra]).
  assert (H2 : rnd F (rnd F (- alpha * freq_khz) * range_m) <= 0)
    by (apply rnd_nonpos; [exact HF | nra]).
  apply rnd_nonpos; [exact HF | lra].
Qed.

Lemma absorption_range (x : R) : x <= 0 -> 0 <= fl_pow10 F x <= 1.
Proof.
  intros Hx. destruct HP as (Hm & H0 & H1). split; [apply H0|].
  rewrite <- H1. now apply Hm.
Qed.

Lemma spreading_nonneg (range_m : R) : 0 < range_m -> 0 <= rnd F (1 / range_m).
Proof.
  intros Hr. apply rnd_nonneg; [exact HF|].
  left. apply Rdiv_lt_0_compat; lra.
Qed.

(** X23. The propagation loss factor, as the floats compute it, is never
    negative (it is exactly 0 when [10 ** x] underflows); it is 1 for a range
    that is not positive; for a positive range and a non-negative absorption
    [alpha * freq] it is at most the float [1 / range], with equality when
    there is no absorption. *)
Theorem spreading_loss_bounds (range_m freq_khz alpha_db_per_m : R)
    (Habs : 0 <= alpha_db_per_m * freq_khz) :
  let loss := spherical_spreading_loss F range_m freq_khz alpha_db_per_m in
  0 <= loss /\
  (range_m <= 0 -> loss = 1) /\
  (0 < range_m -> loss <= rnd F (1 / range_m)) /\
  (0 < range_m -> alpha_db_per_m * freq_khz = 0 -> loss = rnd F (1 / range_m)).
Proof.
  intros loss. unfold loss.
  destruct (Rle_dec range_m 0) as [Hr | Hr].
  - assert (H1 : spherical_spreading_loss F range_m freq_khz alpha_db_per_m = 1).
    { unfold spherical_spreading_loss. destruct (Rle_dec range_m 0); [reflexivity | lra]. }
    rewrite H1. repeat split; intros; lra.
  - assert (Hpos : 0 < range_m) by lra.
    rewrite spreading_loss_positive_range by exact Hpos.
    pose proof (absorption_range _ (absorption_exponent range_m freq_khz alpha_db_per_m
                                      Habs (Rlt_le _ _ Hpos))) as [Ha0 Ha1].
    pose proof (spreading_nonneg range_m Hpos) as Hs.
    destruct HF as (Hmono & Hz & Hone & Hidem).
    repeat split.
    + rewrite <- Hz. apply Hmono. now apply Rmult_le_pos.
    + intros; lra.
    + intros _. rewrite <- (Hidem (1 / range_m)) at 2. apply Hmono. nra.
    + intros _ H0.
      replace (- alpha_db_per_m * freq_khz) with 0 by (rewrite <- Ropp_mult_distr_l, H0; lra).
      rewrite Hz, Rmult_0_l, Hz. unfold Rdiv at 2. rewrite Rmult_0_l, Hz.
      destruct HP as (_ & _ & ->). now rewrite Rmult_1_r, Hidem.
Qed.

(** X24. Farther is not louder: over positive ranges, with a non-negative
    absorption, the loss factor as computed does not grow with the range. *)
Theorem spreading_loss_decreasing (r1 r2 freq_khz alpha_db_per_m : R)
    (Habs : 0 <= alpha_db_per_m * freq_khz) (Hr1 : 0 < r1) (Hr12 : r1 <= r2) :
  spherical_spreading_loss F r2 freq_khz alpha_db_per_m <=
  spherical_spreading_loss F r1 freq_khz alpha_db_per_m.
Proof.
  rewrite !spreading_loss_positive_range by lra.
  pose proof (absorption_range _ (absorption_exponent r2 freq_khz alpha_db_per_m Habs
                                    ltac:(lra))) as [Ha2 _].
  pose proof (spreading_nonneg r2 ltac:(lra)) as Hs2.
  assert (Hk : rnd F (- alpha_db_per_m * freq_khz) <= 0)
    by (apply rnd_nonpos; [exact HF | lra]).
  destruct HF as (Hmono & Hz & Hone & Hidem).
  destruct HP as (Hpm & _ & _).
  apply Hmono.
  apply Rmult_le_compat; [exact Hs2 | exact Ha2 | |].
  - apply Hmono. unfold Rdiv. rewrite !Rmult_1_l.
    apply Rinv_le_contravar; lra.
  - apply Hpm. apply Hmono.
    apply Rmult_le_compat_r; [lra|]. apply Hmono. nra.
Qed.

End Spreading.

Lemma spreading_loss_bounds_witness :
  let loss := spherical_spreading_loss exact64 1000 3 (1 / 1000) in
  0 <= loss /\
  (1000 <= 0 -> loss = 1) /\
  (0 < 1000 -> loss <= rnd exact64 (1 / 1000)) /\
  (0 < 1000 -> 1 / 1000 * 3 = 0 -> loss = rnd exact64 (1 / 1000)).
Proof.
  apply (spreading_loss_bounds exact64 exact64_rounding exact64_pow10_ok 1000 3 (1 / 1000)).
  lra.
Defined.

Lemma spreading_loss_decreasing_witness :
  spherical_spreading_loss exact64 2000 3 (1 / 1000)
  <= spherical_spreading_loss exact64 1000 3 (1 / 1000).
Proof.
  apply (spreading_loss_decreasing exact64 exact64_rounding exact64_pow10_ok
           1000 2000 3 (1 / 1000)); lra.
Defined.

(** *** Multipath *)

Lemma py_int_nonneg (x : R) : 0 <= x -> (0 <= py_int x)%Z.
Proof.
  intros Hx. unfold py_int. destruct (Rle_dec 0 x) as [_ | H]; [|lra].
  destruct (base_Int_part x) as [_ Hb].
  assert (H : IZR (-1) < IZR (Int_part x)) by (simpl; lra).
  apply lt_IZR in H. lia.
Qed.

Lemma py_int_monotone (x y : R) : 0 <= x -> x <= y -> (py_int x <= py_int y)%Z.
Proof.
  intros Hx Hxy. unfold py_int.
  destruct (Rle_dec 0 x) as [_ | H]; [|lra].
  destruct (Rle_dec 0 y) as [_ | H]; [|lra].
  destruct (base_Int_part x) as [Hx1 _].
  destruct (base_Int_part y) as [_ Hy2].
  assert (H : IZR (Int_part x) < IZR (Int_part y + 1)) by (rewrite plus_IZR; simpl; lra).
  apply lt_IZR in H. lia.
Qed.

Lemma py_max_spec (l : list R) (m : R) :
  py_max l = Some m -> In m l /\ Forall (fun x => x <= m) l.
Proof.
  destruct l as [|x t]; [discriminate|]. cbn [py_max]. intros Hm.
  injection Hm as <-.
  assert (H : forall (t : list R) (a : R),
             let m := fold_left (fun m y => if Rlt_dec m y then y else m) t a in
             (m = a \/ In m t) /\ a <= m /\ Forall (fun x => x <= m) t).
  { clear. induction t as [|y t IH]; intros a; cbn [fold_left].
    - split; [now left|]. split; [lra | constructor].
    - specialize (IH (if Rlt_dec a y then y else a)). cbv zeta in IH.
      destruct IH as (Hin & Hle & Hall). cbv zeta.
      destruct (Rlt_dec a y) as [Hay | Hay].
      + split; [right; destruct Hin as [-> | Hin]; [now left | now right]|].
        split; [lra|]. constructor; [exact Hle | exact Hall].
      + split; [destruct Hin as [-> | Hin]; [now left | right; now right]|].
        split; [exact Hle|]. constructor; [lra | exact Hall]. }
  specialize (H t x). cbv zeta in H. destruct H as (Hin & Hle & Hall).
  split.
  - destruct Hin as [-> | Hin]; [now left | now right].
  - constructor; assumption.
Qed.

Lemma zero_ext_scale (a : R) (v : list R) (m : Z) :
  zero_ext (map (Rmult a) v) m = a * zero_ext v m.
Proof.
  unfold zero_ext. destruct (m <? 0)%Z; [ring|].
  replace 0 with (a * 0) at 1 by ring. apply map_nth.
Qed.

Lemma slice_bound_inside (n : nat) (i : Z) :
  (0 <= i <= Z.of_nat n)%Z -> slice_bound n i = i.
Proof.
  intros Hi. unfold slice_bound.
  destruct (Z.ltb_spec i 0); lia.
Qed.

Lemma slice_bound_range (n : nat) (i : Z) : (0 <= slice_bound n i <= Z.of_nat n)%Z.
Proof. unfold slice_bound. destruct (Z.ltb_spec i 0); lia. Qed.

(** An in-place addition on a slice keeps the length of the array. *)
Lemma iadd_slice_length (out v out' : list R) (a b : Z) :
  iadd_slice out a b v = Some out' -> length out' = length out.
Proof.
  unfold iadd_slice.
  pose proof (slice_bound_range (length out) a) as Ha.
  pose proof (slice_bound_range (length out) b) as Hb.
  set (lo := Z.to_nat (slice_bound (length out) a)) in *.
  set (hi := Z.to_nat (slice_bound (length out) b)) in *.
  assert (Hlo : (lo <= length out)%nat) by (unfold lo; lia).
  assert (Hhi : (hi <= length out)%nat) by (unfold hi; lia).
  destruct (broadcast_to (hi - lo) v) as [v'|] eqn:Hv; [|discriminate].
  intros H. injection H as <-.
  assert (Hv' : length v' = (hi - lo)%nat).
  { revert Hv. unfold broadcast_to.
    destruct (Nat.eqb_spec (length v) (hi - lo)) as [He | _]; [congruence|].
    destruct (length v =? 1)%nat; [|discriminate].
    intros H. injection H as <-. apply repeat_length. }
  rewrite !length_app, length_map, length_combine, !length_firstn, !length_skipn, Hv'.
  lia.
Qed.

(** A slice that lies inside the array receives the operand entry by
    entry. *)
Lemma iadd_slice_inside (out v : list R) (s : Z) :
  (0 <= s)%Z -> (s + Z.of_nat (length v) <= Z.of_nat (length out))%Z ->
  exists out' : list R,
    iadd_slice out s (s + Z.of_nat (length v)) v = Some out' /\
    forall m : nat, nth m out' 0 = nth m out 0 + zero_ext v (Z.of_nat m - s).
Proof.
  intros Hs Hfit. unfold iadd_slice.
  rewrite !slice_bound_inside by lia.
  replace (Z.to_nat (s + Z.of_nat (length v)) - Z.to_nat s)%nat with (length v) by lia.
  unfold broadcast_to. rewrite Nat.eqb_refl.
  eexists; split; [reflexivity|].
  set (lo := Z.to_nat s).
  assert (Hlo : (lo + length v <= length out)%nat) by (unfold lo; lia).
  intros m. unfold zero_ext.
  destruct (Z.ltb_spec (Z.of_nat m - s) 0) as [Hm | Hm].
  - rewrite app_nth1 by (rewrite length_firstn; lia).
    rewrite nth_firstn. destruct (Nat.ltb_spec m lo); [ring | lia].
  - replace (Z.to_nat (Z.of_nat m - s)) with (m - lo)%nat by (unfold lo; lia).
    assert (Hml : (lo <= m)%nat) by (unfold lo; lia).
    rewrite app_nth2 by (rewrite length_firstn; lia).
    rewrite length_firstn, Nat.min_l by lia.
    destruct (Nat.lt_ge_cases (m - lo) (length v)) as [Hin | Hout].
    + rewrite app_nth1
        by (rewrite length_map, length_combine, length_firstn, length_skipn; lia).
      rewrite (nth_indep _ 0 ((fun p : R * R => fst p + snd p) (0, 0)))
        by (rewrite length_map, length_combine, length_firstn, length_skipn; lia).
      rewrite (map_nth (fun p : R * R => fst p + snd p)).
      rewrite combine_nth by (rewrite length_firstn, length_skipn; lia).
      cbn [fst snd]. rewrite nth_firstn.
      destruct (Nat.ltb_spec (m - lo) (length v)); [|lia].
      rewrite nth_skipn. f_equal. f_equal. lia.
    + rewrite app_nth2
        by (rewrite length_map, length_combine, length_firstn, length_skipn; lia).
      rewrite length_map, length_combine, length_firstn, length_skipn.
      rewrite nth_skipn, (nth_overflow v) by exact Hout.
      rewrite Rplus_0_r. f_equal. lia.
Qed.

Section Multipath.

Variable F : float64.
Hypothesis HF : rounding F.

Lemma superposition_snoc (signal : list R) (fs : Z) (paths : list (R * R))
    (da : R * R) (n : nat) :
  superposition F signal fs (paths ++ [da]) n =
  superposition F signal fs paths n +
  snd da * zero_ext signal (Z.of_nat n - delay_shift F (fst da) fs).
Proof.
  unfold superposition. rewrite map_app, Rsum_append. simpl. ring.
Qed.

(** The loop of [add_multipath] on paths whose shifts lie between 0 and
    [smax]. *)
Lemma add_paths_fold (signal : list R) (fs smax : Z) (todo done : list (R * R))
    (out : list R) :
  Z.of_nat (length out) = (Z.of_nat (length signal) + smax + 1)%Z ->
  Forall (fun da => (0 <= delay_shift F (fst da) fs <= smax)%Z) todo ->
  (forall n : nat, nth n out 0 = superposition F signal fs done n) ->
  exists out' : list R,
    fold_left (add_path F signal fs) todo (inr out) = inr out' /\
    length out' = length out /\
    forall n : nat, nth n out' 0 = superposition F signal fs (done ++ todo) n.
Proof.
  revert done out. induction todo as [|da todo IH]; intros done out Hlen Hall Hinv.
  - exists out. rewrite app_nil_r. auto.
  - inversion Hall as [|? ? Hda Hrest]; subst.
    cbn [fold_left add_path].
    destruct (iadd_slice_inside out (map (Rmult (snd da)) signal) (delay_shift F (fst da) fs))
      as (out1 & Hout1 & Hnth1); [lia | rewrite length_map; lia|].
    rewrite length_map in Hout1. rewrite Hout1.
    assert (Hl1 : length out1 = length out) by (eapply iadd_slice_length; exact Hout1).
    destruct (IH (done ++ [da]) out1) as (out' & Hf & Hl & Hn).
    + rewrite Hl1. exact Hlen.
    + exact Hrest.
    + intros n. rewrite Hnth1, Hinv, zero_ext_scale, superposition_snoc. reflexivity.
    + exists out'. split; [exact Hf|]. split; [congruence|].
      intros n. rewrite Hn, <- app_assoc. reflexivity.
Qed.

Lemma combine_shifts (delays amps : list R) (P : R -> Prop) :
  Forall P delays -> Forall (fun da : R * R => P (fst da)) (combine delays amps).
Proof.
  intros H. revert amps. induction H as [|d t Hd Ht IH]; intros amps; [constructor|].
  destruct amps as [|a amps]; [constructor|].
  cbn [combine]. constructor; [exact Hd | apply IH].
Qed.

(** X25. With a sample rate [fs >= 0] and delays that are not negative,
    [add_multipath] raises [ValueError] on an empty list of delays and
    otherwise returns [len(signal) + int(max(delays)*fs) + 1] samples: the
    sum of the copies of the signal, copy [k] scaled by [amps[k]] and shifted
    by [int(delays[k]*fs)] samples, over the pairs that [zip] forms; the last
    sample is always zero.  Each [int(d*fs)] is the truncation of the float
    product ([delay_shift]). *)
Theorem add_multipath_superposition (signal delays amps : list R) (fs : Z)
    (Hfs : (0 <= fs)%Z) (Hdelays : Forall (fun d => 0 <= d) delays) :
  match py_max delays with
  | None => delays = [] /\ add_multipath F signal delays amps fs = inl EmptySequence
  | Some dmax =>
      exists out : list R,
        add_multipath F signal delays amps fs = inr out /\
        length out = (length signal + Z.to_nat (delay_shift F dmax fs) + 1)%nat /\
        (forall n : nat,
           nth n out 0 = superposition F signal fs (combine delays amps) n) /\
        nth (length out - 1) out 0 = 0
  end.
Proof.
  destruct (py_max delays) as [dmax|] eqn:Hmax.
  2:{ destruct delays; [|discriminate]. split; [reflexivity|].
      unfold add_multipath. now rewrite Hmax. }
  destruct (py_max_spec delays dmax Hmax) as [Hin Hle].
  assert (Hfs' : 0 <= IZR fs) by (apply IZR_le; exact Hfs).
  assert (Hdmax : 0 <= dmax) by (rewrite Forall_forall in Hdelays; auto).
  assert (Hsmax : (0 <= delay_shift F dmax fs)%Z).
  { unfold delay_shift. apply py_int_nonneg. apply rnd_nonneg; [exact HF | nra]. }
  set (smax := delay_shift F dmax fs) in *.
  assert (Hshifts : Forall (fun da : R * R => (0 <= delay_shift F (fst da) fs <= smax)%Z)
                           (combine delays amps)).
  { apply (combine_shifts delays amps
             (fun d => (0 <= delay_shift F d fs <= smax)%Z)).
    rewrite Forall_forall in *. intros d Hd.
    specialize (Hdelays d Hd). specialize (Hle d Hd). cbv beta in Hle.
    unfold smax, delay_shift.
    split; [apply py_int_nonneg; apply rnd_nonneg; [exact HF | nra]|].
    apply py_int_monotone; [apply rnd_nonneg; [exact HF | nra]|].
    apply (proj1 HF). nra. }
  destruct (add_paths_fold signal fs smax (combine delays amps) []
              (repeat 0 (Z.to_nat (Z.of_nat (length signal) + smax + 1))))
    as (out & Hout & Hlen & Hnth).
  { rewrite repeat_length. lia. }
  { exact Hshifts. }
  { intros n. rewrite nth_repeat. reflexivity. }
  rewrite repeat_length in Hlen. cbn [app] in Hnth.
  exists out.
  assert (Hlen' : length out = (length signal + Z.to_nat smax + 1)%nat) by lia.
  split.
  { unfold add_multipath. rewrite Hmax. fold smax.
    destruct (Z.ltb_spec (Z.of_nat (length signal) + smax + 1) 0); [lia | exact Hout]. }
  split; [exact Hlen'|]. split; [exact Hnth|].
  rewrite Hnth. unfold superposition. apply Rsum_map_zero.
  intros da Hda. rewrite Forall_forall in Hshifts. specialize (Hshifts da Hda).
  unfold zero_ext.
  destruct (Z.ltb_spec (Z.of_nat (length out - 1) - delay_shift F (fst da) fs) 0); [ring|].
  rewrite nth_overflow by lia. ring.
Qed.

End Multipath.

Lemma add_multipath_superposition_witness :
  match py_max [0; 1] with
  | None => [0; 1] = [] /\ add_multipath exact64 [1; 2] [0; 1] [1; 1 / 2] 3 = inl EmptySequence
  | Some dmax =>
      exists out : list R,
        add_multipath exact64 [1; 2] [0; 1] [1; 1 / 2] 3 = inr out /\
        length out = (length [1; 2] + Z.to_nat (delay_shift exact64 dmax 3) + 1)%nat /\
        (forall n : nat,
           nth n out 0 = superposition exact64 [1; 2] 3 (combine [0; 1] [1; 1 / 2]) n) /\
        nth (length out - 1) out 0 = 0
  end.
Proof.
  apply (add_multipath_superposition exact64 exact64_rounding [1; 2] [0; 1] [1; 1 / 2] 3);
    [lia|].
  repeat (constructor; [lra|]). constructor.
Defined.

Section NegativeDelay.

Variable F : float64.

Lemma fold_add_path_raised (signal : list R) (fs : Z) (todo : list (R * R))
    (e : value_error) :
  fold_left (add_path F signal fs) todo (inl e) = inl e.
Proof. induction todo as [|da todo IH]; [reflexivity | exact IH]. Qed.

(** A slice that starts before the array cannot take the whole operand. *)
Lemma iadd_slice_wrapped (out v : list R) (s : Z) :
  (2 <= length v)%nat -> (- Z.of_nat (length v) <= s < 0)%Z ->
  iadd_slice out s (s + Z.of_nat (length v)) v = None.
Proof.
  intros Hv Hs. unfold iadd_slice.
  set (lo := Z.to_nat (slice_bound (length out) s)).
  set (hi := Z.to_nat (slice_bound (length out) (s + Z.of_nat (length v)))).
  assert (Hn : (hi - lo < length v)%nat).
  { unfold lo, hi, slice_bound.
    destruct (Z.ltb_spec s 0) as [_ | H]; [|lia].
    destruct (Z.ltb_spec (s + Z.of_nat (length v)) 0) as [H | _]; [lia|].
    lia. }
  unfold broadcast_to.
  destruct (Nat.eqb_spec (length v) (hi - lo)) as [H | _]; [lia|].
  destruct (Nat.eqb_spec (length v) 1) as [H | _]; [lia|].
  reflexivity.
Qed.

Lemma add_paths_negative_shift (signal : list R) (fs : Z) (d a : R)
    (todo : list (R * R)) (acc : value_error + list R) :
  (2 <= length signal)%nat ->
  (- Z.of_nat (length signal) <= delay_shift F d fs < 0)%Z ->
  In (d, a) todo ->
  exists e : value_error, fold_left (add_path F signal fs) todo acc = inl e.
Proof.
  intros HL Hs. revert acc. induction todo as [|da todo IH]; intros acc Hin; [contradiction|].
  cbn [fold_left].
  destruct acc as [e | out].
  { exists e. cbn [add_path]. apply fold_add_path_raised. }
  destruct Hin as [-> | Hin].
  - cbn [add_path fst snd].
    replace (Z.of_nat (length signal))
      with (Z.of_nat (length (map (Rmult a) signal))) by now rewrite length_map.
    rewrite iadd_slice_wrapped by (rewrite length_map; assumption).
    exists NotBroadcastable. apply fold_add_path_raised.
  - apply IH. exact Hin.
Qed.

(** X26. A negative delay is not caught but breaks the slice: when the
    signal has at least two samples and some zipped pair has a shift
    [int(d*fs)] in [-len(signal), 0), [add_multipath] never returns an
    array; it raises [ValueError]. *)
Theorem add_multipath_negative_delay (signal delays amps : list R) (fs : Z)
    (d a : R)
    (Hlen : (2 <= length signal)%nat)
    (Hin : In (d, a) (combine delays amps))
    (Hshift : (- Z.of_nat (length signal) <= delay_shift F d fs < 0)%Z) :
  exists e : value_error, add_multipath F signal delays amps fs = inl e.
Proof.
  unfold add_multipath.
  destruct (py_max delays) as [dmax|]; [|now exists EmptySequence].
  destruct (_ <? 0)%Z; [now exists NegativeDimensions|].
  now apply (add_paths_negative_shift signal fs d a).
Qed.

End NegativeDelay.

Lemma py_int_IZR (z : Z) : py_int (IZR z) = z.
Proof.
  unfold py_int. destruct (Rle_dec 0 (IZR z)) as [H | H].
  - symmetry. apply Int_part_spec. lra.
  - rewrite <- opp_IZR.
    rewrite <- (Int_part_spec (IZR (- z)) (- z)%Z) by lra. lia.
Qed.

Lemma add_multipath_negative_delay_witness :
  exists e : value_error, add_multipath exact64 [1; 2] [-1; 1] [1; 1] 1 = inl e.
Proof.
  apply (add_multipath_negative_delay exact64 [1; 2] [-1; 1] [1; 1] 1 (-1) 1).
  - simpl. lia.
  - simpl. now left.
  - unfold delay_shift, exact64; cbn [rnd].
    replace (-1 * IZR 1) with (IZR (-1)) by (simpl; lra).
    rewrite py_int_IZR. simpl. lia.
Defined.

End OceanFacts.

Module InputFacts.
Import Filters Ocean OceanFacts Input Float64Facts.

Lemma ranges_get_In (ranges : range_dict) (ch : Z) (r : R) :
  ranges_get ranges ch = Some r -> In r (map snd ranges).
Proof.
  induction ranges as [|[k r'] rest IH]; cbn [ranges_get]; [discriminate|].
  destruct (k =? ch)%Z.
  - intros H. injection H as ->. now left.
  - intros H. right. apply IH. exact H.
Qed.

Lemma max_range_bounds (ranges : range_dict) (r : R) :
  In r (map snd ranges) -> r <= max_range ranges.
Proof.
  intros Hin. unfold max_range.
  destruct (py_max (map snd ranges)) as [m|] eqn:Hm.
  - destruct (py_max_spec _ _ Hm) as [_ Hall].
    rewrite Forall_forall in Hall. now apply Hall.
  - destruct (map snd ranges); [contradiction | discriminate].
Qed.

Lemma collect_rows_all_returned (rows : list (input_error + list R)) :
  Forall (fun x => exists row, x = inr row) rows ->
  exists out : list (list R), collect_rows rows = inr out /\ map inr out = rows.
Proof.
  induction 1 as [|x rows [row ->] _ (out & Hout & Hmap)].
  - now exists [].
  - exists (row :: out). cbn [collect_rows map]. rewrite Hout, Hmap. auto.
Qed.

Section Ping.

Variable F : float64.
Hypothesis HF : rounding F.

(** One echo: the row of a channel at range [r >= 0], with a delay that
    fits the row. *)
Lemma ping_row_echo (self : SonarInput) (chirp_signal : list R) (c r : R) (n : nat) :
  0 <= r ->
  let delay := delay_of_range F self c r in
  (0 <= delay)%Z ->
  (delay + Z.of_nat (length chirp_signal) <= Z.of_nat n)%Z ->
  exists row : list R,
    ping_row F self chirp_signal c (repeat 0 n) (Some r) = inr row /\
    length row = n /\
    forall m : nat,
      nth m row 0 = 1 / (1 + r / 1000) * zero_ext chirp_signal (Z.of_nat m - delay).
Proof.
  intros Hr delay H0 Hfit. unfold ping_row. fold delay.
  destruct (Req_dec_T (1 + r / 1000) 0) as [H | _]; [lra|].
  destruct (iadd_slice_inside (repeat 0 n) (map (Rmult (1 / (1 + r / 1000))) chirp_signal) delay)
    as (row & Hrow & Hnth); [exact H0 | rewrite length_map, repeat_length; exact Hfit|].
  rewrite length_map in Hrow. rewrite Hrow.
  exists row. split; [reflexivity|]. split.
  - rewrite (iadd_slice_length _ _ _ _ _ Hrow). apply repeat_length.
  - intros m. rewrite Hnth, nth_repeat, zero_ext_scale. ring.
Qed.

(** The delay, as computed, grows with the range and is not negative. *)
Lemma delay_of_range_monotone (self : SonarInput) (c r1 r2 : R) :
  0 < c -> (0 <= sample_rate self)%Z -> 0 <= r1 -> r1 <= r2 ->
  (0 <= delay_of_range F self c r1 <= delay_of_range F self c r2)%Z.
Proof.
  intros Hc Hfs Hr1 Hr12.
  assert (Hfs' : 0 <= IZR (sample_rate self)) by (apply IZR_le; exact Hfs).
  assert (Hinv : 0 < / c) by (apply Rinv_0_lt_compat; exact Hc).
  destruct HF as (Hmono & Hz & _).
  assert (Hn : forall x, 0 <= x -> 0 <= rnd F x)
    by (intros x Hx; rewrite <- Hz; now apply Hmono).
  assert (H1 : 0 <= rnd F (2 * r1)) by (apply Hn; lra).
  assert (H12 : rnd F (2 * r1) <= rnd F (2 * r2)) by (apply Hmono; lra).
  assert (H2 : 0 <= rnd F (rnd F (2 * r1) / c))
    by (apply Hn; unfold Rdiv; now apply Rmult_le_pos; [|left]).
  assert (H22 : rnd F (rnd F (2 * r1) / c) <= rnd F (rnd F (2 * r2) / c)).
  { apply Hmono. unfold Rdiv. apply Rmult_le_compat_r; [now left | exact H12]. }
  assert (H3 : 0 <= rnd F (rnd F (rnd F (2 * r1) / c) * IZR (sample_rate self)))
    by (apply Hn; now apply Rmult_le_pos).
  unfold delay_of_range. split.
  - now apply py_int_nonneg.
  - apply py_int_monotone; [exact H3|]. apply Hmono.
    now apply Rmult_le_compat_r.
Qed.

(** X27. With a positive speed of sound, a sample rate and a channel count
    that are not negative and ranges that are not negative,
    [make_array_ping] returns one row per channel, each of
    [len(chirp) + max_delay + 10] samples: the row of a channel without a
    range is silent, and the row of a channel at range [r] is the chirp
    scaled by [1 / (1 + r/1000)] and delayed by
    [int((2*r/speed_of_sound) * sample_rate)] samples, the truncation of the
    float product ([delay_of_range]). *)
Theorem make_array_ping_rows (self : SonarInput) (chirp_signal : list R)
    (ranges : range_dict) (speed_of_sound : R)
    (Hc : 0 < speed_of_sound)
    (Hfs : (0 <= sample_rate self)%Z) (Hch : (0 <= channels self)%Z)
    (Hranges : Forall (fun kr => 0 <= snd kr) ranges) :
  let max_delay := delay_of_range F self speed_of_sound (max_range ranges) in
  exists out : list (list R),
    make_array_ping F self chirp_signal ranges speed_of_sound = inr out /\
    length out = Z.to_nat (channels self) /\
    forall ch : nat, (ch < length out)%nat ->
      length (nth ch out []) = (length chirp_signal + Z.to_nat max_delay + 10)%nat /\
      match ranges_get ranges (Z.of_nat ch) with
      | None => forall n : nat, nth n (nth ch out []) 0 = 0
      | Some r =>
          forall n : nat,
            nth n (nth ch out []) 0 =
            1 / (1 + r / 1000) *
            zero_ext chirp_signal (Z.of_nat n - delay_of_range F self speed_of_sound r)
      end.
Proof.
  intros max_delay.
  assert (Hvals : forall r, In r (map snd ranges) -> 0 <= r).
  { intros r Hin. apply in_map_iff in Hin. destruct Hin as (kr & <- & Hin).
    rewrite Forall_forall in Hranges. now apply Hranges. }
  assert (Hmax0 : 0 <= max_range ranges).
  { unfold max_range. destruct (py_max (map snd ranges)) as [m|] eqn:Hm; [|lra].
    apply Hvals. now destruct (py_max_spec _ _ Hm). }
  assert (Hmd : (0 <= max_delay)%Z).
  { unfold max_delay.
    apply (delay_of_range_monotone self speed_of_sound _ _ Hc Hfs Hmax0 (Rle_refl _)). }
  set (out_len := (Z.of_nat (length chirp_signal) + max_delay + 10)%Z).
  set (f := fun ch : nat =>
              ping_row F self chirp_signal speed_of_sound
                       (repeat 0 (Z.to_nat out_len))
                       (ranges_get ranges (Z.of_nat ch))).
  assert (Hrow : forall ch : nat,
            exists row : list R,
              f ch = inr row /\
              length row = (length chirp_signal + Z.to_nat max_delay + 10)%nat /\
              match ranges_get ranges (Z.of_nat ch) with
              | None => forall n : nat, nth n row 0 = 0
              | Some r =>
                  forall n : nat,
                    nth n row 0 =
                    1 / (1 + r / 1000) *
                    zero_ext chirp_signal
                      (Z.of_nat n - delay_of_range F self speed_of_sound r)
              end).
  { intros ch. unfold f.
    destruct (ranges_get ranges (Z.of_nat ch)) as [r|] eqn:Hget.
    - pose proof (ranges_get_In _ _ _ Hget) as Hin.
      pose proof (Hvals r Hin) as Hr0.
      pose proof (max_range_bounds ranges r Hin) as Hrm.
      pose proof (delay_of_range_monotone self speed_of_sound r (max_range ranges)
                    Hc Hfs Hr0 Hrm) as [Hd0 Hdm].
      fold max_delay in Hdm.
      destruct (ping_row_echo self chirp_signal speed_of_sound r
                  (Z.to_nat out_len) Hr0) as (row & Hrow & Hlen & Hnth).
      + exact Hd0.
      + unfold out_len. lia.
      + exists row. split; [exact Hrow|]. split; [|exact Hnth].
        rewrite Hlen. unfold out_len. lia.
    - exists (repeat 0 (Z.to_nat out_len)). split; [reflexivity|]. split.
      + rewrite repeat_length. unfold out_len. lia.
      + intros n. apply nth_repeat. }
  destruct (collect_rows_all_returned (map f (seq 0 (Z.to_nat (channels self)))))
    as (out & Hout & Hmap).
  { apply Forall_forall. intros x Hx. apply in_map_iff in Hx.
    destruct Hx as (ch & <- & _). destruct (Hrow ch) as (row & Hf & _). now exists row. }
  assert (Hlen : length out = Z.to_nat (channels self)).
  { rewrite <- (length_map (@inr input_error (list R)) out), Hmap, length_map, length_seq.
    reflexivity. }
  exists out. split.
  { unfold make_array_ping.
    destruct (Req_dec_T speed_of_sound 0) as [H | _]; [lra|].
    fold max_delay. fold out_len.
    destruct (Z.ltb_spec (channels self) 0) as [H | _]; [lia|].
    destruct (Z.ltb_spec out_len 0) as [H | _]; [unfold out_len in H; lia|].
    exact Hout. }
  split; [exact Hlen|].
  intros ch Hch'.
  destruct (Hrow ch) as (row & Hf & Hl & Hn).
  assert (Hnth : nth ch out [] = row).
  { assert (H : nth ch (map (@inr input_error (list R)) out) (inr []) = inr row).
    { rewrite Hmap.
      rewrite (nth_indep _ (inr []) (f 0%nat)) by (rewrite length_map, length_seq; lia).
      rewrite map_nth, seq_nth by lia. exact Hf. }
    rewrite (map_nth (@inr input_error (list R))) in H. now injection H. }
  rewrite Hnth. split; [exact Hl | exact Hn].
Qed.

End Ping.

Lemma make_array_ping_rows_witness :
  let self := mkSonarInput 44100 102 in
  let max_delay := delay_of_range exact64 self 1500 (max_range [(0%Z, 1500)]) in
  exists out : list (list R),
    make_array_ping exact64 self [1; 2] [(0%Z, 1500)] 1500 = inr out /\
    length out = Z.to_nat (channels self) /\
    forall ch : nat, (ch < length out)%nat ->
      length (nth ch out []) = (length [1; 2] + Z.to_nat max_delay + 10)%nat /\
      match ranges_get [(0%Z, 1500)] (Z.of_nat ch) with
      | None => forall n : nat, nth n (nth ch out []) 0 = 0
      | Some r =>
          forall n : nat,
            nth n (nth ch out []) 0 =
            1 / (1 + r / 1000) *
            zero_ext [1; 2] (Z.of_nat n - delay_of_range exact64 self 1500 r)
      end.
Proof.
  apply (make_array_ping_rows exact64 exact64_rounding
           (mkSonarInput 44100 102) [1; 2] [(0%Z, 1500)] 1500).
  - lra.
  - simpl. lia.
  - simpl. lia.
  - constructor; [simpl; lra | constructor].
Defined.

(** *** The ping *)

Lemma np_hanning_length (M : nat) : length (np_hanning M) = M.
Proof.
  destruct M as [|[|M]]; [reflexivity | reflexivity|].
  unfold np_hanning. now rewrite length_map, length_seq.
Qed.

Lemma np_hanning_range (M i : nat) : 0 <= nth i (np_hanning M) 0 <= 1.
Proof.
  destruct (Nat.lt_ge_cases i (length (np_hanning M))) as [Hi | Hi].
  2:{ rewrite nth_overflow by exact Hi. lra. }
  rewrite np_hanning_length in Hi.
  destruct M as [|[|M]]; [lia | |].
  - destruct i as [|i]; [simpl; lra | lia].
  - unfold np_hanning.
    set (f := fun i : nat => _).
    rewrite (nth_indep _ 0 (f 0%nat)) by (rewrite length_map, length_seq; exact Hi).
    rewrite map_nth, seq_nth by exact Hi. unfold f.
    match goal with |- context [cos ?a] => pose proof (COS_bound a) as [Hlo Hhi] end.
    lra.
Qed.

Lemma np_hanning_ends (M : nat) :
  (2 <= M)%nat -> nth 0 (np_hanning M) 0 = 0 /\ nth (M - 1) (np_hanning M) 0 = 0.
Proof.
  intros HM. destruct M as [|[|M]]; [lia | lia|].
  assert (Hpos : 0 < INR (S (S M)) - 1) by (rewrite !S_INR; pose proof (pos_INR M); lra).
  assert (Hlast : INR (S (S M) - 1) = INR (S (S M)) - 1).
  { rewrite minus_INR by lia. simpl. ring. }
  unfold np_hanning. set (f := fun i : nat => _). split.
  - rewrite (nth_indep _ 0 (f 0%nat)) by (rewrite length_map, length_seq; lia).
    rewrite map_nth, seq_nth by lia. unfold f. cbn [plus].
    change (INR 0) with 0.
    revert Hpos. generalize (INR (S (S M))). intros x Hx.
    replace (PI * (1 - x + 2 * 0) / (x - 1)) with (- PI) by (field; lra).
    rewrite cos_neg, cos_PI. lra.
  - rewrite (nth_indep _ 0 (f 0%nat)) by (rewrite length_map, length_seq; lia).
    rewrite map_nth, seq_nth by lia. unfold f. cbn [plus].
    rewrite Hlast.
    revert Hpos. generalize (INR (S (S M))). intros x Hx.
    replace (PI * (1 - x + 2 * (x - 1)) / (x - 1)) with PI by (field; lra).
    rewrite cos_PI. lra.
Qed.

(** X28. For a duration that is not zero and a sample count
    [int(sample_rate * duration)] (the float product, truncated) that is not
    negative, [generate_chirp] returns that many samples, all of magnitude at
    most 1; with two samples or more the window brings the first and the
    last sample to zero. *)
Theorem generate_chirp_windowed (F : float64) (self : SonarInput) (f0 f1 duration : R)
    (Hd : duration <> 0) (Hnum : (0 <= chirp_samples F self duration)%Z) :
  exists sig : list R,
    generate_chirp F self f0 f1 duration = inr sig /\
    Z.of_nat (length sig) = chirp_samples F self duration /\
    (forall i : nat, Rabs (nth i sig 0) <= 1) /\
    ((2 <= length sig)%nat ->
     nth 0 sig 0 = 0 /\ nth (length sig - 1) sig 0 = 0).
Proof.
  unfold generate_chirp, chirp_linear.
  destruct (Z.ltb_spec (chirp_samples F self duration) 0) as [H | _]; [lia|].
  destruct (Req_dec_T duration 0) as [H | _]; [contradiction|].
  set (n := Z.to_nat (chirp_samples F self duration)).
  set (carrier := map _ (np_linspace0 duration n)).
  assert (Hlc : length carrier = n).
  { unfold carrier, np_linspace0. now rewrite !length_map, length_seq. }
  rewrite Hlc.
  eexists; split; [reflexivity|].
  assert (Hlen : length (map (fun p : R * R => fst p * snd p)
                             (combine carrier (np_hanning n))) = n).
  { rewrite length_map, length_combine, Hlc, np_hanning_length. lia. }
  assert (Hnth : forall i : nat,
            nth i (map (fun p : R * R => fst p * snd p) (combine carrier (np_hanning n))) 0 =
            nth i carrier 0 * nth i (np_hanning n) 0).
  { intros i. destruct (Nat.lt_ge_cases i n) as [Hi | Hi].
    - rewrite (nth_indep _ 0 ((fun p : R * R => fst p * snd p) (0, 0)))
        by (rewrite Hlen; exact Hi).
      rewrite (map_nth (fun p : R * R => fst p * snd p)).
      rewrite combine_nth by (rewrite Hlc, np_hanning_length; reflexivity).
      reflexivity.
    - rewrite (nth_overflow (map _ _)) by (rewrite Hlen; exact Hi).
      rewrite (nth_overflow carrier) by (rewrite Hlc; exact Hi). ring. }
  split; [rewrite Hlen; unfold n; lia|]. split.
  - intros i. rewrite Hnth.
    pose proof (np_hanning_range n i) as [Hw0 Hw1].
    assert (Hc : -1 <= nth i carrier 0 <= 1).
    { destruct (Nat.lt_ge_cases i n) as [Hi | Hi].
      - unfold carrier.
        set (g := fun ti : R => cos _).
        rewrite (nth_indep _ 0 (g 0))
          by (unfold np_linspace0; rewrite !length_map, length_seq; exact Hi).
        rewrite map_nth. unfold g. apply COS_bound.
      - rewrite nth_overflow by (rewrite Hlc; exact Hi). lra. }
    apply Rabs_le. split; nra.
  - rewrite Hlen. intros H2. rewrite !Hnth.
    destruct (np_hanning_ends n H2) as [-> ->]. split; ring.
Qed.

Lemma chirp_samples_exact_5 : chirp_samples exact64 (mkSonarInput 10 1) (1 / 2) = 5%Z.
Proof.
  unfold chirp_samples, exact64; cbn [rnd sample_rate].
  replace (10 * (1 / 2)) with (IZR 5) by (simpl; lra).
  apply py_int_IZR.
Qed.

Lemma generate_chirp_windowed_witness :
  exists sig : list R,
    generate_chirp exact64 (mkSonarInput 10 1) 2000 8000 (1 / 2) = inr sig /\
    Z.of_nat (length sig) = chirp_samples exact64 (mkSonarInput 10 1) (1 / 2) /\
    (forall i : nat, Rabs (nth i sig 0) <= 1) /\
    ((2 <= length sig)%nat ->
     nth 0 sig 0 = 0 /\ nth (length sig - 1) sig 0 = 0).
Proof.
  apply (generate_chirp_windowed exact64 (mkSonarInput 10 1) 2000 8000 (1 / 2)).
  - lra.
  - rewrite chirp_samples_exact_5. lia.
Defined.

End InputFacts.

Module MainFacts.
Import Main.

(** Deviations beyond three [sigma] are paid for by the sum of squares. *)
Lemma outliers_cost (mu sigma : R) (l : list R) :
  0 <= sigma ->
  9 * (sigma * sigma) *
    INR (count_true (map (fun x => if Rlt_dec (mu + 3 * sigma) x then true else false) l))
    <= Rsum (map (fun x => (x - mu) * (x - mu)) l) /\
  ((0 < count_true (map (fun x => if Rlt_dec (mu + 3 * sigma) x then true else false) l))%nat ->
   9 * (sigma * sigma) *
    INR (count_true (map (fun x => if Rlt_dec (mu + 3 * sigma) x then true else false) l))
    < Rsum (map (fun x => (x - mu) * (x - mu)) l)).
Proof.
  intros Hs. unfold count_true. induction l as [|x t IH].
  - simpl. split; [lra | intros H; inversion H].
  - change (Rsum (map (fun x => (x - mu) * (x - mu)) (x :: t)))
      with ((x - mu) * (x - mu) + Rsum (map (fun x => (x - mu) * (x - mu)) t)).
    cbn [map filter].
    revert IH.
    generalize (Rsum (map (fun x => (x - mu) * (x - mu)) t)).
    generalize (filter (fun b : bool => b)
                  (map (fun x => if Rlt_dec (mu + 3 * sigma) x then true else false) t)).
    intros picked total [IH1 IH2].
    destruct (Rlt_dec (mu + 3 * sigma) x) as [Hx | Hx].
    + cbn [length]. rewrite S_INR.
      assert (Hprod : 0 < (x - mu - 3 * sigma) * (x - mu + 3 * sigma))
        by (apply Rmult_lt_0_compat; lra).
      assert (H9 : 9 * (sigma * sigma) < (x - mu) * (x - mu)).
      { replace ((x - mu) * (x - mu))
          with ((x - mu - 3 * sigma) * (x - mu + 3 * sigma) + 9 * (sigma * sigma)) by ring.
        lra. }
      rewrite Rmult_plus_distr_l, Rmult_1_r.
      split; [|intros _]; lra.
    + cbv iota.
      pose proof (Rle_0_sqr (x - mu)) as Hsq. unfold Rsqr in Hsq.
      split; [lra|]. intros Hc. specialize (IH2 Hc). lra.
Qed.

Lemma np_std_square (l : list R) :
  l <> [] ->
  INR (length l) * (np_std l * np_std l) =
  Rsum (map (fun x => (x - np_mean l) * (x - np_mean l)) l).
Proof.
  intros Hne.
  assert (Hn : 0 < INR (length l)).
  { apply lt_0_INR. destruct l; [congruence | simpl; lia]. }
  assert (Heq : map (fun x => Rabs (x - np_mean l) * Rabs (x - np_mean l)) l =
                map (fun x => (x - np_mean l) * (x - np_mean l)) l).
  { apply map_ext. intros x.
    pose proof (Rsqr_abs (x - np_mean l)) as H. unfold Rsqr in H. lra. }
  assert (Hpos : 0 <= Rsum (map (fun x => (x - np_mean l) * (x - np_mean l)) l)).
  { generalize (np_mean l). intros m. clear.
    induction l as [|x t IH]; simpl; [lra|].
    pose proof (Rle_0_sqr (x - m)) as Hsq. unfold Rsqr in Hsq. lra. }
  unfold np_std. rewrite Heq.
  revert Hpos. generalize (np_mean l). intros mu Hpos.
  assert (Hm : 0 <= np_mean (map (fun x => (x - mu) * (x - mu)) l)).
  { unfold np_mean. rewrite length_map.
    apply Rmult_le_pos; [exact Hpos | left; apply Rinv_0_lt_compat; exact Hn]. }
  rewrite sqrt_sqrt by exact Hm.
  unfold np_mean. rewrite length_map. field. lra.
Qed.

(** X29. The peak rule of [run_simulation] picks fewer than a ninth of the
    bearings: for a non-empty array of magnitudes the number of entries above
    [mean + 3 * std] is below [len / 9] (at most 7 of the 72 bearings
    scanned). *)
Theorem peaks_fewer_than_a_ninth (mags : list R) (Hne : mags <> []) :
  (9 * count_true (peaks mags) < length mags)%nat.
Proof.
  assert (Hn : (0 < length mags)%nat) by (destruct mags; [congruence | simpl; lia]).
  assert (Hs : 0 <= np_std mags) by apply sqrt_pos.
  destruct (outliers_cost (np_mean mags) (np_std mags) mags Hs) as [Hle Hlt].
  unfold peaks.
  rewrite <- np_std_square in Hle, Hlt by exact Hne.
  revert Hle Hlt. generalize (count_true
    (map (fun x => if Rlt_dec (np_mean mags + 3 * np_std mags) x then true else false) mags)).
  intros c Hle Hlt.
  destruct (Nat.eq_0_gt_0_cases c) as [H0 | Hpos]; [lia|].
  specialize (Hlt Hpos).
  pose proof (Rle_0_sqr (np_std mags)) as Hsq. unfold Rsqr in Hsq.
  assert (Hsig : 0 < np_std mags * np_std mags).
  { destruct Hsq as [H | H]; [exact H|].
    rewrite <- H in Hlt. rewrite !Rmult_0_r, Rmult_0_l in Hlt. lra. }
  assert (Hr : 9 * INR c < INR (length mags)).
  { apply Rmult_lt_reg_l with (np_std mags * np_std mags); [exact Hsig|]. lra. }
  apply INR_lt. rewrite mult_INR.
  replace (INR 9) with 9 by (simpl; ring). exact Hr.
Qed.

Lemma peaks_fewer_than_a_ninth_witness :
  (9 * count_true (peaks [1; 2; 30]%R) < length [1; 2; 30]%R)%nat.
Proof.
  apply (peaks_fewer_than_a_ninth [1; 2; 30]). discriminate.
Defined.

End MainFacts.
